(** * Transaction builder: shallow embedding of [builder/Transaction.ts]

    The development follows the TypeScript source top to bottom:

    - the result handle returned by [Transaction.add]
      ([createTransactionResult], a [Proxy] with a cache of nested results);
    - the input registry ([#input], [object], [pure]);
    - the resolution pipeline [#prepare], written in a state-and-exception
      monad over the transaction data and the log of remote calls.

    Functions imported from modules other than [Transaction.ts] are
    gathered in the class [Imports]; the remote query service is the record
    [Provider]. *)

From Stdlib Require Import ZArith Ascii String DecimalString DecimalN DecimalPos Lia.
From stdpp Require Import base option list gmap strings.

Set Warnings "-register-all".
Local Open Scope string_scope.
Local Open Scope list_scope.

(** ** Values *)

(** JavaScript values that callers hand to [tx.pure] and [tx.object]. *)
Inductive JsValue : Type :=
| JUndefined
| JString (s : string)
| JNumber (z : Z)
| JBool (b : bool)
| JBytes (bs : list Z)
| JArray (vs : list JsValue).

Record SuiObjectRef : Type := mkObjectRef {
  objectId : string;
  version : N;
  digest : string;
}.

(** Modelled from the spec: [ObjectCallArg] of [./Inputs], as step 5 reads
    it ([value.Object.ImmOrOwned.objectId]) and step 4 builds it:
    [{ Object: { ImmOrOwned: ref } }] or
    [{ Object: { Shared: { objectId, initialSharedVersion, mutable } } }]. *)
Inductive ObjectArg : Type :=
| ImmOrOwned (ref : SuiObjectRef)
| Shared (sharedId : string) (initialSharedVersion : N) (mutable : bool).

(** Modelled from the spec: [BuilderCallArg] of [./Inputs],
    [{ Pure: number[] }] or an [ObjectCallArg]. *)
Inductive BuilderCallArg : Type :=
| Pure (bytes : list Z)
| Object (o : ObjectArg).

(** The [value] slot of an input. [Resolved c] are exactly the values for
    which [is(value, BuilderCallArg)] holds; everything else is [Raw]. *)
Inductive InputValue : Type :=
| Raw (v : JsValue)
| Resolved (c : BuilderCallArg).

(** [is(v, BuilderCallArg)] *)
Definition is_BuilderCallArg (v : InputValue) : bool :=
  match v with Resolved _ => true | Raw _ => false end.

(** [typeof v === 'string'], with the string when it is one. *)
Definition as_string (v : InputValue) : option string :=
  match v with Raw (JString s) => Some s | _ => None end.

Inductive InputType : Type := TyObject | TyPure.

Global Instance InputType_eq_dec : EqDecision InputType.
Proof. solve_decision. Defined.

(** [TransactionInput]: [{ kind: 'Input', value, index, type }]. *)
Record TransactionInput : Type := mkInput {
  in_index : nat;
  in_value : InputValue;
  in_type : option InputType;
}.

Definition set_value (v : InputValue) (i : TransactionInput) : TransactionInput :=
  {| in_index := in_index i; in_value := v; in_type := in_type i |}.

(** [CommandArgument] *)
Inductive CommandArgument : Type :=
| Input (index : nat)
| GasCoin
| Result (index : nat)
| NestedResult (index : nat) (resultIndex : N).

(** Modelled from the spec: [SuiMoveNormalizedType] of [../types], a
    primitive named by a string, or an object with one of the keys
    [TypeParameter], [Reference], [MutableReference], [Vector], [Struct]. *)
Inductive SuiMoveNormalizedType : Type :=
| TPrim (name : string)
| TTypeParameter (n : nat)
| TReference (t : SuiMoveNormalizedType)
| TMutableReference (t : SuiMoveNormalizedType)
| TVector (t : SuiMoveNormalizedType)
| TStruct (address module name : string) (typeArguments : list SuiMoveNormalizedType).

(** [typeof param === 'object' && 'TypeParameter' in param] *)
Definition is_TypeParameter (p : SuiMoveNormalizedType) : bool :=
  match p with TTypeParameter _ => true | _ => false end.

(** [WellKnownEncoding]: [{ kind: 'object' }] or [{ kind: 'pure', type }]. *)
Inductive WellKnownEncoding : Type :=
| EncObject
| EncPure (ty : string).

(** The schema entry of one command field: whether it is an array, and the
    encoding attached to it (or to its items) under [COMMAND_TYPE]. *)
Record KeySchema : Type := mkKeySchema {
  isArray : bool;
  wellKnownEncoding : option WellKnownEncoding;
}.

(** The value of one command field. *)
Inductive FieldValue : Type :=
| FArg (a : CommandArgument)
| FArgs (items : list CommandArgument)
| FPlain (v : JsValue).

(** [MoveCallCommand] *)
Record MoveCallCommand : Type := mkMoveCall {
  target : string;
  typeArguments : list string;
  arguments : list CommandArgument;
}.

(** [TransactionCommand]. A Move call is singled out by the source; every
    other command is walked through [Object.entries], so it is kept as its
    kind and its entries in order. *)
Inductive TransactionCommand : Type :=
| MoveCall (call : MoveCallCommand)
| Command (kind : string) (fields : list (string * FieldValue)).

Record GasConfig : Type := mkGasConfig {
  price : option string;
  budget : option string;
  payment : option (list SuiObjectRef);
}.

(** [TransactionDataBuilder], as far as [Transaction.ts] reads and writes it. *)
Record TransactionData : Type := mkTransactionData {
  sender : option string;
  gasConfig : GasConfig;
  inputs : list TransactionInput;
  commands : list TransactionCommand;
}.

Definition set_inputs (l : list TransactionInput) (td : TransactionData) : TransactionData :=
  {| sender := sender td; gasConfig := gasConfig td; inputs := l; commands := commands td |}.

Definition set_commands (l : list TransactionCommand) (td : TransactionData) : TransactionData :=
  {| sender := sender td; gasConfig := gasConfig td; inputs := inputs td; commands := l |}.

Definition set_gasConfig (g : GasConfig) (td : TransactionData) : TransactionData :=
  {| sender := sender td; gasConfig := g; inputs := inputs td; commands := commands td |}.

(** ** The remote query service and the imported helpers *)

(** Everything [#prepare] can throw. *)
Inductive Error : Type :=
| MissingSender
| MissingGasBudget
| NoProvider
| MissingInput
| UnexpectedInputFormat
| IncorrectNumberOfArguments
| ExpectObjectIdString (got : InputValue)
| UnknownCallArgType (param : SuiMoveNormalizedType) (got : InputValue)
| InvalidObjects (ids : list string)
| NoValidGasCoins
| ProxySetNotSupported
| TypeError
| Thrown (msg : string).

(** Modelled from the spec: one entry of what [provider.getObjectBatch]
    returns, its [status] and, for an existing object, its owner and its
    current reference. [#prepare] itself only reads [status]. *)
Inductive ObjectOwner : Type :=
| AddressOwner (address : string)
| ObjectOwner_ (parent : string)
| SharedOwner (initial_shared_version : N)
| ImmutableOwner.

Record SuiObjectResponse : Type := mkObjectResponse {
  status : string;
  owner : option ObjectOwner;
  reference : option SuiObjectRef;
}.

Record Coin : Type := mkCoin {
  coinObjectId : string;
  coinDigest : string;
  coinVersion : N;
}.

(** [Provider]: the four calls [#prepare] makes. A call yields its value
    or rejects with a message of its own. *)
Record Provider : Type := mkProvider {
  getReferenceGasPrice : string + N;
  getNormalizedMoveFunction :
    string -> option string -> option string -> string + list SuiMoveNormalizedType;
  getObjectBatch : list string -> string + list SuiObjectResponse;
  getCoins : option string -> string -> string + list Coin;
}.

(** Functions and constants that [Transaction.ts] imports from [../types],
    [./Commands], [./Inputs], [./serializer] and [./utils]. Those that can
    throw yield their value or the message of their own exception. *)
Class Imports : Type := {
  getIdFromCallArg : InputValue -> string;
  normalizeSuiObjectId : string -> string;
  getTransactionCommandType : TransactionCommand -> option (string -> KeySchema);
  getPureSerializationType : SuiMoveNormalizedType -> InputValue -> string + option string;
  isTxContext : SuiMoveNormalizedType -> bool;
  extractStructTag : SuiMoveNormalizedType -> option SuiMoveNormalizedType;
  extractMutableReference : SuiMoveNormalizedType -> option SuiMoveNormalizedType;
  Inputs_Pure : string -> InputValue -> string + list Z;
  getSharedObjectInitialVersion : SuiObjectResponse -> option N;
  getObjectReference : SuiObjectResponse -> SuiObjectRef;
  SUI_TYPE_ARG : string;
}.

(** ** The input registry *)

Section Registry.
Context `{Imports}.

(** A reference to an input object is its position in [inputs]: inputs are
    only ever pushed, never moved or removed. *)
Definition InputRef : Type := nat.

(** [#input(type, value)]. The [create] around the new input only checks
    it against the [TransactionInput] struct, which it satisfies. *)
Definition input_ (type : InputType) (value : InputValue) (td : TransactionData)
  : InputRef * TransactionData :=
  let index := length (inputs td) in
  let input := {| in_index := index; in_value := value; in_type := Some type |} in
  (index, set_inputs (inputs td ++ [input]) td).

(** The predicate handed to [inputs.find] in [object]. *)
Definition same_object (id : string) (i : TransactionInput) : Prop :=
  in_type i = Some TyObject ∧ id = getIdFromCallArg (in_value i).

Global Instance same_object_dec id i : Decision (same_object id i).
Proof. unfold same_object. apply _. Defined.

(** [object(value)] *)
Definition object_ (value : InputValue) (td : TransactionData)
  : InputRef * TransactionData :=
  let id := getIdFromCallArg value in
  match list_find (same_object id) (inputs td) with
  | Some (pos, _) => (pos, td)
  | None => input_ TyObject value td
  end.

(** [pure(value)] *)
Definition pure_ (value : InputValue) (td : TransactionData)
  : InputRef * TransactionData :=
  input_ TyPure value td.

End Registry.

(** ** The result handle *)

(** Keys of a property access: a string, [Symbol.iterator], or another symbol. *)
Inductive PropertyKey : Type :=
| KString (s : string)
| KIterator
| KSymbol (description : string).

(** What a property read on the handle evaluates to. *)
Inductive Got : Type :=
| GotValue (v : JsValue)
| GotInherited (name : string)
| GotIterator
| GotUndefined
| GotNested (ref : nat).

(** [Number.MAX_SAFE_INTEGER] *)
Definition MAX_SAFE_INTEGER : N := 2 ^ 53 - 1.

(** [String(n)] for a non-negative integer [n]: its decimal numeral. This
    is what JavaScript prints up to [MAX_SAFE_INTEGER] and beyond, until it
    switches to an exponent at [1e21]. *)
Definition String_ (n : N) : string := NilEmpty.string_of_uint (N.to_uint n).

(** [parseInt(s, 10)]: leading white space, an optional sign, then the
    longest run of decimal digits; [None] is [NaN]. The value is kept exact,
    as it is in JavaScript up to [MAX_SAFE_INTEGER]. *)
Definition is_whitespace (c : ascii) : bool :=
  match nat_of_ascii c with
  | 9 | 10 | 11 | 12 | 13 | 32 => true
  | _ => false
  end.

Fixpoint skip_whitespace (s : string) : string :=
  match s with
  | String c r => if is_whitespace c then skip_whitespace r else s
  | EmptyString => s
  end.

Definition digit_of (c : ascii) : option N :=
  let n := N_of_ascii c in
  if (48 <=? n)%N && (n <=? 57)%N then Some (n - 48)%N else None.

Fixpoint read_digits (s : string) (acc : N) : N :=
  match s with
  | String c r =>
      match digit_of c with
      | Some d => read_digits r (10 * acc + d)%N
      | None => acc
      end
  | EmptyString => acc
  end.

Definition starts_with_digit (s : string) : bool :=
  match s with
  | String c _ => bool_decide (is_Some (digit_of c))
  | EmptyString => false
  end.

Definition parseInt (s : string) : option Z :=
  let s := skip_whitespace s in
  let '(negative, s) :=
    match s with
    | String "-" r => (true, r)
    | String "+" r => (false, r)
    | _ => (false, s)
    end in
  if starts_with_digit s
  then Some (if negative : bool then - Z.of_N (read_digits s 0) else Z.of_N (read_digits s 0))%Z
  else None.

(** The string-keyed members every object inherits from [Object.prototype]. *)
Definition Object_prototype_keys : list string :=
  [ "constructor"; "hasOwnProperty"; "isPrototypeOf"; "propertyIsEnumerable";
    "toLocaleString"; "toString"; "valueOf"; "__proto__";
    "__defineGetter__"; "__defineSetter__"; "__lookupGetter__"; "__lookupSetter__" ].

(** The state closed over by one proxy: the captured command [index], the
    sparse array [nestedResults], and the nested-result objects allocated so
    far. An object is referred to by its position in [allocated], so two
    reads yield the same object exactly when they yield the same position. *)
Record ResultHandle : Type := mkHandle {
  baseIndex : nat;
  nestedResults : gmap N nat;
  allocated : list CommandArgument;
}.

(** [createTransactionResult(index)] *)
Definition createTransactionResult (index : nat) : ResultHandle :=
  {| baseIndex := index; nestedResults := ∅; allocated := [] |}.

(** [nestedResults[resultIndex] ??= { kind: 'NestedResult', index, resultIndex }] *)
Definition nestedResultFor (resultIndex : N) (h : ResultHandle) : nat * ResultHandle :=
  match nestedResults h !! resultIndex with
  | Some ref => (ref, h)
  | None =>
      let ref := length (allocated h) in
      (ref, {| baseIndex := baseIndex h;
               nestedResults := <[resultIndex := ref]> (nestedResults h);
               allocated := allocated h ++ [NestedResult (baseIndex h) resultIndex] |})
  end.

(** [property in target], for [target = { kind: 'Result', index }]. *)
Definition in_target (property : PropertyKey) : bool :=
  match property with
  | KString s => bool_decide (s ∈ "kind" :: "index" :: Object_prototype_keys)
  | _ => false
  end.

(** [Reflect.get(target, property)] for a property of the target. *)
Definition Reflect_get (h : ResultHandle) (s : string) : Got :=
  if String.eqb s "kind" then GotValue (JString "Result")
  else if String.eqb s "index" then GotValue (JNumber (Z.of_nat (baseIndex h)))
  else GotInherited s.

(** The [get] trap. *)
Definition proxy_get (property : PropertyKey) (h : ResultHandle) : Got * ResultHandle :=
  if in_target property then
    match property with
    | KString s => (Reflect_get h s, h)
    | _ => (GotUndefined, h)
    end
  else
    match property with
    | KIterator => (GotIterator, h)
    | KSymbol _ => (GotUndefined, h)
    | KString s =>
        match parseInt s with
        | None => (GotUndefined, h)
        | Some resultIndex =>
            if (resultIndex <? 0)%Z then (GotUndefined, h)
            else
              let '(ref, h') := nestedResultFor (Z.to_N resultIndex) h in
              (GotNested ref, h')
        end
    end.

(** The [set] trap. *)
Definition proxy_set (property : PropertyKey) (v : JsValue) (h : ResultHandle)
  : Error + ResultHandle :=
  inl ProxySetNotSupported.

(** The generator behind [Symbol.iterator], run for its first [n] values
    starting at [i]. *)
Fixpoint iterate (i : N) (n : nat) (h : ResultHandle) : list nat * ResultHandle :=
  match n with
  | O => ([], h)
  | S n' =>
      let '(ref, h1) := nestedResultFor i h in
      let '(refs, h2) := iterate (i + 1) n' h1 in
      (ref :: refs, h2)
  end.

(** [add(command)] *)
Definition add (command : TransactionCommand) (td : TransactionData)
  : ResultHandle * TransactionData :=
  let cmds := commands td ++ [command] in
  let index := length cmds in
  (createTransactionResult (index - 1), set_commands cmds td).

(** The handles a program can hold: a fresh one, or one already read from. *)
Inductive handle_of (index : nat) : ResultHandle -> Prop :=
| handle_fresh : handle_of index (createTransactionResult index)
| handle_read h property :
    handle_of index h -> handle_of index (snd (proxy_get property h)).

(** Every slot of [nestedResults] refers to the nested result made for it. *)
Definition handle_inv (index : nat) (h : ResultHandle) : Prop :=
  baseIndex h = index ∧
  ∀ i ref, nestedResults h !! i = Some ref ->
           allocated h !! ref = Some (NestedResult index i).

(** ** The resolution pipeline *)

(** Calls sent to the remote query service, in the order they are sent. *)
Inductive RemoteCall : Type :=
| CallGetReferenceGasPrice
| CallGetNormalizedMoveFunction (package : string) (module function : option string)
| CallGetObjectBatch (ids : list string)
| CallGetCoins (owner : option string) (coinType : string).

(** An entry of the local array [objectsToResolve]. The input is kept by
    reference, that is by its position in [inputs]. *)
Record ObjectToResolve : Type := mkToResolve {
  otr_id : string;
  otr_input : nat;
  otr_normalizedType : option SuiMoveNormalizedType;
}.

(** What [#prepare] reads and writes: the transaction data, the calls made
    so far, and its two local queues. *)
Record State : Type := mkState {
  data : TransactionData;
  calls : list RemoteCall;
  moveModulesToResolve : list MoveCallCommand;
  objectsToResolve : list ObjectToResolve;
}.

Definition initial (td : TransactionData) : State :=
  {| data := td; calls := []; moveModulesToResolve := []; objectsToResolve := [] |}.

(** Computations that read and write the state and may throw. A throw keeps
    the state reached so far: nothing is rolled back. *)
Definition M (A : Type) : Type := State -> (Error + A) * State.

Definition ret {A} (a : A) : M A := fun st => (inr a, st).

Definition throw {A} (e : Error) : M A := fun st => (inl e, st).

Definition bind {A B} (m : M A) (k : A -> M B) : M B :=
  fun st =>
    match m st with
    | (inr a, st') => k a st'
    | (inl e, st') => (inl e, st')
    end.

Notation "x <- m ;; k" := (bind m (fun x => k))
  (at level 100, m at next level, right associativity).
Notation "m ;; k" := (bind m (fun _ => k))
  (at level 100, right associativity).

Definition lift {A} (r : Error + A) : M A :=
  match r with inl e => throw e | inr a => ret a end.

(** An exception of an imported function, or a rejected call, as [#prepare]
    sees it. *)
Definition thrown {A} (r : string + A) : Error + A :=
  match r with inl msg => inl (Thrown msg) | inr a => inr a end.

Definition get_data : M TransactionData := fun st => (inr (data st), st).

Definition get_inputs : M (list TransactionInput) := fun st => (inr (inputs (data st)), st).

Definition modify_data (f : TransactionData -> TransactionData) : M unit :=
  fun st =>
    (inr tt, {| data := f (data st); calls := calls st;
                moveModulesToResolve := moveModulesToResolve st;
                objectsToResolve := objectsToResolve st |}).

(** A computation keeps a relation when every run, thrown or not, ends in
    a state related to the one it started from. *)
Definition keeps {A} (R : State -> State -> Prop) (m : M A) : Prop :=
  ∀ st, R st (snd (m st)).

(** The calls made between two states all satisfy [P]. *)
Definition logs (P : RemoteCall -> Prop) (st st' : State) : Prop :=
  ∃ extra, calls st' = calls st ++ extra ∧ Forall P extra.

(** Nothing but the values of the inputs differs between two states'
    transaction data. *)
Definition frame (st st' : State) : Prop :=
  sender (data st') = sender (data st) ∧
  gasConfig (data st') = gasConfig (data st) ∧
  commands (data st') = commands (data st) ∧
  length (inputs (data st')) = length (inputs (data st)).

(** Sender and gas payment are the same in two states. *)
Definition same_payer (st st' : State) : Prop :=
  sender (data st') = sender (data st) ∧
  payment (gasConfig (data st')) = payment (gasConfig (data st)).

(** With a payment in place, it stays and no coins are asked for. *)
Definition paid_quietly (st st' : State) : Prop :=
  is_Some (payment (gasConfig (data st))) ->
  payment (gasConfig (data st')) = payment (gasConfig (data st)) ∧
  logs (fun c => ∀ owner coinType, c ≠ CallGetCoins owner coinType) st st'.

(** The gas price is the same in two states. *)
Definition same_price (st st' : State) : Prop :=
  price (gasConfig (data st')) = price (gasConfig (data st)).

(** [input.value = v], for the input at position [ref]. *)
Definition set_input_value (ref : nat) (v : InputValue) : M unit :=
  modify_data (fun td => set_inputs (alter (set_value v) ref (inputs td)) td).

(** [moveModulesToResolve.push(call)] *)
Definition push_moveCall (call : MoveCallCommand) : M unit :=
  fun st =>
    (inr tt, {| data := data st; calls := calls st;
                moveModulesToResolve := moveModulesToResolve st ++ [call];
                objectsToResolve := objectsToResolve st |}).

(** [objectsToResolve.push(entry)] *)
Definition push_object (entry : ObjectToResolve) : M unit :=
  fun st =>
    (inr tt, {| data := data st; calls := calls st;
                moveModulesToResolve := moveModulesToResolve st;
                objectsToResolve := objectsToResolve st ++ [entry] |}).

(** Sending a call: it is logged, and its outcome is available later. *)
Definition send (c : RemoteCall) : M unit :=
  fun st =>
    (inr tt, {| data := data st; calls := calls st ++ [c];
                moveModulesToResolve := moveModulesToResolve st;
                objectsToResolve := objectsToResolve st |}).

(** [await] of a call: sent, then its value or its rejection. *)
Definition remote {A} (c : RemoteCall) (outcome : Error + A) : M A :=
  send c ;; lift outcome.

(** [array.forEach((x, i) => f(i, x))], counting from [i]. *)
Fixpoint forEachFrom {A} (i : nat) (f : nat -> A -> M unit) (l : list A) : M unit :=
  match l with
  | [] => ret tt
  | x :: r => f i x ;; forEachFrom (S i) f r
  end.

Definition forEach {A} (f : A -> M unit) (l : list A) : M unit :=
  forEachFrom 0 (fun _ => f) l.

(** [expectProvider(provider)] *)
Definition expectProvider (provider : option Provider) : M Provider :=
  match provider with
  | None => throw NoProvider
  | Some p => ret p
  end.

(** [!s] for a string that may be undefined. *)
Definition falsy (s : option string) : bool :=
  match s with
  | None => true
  | Some s => String.eqb s ""
  end.

(** Modelled from the spec: [isMutableSharedObjectInput] of [./Inputs],
    which is not part of the sources at hand. It holds of an input value
    that is a shared-object call argument already marked mutable. *)
Definition isMutableSharedObjectInput (v : InputValue) : bool :=
  match v with
  | Resolved (Object (Shared _ _ m)) => m
  | _ => false
  end.

(** Modelled from the spec: [Inputs.SharedObjectRef] and [Inputs.ObjectRef]
    of [./Inputs], which wrap their argument into an [ObjectCallArg]. *)
Definition Inputs_SharedObjectRef (id : string) (v : N) (m : bool) : InputValue :=
  Resolved (Object (Shared id v m)).

Definition Inputs_ObjectRef (r : SuiObjectRef) : InputValue :=
  Resolved (Object (ImmOrOwned r)).

(** [is(input, BuilderCallArg)] applied to the input itself: an object
    [{ kind: 'Input', value, index, type }] has neither a [Pure] nor an
    [Object] member, so it never matches the union. *)
Definition input_is_BuilderCallArg (input : TransactionInput) : bool := false.

(** [s.split('::')] *)
Fixpoint split_colons (s : string) (piece : string) : list string :=
  match s with
  | EmptyString => [piece]
  | String c r =>
      match r with
      | String c' r' =>
          if Ascii.eqb c ":" && Ascii.eqb c' ":"
          then piece :: split_colons r' EmptyString
          else split_colons r (String.append piece (String c EmptyString))
      | EmptyString => [String.append piece (String c EmptyString)]
      end
  end.

(** [[...new Set(ids)]]: first occurrences, in order. *)
Fixpoint dedupe_from (seen : list string) (ids : list string) : list string :=
  match ids with
  | [] => []
  | id :: r =>
      if bool_decide (id ∈ seen) then dedupe_from seen r
      else id :: dedupe_from (id :: seen) r
  end.

Definition dedupe (ids : list string) : list string := dedupe_from [] ids.

(** [map.get(id)] on a map kept as its entries. *)
Fixpoint map_get {V} (id : string) (m : list (string * V)) : option V :=
  match m with
  | [] => None
  | (k, v) :: r => if String.eqb k id then Some v else map_get id r
  end.

Section Pipeline.
Context `{Imports}.
Variable provider : option Provider.

(** *** Step 1: sender, budget and gas price (lines 283-295) *)

Definition set_price (p : string) (td : TransactionData) : TransactionData :=
  set_gasConfig {| price := Some p; budget := budget (gasConfig td);
                   payment := payment (gasConfig td) |} td.

Definition checkAndPrice : M unit :=
  td <- get_data ;;
  if falsy (sender td) then throw MissingSender
  else if falsy (budget (gasConfig td)) then throw MissingGasBudget
  else if falsy (price (gasConfig td)) then
    p <- expectProvider provider ;;
    fetched <- remote CallGetReferenceGasPrice (thrown (getReferenceGasPrice p)) ;;
    modify_data (set_price (String_ fetched))
  else ret tt.

(** *** Step 2: the scan over the commands (lines 309-376) *)

(** [command.arguments.some(arg => arg.kind === 'Input' &&
    !is(inputs[arg.index].value, BuilderCallArg))]; reading [.value] of a
    missing input is a [TypeError]. *)
Fixpoint needsResolution (ins : list TransactionInput) (args : list CommandArgument)
  : Error + bool :=
  match args with
  | [] => inr false
  | Input index :: rest =>
      match ins !! index with
      | None => inl TypeError
      | Some input =>
          if is_BuilderCallArg (in_value input)
          then needsResolution ins rest
          else inr true
      end
  | _ :: rest => needsResolution ins rest
  end.

(** [encodeInput(index)], for the [wellKnownEncoding] it closes over. *)
Definition encodeInput (wellKnown : WellKnownEncoding) (index : nat) : M unit :=
  ins <- get_inputs ;;
  match ins !! index with
  | None => throw MissingInput
  | Some input =>
      if is_BuilderCallArg (in_value input) then ret tt
      else
        match wellKnown, as_string (in_value input) with
        | EncObject, Some id =>
            push_object {| otr_id := id; otr_input := index; otr_normalizedType := None |}
        | EncPure ty, _ =>
            bytes <- lift (thrown (Inputs_Pure ty (in_value input))) ;;
            set_input_value index (Resolved (Pure bytes))
        | EncObject, None => throw UnexpectedInputFormat
        end
  end.

(** The body run for one entry [[key, value]] of a command. The schema is
    the one the command was matched against, so it has an entry for every
    key, and a field whose entry declares an encoding holds a command
    argument, or an array of them when the entry says so. *)
Definition encodeField (schema : string -> KeySchema) (entry : string * FieldValue)
  : M unit :=
  let '(key, value) := entry in
  if String.eqb key "kind" then ret tt
  else
    let keySchema := schema key in
    match wellKnownEncoding keySchema with
    | None => ret tt
    | Some wellKnown =>
        if isArray keySchema then
          match value with
          | FArgs items =>
              forEach (fun arrayItem =>
                         match arrayItem with
                         | Input index => encodeInput wellKnown index
                         | _ => ret tt
                         end) items
          | _ => throw TypeError
          end
        else
          match value with
          | FArg (Input index) => encodeInput wellKnown index
          | _ => ret tt
          end
    end.

(** The body of [commands.forEach]. *)
Definition classifyCommand (command : TransactionCommand) : M unit :=
  match command with
  | MoveCall call =>
      ins <- get_inputs ;;
      needed <- lift (needsResolution ins (arguments call)) ;;
      if needed : bool then push_moveCall call else ret tt
  | Command _ fields =>
      match getTransactionCommandType command with
      | None => ret tt
      | Some schema => forEach (encodeField schema) fields
      end
  end.

Definition classify : M unit :=
  td <- get_data ;;
  forEach classifyCommand (commands td).

(** *** Step 3: Move calls against their normalized signature (lines 378-455) *)

(** The call of one queued Move call is sent as soon as its async body
    starts; the outcome is what its [await] later yields. Without a
    provider the body rejects before anything is sent. *)
Definition requestSignature (call : MoveCallCommand)
  : M (Error + list SuiMoveNormalizedType) :=
  match provider with
  | None => ret (inl NoProvider)
  | Some p =>
      match split_colons (target call) EmptyString with
      | packageId :: rest =>
          let package := normalizeSuiObjectId packageId in
          send (CallGetNormalizedMoveFunction package (rest !! 0%nat) (rest !! 1%nat)) ;;
          ret (thrown (getNormalizedMoveFunction p package (rest !! 0%nat) (rest !! 1%nat)))
      | [] => ret (inl TypeError)
      end
  end.

Fixpoint mapM {A B} (f : A -> M B) (l : list A) : M (list B) :=
  match l with
  | [] => ret []
  | x :: r => y <- f x ;; ys <- mapM f r ;; ret (y :: ys)
  end.

(** [params]: the fetched parameters without a trailing [TxContext]. *)
Definition expectedParams (parameters : list SuiMoveNormalizedType)
  : list SuiMoveNormalizedType :=
  let hasTxContext :=
    bool_decide (0 < length parameters) && from_option isTxContext false (last parameters) in
  if hasTxContext then take (length parameters - 1) parameters else parameters.

(** [serType] is used when it is a non-empty string. *)
Definition truthy (serType : option string) : option string :=
  match serType with
  | Some s => if String.eqb s "" then None else Some s
  | None => None
  end.

(** The body of [params.forEach((param, i) => ...)]. *)
Definition resolveParam (call : MoveCallCommand) (i : nat) (param : SuiMoveNormalizedType)
  : M unit :=
  match arguments call !! i with
  | None => throw TypeError
  | Some (Input index) =>
      ins <- get_inputs ;;
      match ins !! index with
      | None => throw TypeError
      | Some input =>
          if input_is_BuilderCallArg input then ret tt
          else
            let inputValue := in_value input in
            serType <- lift (thrown (getPureSerializationType param inputValue)) ;;
            match truthy serType with
            | Some ty =>
                bytes <- lift (thrown (Inputs_Pure ty inputValue)) ;;
                set_input_value index (Resolved (Pure bytes))
            | None =>
                if bool_decide (is_Some (extractStructTag param)) || is_TypeParameter param
                then
                  match as_string inputValue with
                  | None => throw (ExpectObjectIdString inputValue)
                  | Some id =>
                      push_object {| otr_id := id; otr_input := index;
                                     otr_normalizedType := Some param |}
                  end
                else throw (UnknownCallArgType param inputValue)
            end
      end
  | Some _ => ret tt
  end.

(** What follows the [await] in the body mapped over
    [moveModulesToResolve]. *)
Definition resolveMoveCall (call : MoveCallCommand)
           (parameters : list SuiMoveNormalizedType) : M unit :=
  let params := expectedParams parameters in
  if bool_decide (length params ≠ length (arguments call))
  then throw IncorrectNumberOfArguments
  else forEachFrom 0 (resolveParam call) params.

(** [Promise.all] over the queued calls: every request is sent first, then
    the bodies resume, here in the order of the queue; the first one to
    throw rejects the whole. *)
Definition resolveMoveCalls : M unit :=
  fun st =>
    match moveModulesToResolve st with
    | [] => ret tt st
    | queue =>
        (outcomes <- mapM requestSignature queue ;;
         forEach (fun '(call, outcome) =>
                    parameters <- lift outcome ;;
                    resolveMoveCall call parameters)
                 (zip queue outcomes)) st
    end.

(** *** Step 4: object references (lines 457-502) *)

(** The entries of [objectsById]. *)
Definition objectsById_of (dedupedIds : list string) (objects : list SuiObjectResponse)
  : list (string * option SuiObjectResponse) :=
  imap (fun index id => (id, objects !! index)) dedupedIds.

(** [invalidObjects]; [obj.status] of a missing response is a [TypeError]. *)
Fixpoint invalidObjects (entries : list (string * option SuiObjectResponse))
  : Error + list string :=
  match entries with
  | [] => inr []
  | (_, None) :: _ => inl TypeError
  | (id, Some obj) :: rest =>
      match invalidObjects rest with
      | inl e => inl e
      | inr ids => inr (if String.eqb (status obj) "Exists" then ids else id :: ids)
      end
  end.

(** [initialSharedVersion], when it passes [if (initialSharedVersion)]. *)
Definition sharedVersion (object : SuiObjectResponse) : option N :=
  match getSharedObjectInitialVersion object with
  | Some v => if (v =? 0)%N then None else Some v
  | None => None
  end.

(** What an entry of the queue asks for: a mutable reference or not. *)
Definition wants_mutable (entry : ObjectToResolve) : bool :=
  match otr_normalizedType entry with
  | Some normalizedType => bool_decide (is_Some (extractMutableReference normalizedType))
  | None => false
  end.

(** The body of [objectsToResolve.forEach]. *)
Definition resolveObject (objectsById : list (string * option SuiObjectResponse))
           (entry : ObjectToResolve) : M unit :=
  match map_get (otr_id entry) objectsById with
  | Some (Some object) =>
      match sharedVersion object with
      | Some initialSharedVersion =>
          ins <- get_inputs ;;
          match ins !! otr_input entry with
          | None => throw TypeError
          | Some input =>
              let mutable :=
                isMutableSharedObjectInput (in_value input) || wants_mutable entry in
              set_input_value (otr_input entry)
                (Inputs_SharedObjectRef (otr_id entry) initialSharedVersion mutable)
          end
      | None =>
          set_input_value (otr_input entry) (Inputs_ObjectRef (getObjectReference object))
      end
  | _ => throw TypeError
  end.

(** The fetched object an entry of the queue refers to. *)
Definition object_for (objectsById : list (string * option SuiObjectResponse))
           (entry : ObjectToResolve) : option SuiObjectResponse :=
  match map_get (otr_id entry) objectsById with
  | Some (Some object) => Some object
  | _ => None
  end.

(** An entry whose object was fetched and whose input is one of the [n]
    inputs. *)
Definition resolvable (objectsById : list (string * option SuiObjectResponse)) (n : nat)
           (entry : ObjectToResolve) : Prop :=
  is_Some (object_for objectsById entry) ∧ otr_input entry < n.

(** An entry whose object is a shared object. *)
Definition shared_entry (objectsById : list (string * option SuiObjectResponse))
           (entry : ObjectToResolve) : Prop :=
  ∃ object v, object_for objectsById entry = Some object ∧ sharedVersion object = Some v.

(** Whether some entry of the queue for the input at [ref] asks for a
    mutable reference. *)
Definition demanded (ref : nat) (queue : list ObjectToResolve) : bool :=
  existsb (fun entry => bool_decide (otr_input entry = ref) && wants_mutable entry) queue.

Definition resolveObjects : M unit :=
  fun st =>
    match objectsToResolve st with
    | [] => ret tt st
    | queue =>
        (let dedupedIds := dedupe (otr_id <$> queue) in
         p <- expectProvider provider ;;
         objects <- remote (CallGetObjectBatch dedupedIds) (thrown (getObjectBatch p dedupedIds)) ;;
         let objectsById := objectsById_of dedupedIds objects in
         invalid <- lift (invalidObjects objectsById) ;;
         match invalid with
         | _ :: _ => throw (InvalidObjects invalid)
         | [] => forEach (resolveObject objectsById) queue
         end) st
    end.

(** *** Step 5: gas payment (lines 504-540) *)

(** The predicate handed to [inputs.find] inside the coin filter. *)
Definition uses_coin (coin : Coin) (input : TransactionInput) : Prop :=
  match in_value input with
  | Resolved (Object (ImmOrOwned r)) => coinObjectId coin = objectId r
  | _ => False
  end.

Global Instance uses_coin_dec coin input : Decision (uses_coin coin input).
Proof. unfold uses_coin. repeat case_match; apply _. Defined.

(** The predicate of [coins.data.filter]: no input matches the coin. *)
Definition unused_coin (ins : list TransactionInput) (coin : Coin) : Prop :=
  list_find (uses_coin coin) ins = None.

Global Instance unused_coin_dec ins coin : Decision (unused_coin ins coin).
Proof. unfold unused_coin. apply _. Defined.

Definition coin_ref (coin : Coin) : SuiObjectRef :=
  {| objectId := coinObjectId coin; version := coinVersion coin; digest := coinDigest coin |}.

Definition set_payment (refs : list SuiObjectRef) (td : TransactionData) : TransactionData :=
  set_gasConfig {| price := price (gasConfig td); budget := budget (gasConfig td);
                   payment := Some refs |} td.

Definition selectGasPayment : M unit :=
  td <- get_data ;;
  match payment (gasConfig td) with
  | Some _ => ret tt
  | None =>
      p <- expectProvider provider ;;
      coins <- remote (CallGetCoins (sender td) SUI_TYPE_ARG)
                      (thrown (getCoins p (sender td) SUI_TYPE_ARG)) ;;
      ins <- get_inputs ;;
      let selected := coin_ref <$> filter (unused_coin ins) coins in
      modify_data (set_payment selected) ;;
      match selected with
      | [] => throw NoValidGasCoins
      | _ :: _ => ret tt
      end
  end.

(** [#prepare(provider)] *)
Definition prepare : M unit :=
  checkAndPrice ;;
  classify ;;
  resolveMoveCalls ;;
  resolveObjects ;;
  selectGasPayment.

End Pipeline.

(** What [#prepare] does once sender, budget and price are in place. *)
Definition steps_2_to_5 `{Imports} (provider : option Provider) : M unit :=
  classify ;;
  resolveMoveCalls provider ;;
  resolveObjects provider ;;
  selectGasPayment provider.

(** [#prepare] run on a transaction: its outcome, the data it leaves behind
    and the remote calls it made. *)
Definition run_prepare `{Imports} (provider : option Provider) (td : TransactionData)
  : (Error + unit) * State :=
  prepare provider (initial td).

(** ** The classes of error *)

(** The four classes under which failures of [#prepare] are reported;
    anything else (a missing provider, a [TypeError], a rejected call) is
    [OtherError]. *)
Inductive ErrorClass : Type :=
| PreconditionError
| FormatError
| ExistenceError
| ResourceError
| OtherError.

Definition error_class (e : Error) : ErrorClass :=
  match e with
  | MissingSender | MissingGasBudget => PreconditionError
  | UnexpectedInputFormat | IncorrectNumberOfArguments
  | ExpectObjectIdString _ | UnknownCallArgType _ _ => FormatError
  | InvalidObjects _ => ExistenceError
  | NoValidGasCoins => ResourceError
  | _ => OtherError
  end.

(** ** A small ledger to run the definitions on *)

Module Demo.

Definition TxContext : SuiMoveNormalizedType :=
  TMutableReference (TStruct "0x2" "tx_context" "TxContext" []).

Definition SomeStruct : SuiMoveNormalizedType := TStruct "0x2" "m" "SomeStruct" [].

Definition schema_of (kind key : string) : KeySchema :=
  if String.eqb kind "TransferObjects" then
    if String.eqb key "objects" then mkKeySchema true (Some EncObject)
    else if String.eqb key "address" then mkKeySchema false (Some (EncPure "address"))
    else mkKeySchema false None
  else if String.eqb kind "SplitCoin" then
    if String.eqb key "coin" then mkKeySchema false (Some EncObject)
    else if String.eqb key "amount" then mkKeySchema false (Some (EncPure "u64"))
    else mkKeySchema false None
  else if String.eqb kind "MergeCoins" then
    if String.eqb key "destination" then mkKeySchema false (Some EncObject)
    else if String.eqb key "sources" then mkKeySchema true (Some EncObject)
    else mkKeySchema false None
  else mkKeySchema true None.

Definition known_kinds : list string := ["TransferObjects"; "SplitCoin"; "MergeCoins"; "Publish"].

Definition imports : Imports := {|
  getIdFromCallArg v :=
    match v with
    | Raw (JString s) => s
    | Resolved (Object (ImmOrOwned r)) => objectId r
    | Resolved (Object (Shared id _ _)) => id
    | _ => EmptyString
    end;
  normalizeSuiObjectId s := s;
  getTransactionCommandType c :=
    match c with
    | Command kind _ =>
        if bool_decide (kind ∈ known_kinds) then Some (schema_of kind) else None
    | MoveCall _ => None
    end;
  getPureSerializationType param v :=
    match param with
    | TPrim name =>
        if String.eqb name "U64" then inr (Some "u64")
        else if String.eqb name "Bool" then inr (Some "bool")
        else if String.eqb name "Address" then inr (Some "address")
        else inl "Unknown pure normalized type"
    | TVector (TPrim _) => inr (Some "vector<u8>")
    | _ => inr None
    end;
  isTxContext param :=
    match param with
    | TMutableReference (TStruct a m n _) | TReference (TStruct a m n _) =>
        String.eqb a "0x2" && String.eqb m "tx_context" && String.eqb n "TxContext"
    | _ => false
    end;
  extractStructTag param :=
    match param with
    | TStruct _ _ _ _ => Some param
    | TReference (TStruct a m n l) | TMutableReference (TStruct a m n l) =>
        Some (TStruct a m n l)
    | _ => None
    end;
  extractMutableReference param :=
    match param with
    | TMutableReference t => Some t
    | _ => None
    end;
  Inputs_Pure ty v :=
    match v with
    | Raw (JNumber z) => inr [z]
    | Raw (JBool b) => inr [if b then 1%Z else 0%Z]
    | Raw (JBytes bs) => inr bs
    | Raw (JString s) => inr ((λ c, Z.of_nat (nat_of_ascii c)) <$> list_ascii_of_string s)
    | _ => inl "cannot serialize"
    end;
  getSharedObjectInitialVersion obj :=
    match owner obj with
    | Some (SharedOwner v) => Some v
    | _ => None
    end;
  getObjectReference obj := default (mkObjectRef EmptyString 0 EmptyString) (reference obj);
  SUI_TYPE_ARG := "0x2::sui::SUI";
|}.

(** The ledger: a shared object [0xa], an owned object [0xb] and two gas
    coins [0xc1] and [0xc2] of the sender. *)
Definition object_of (id : string) : SuiObjectResponse :=
  if String.eqb id "0xa" then
    mkObjectResponse "Exists" (Some (SharedOwner 5)) (Some (mkObjectRef "0xa" 9 "dA"))
  else if String.eqb id "0xb" then
    mkObjectResponse "Exists" (Some (AddressOwner "0x5")) (Some (mkObjectRef "0xb" 7 "dB"))
  else if String.eqb id "0xc1" then
    mkObjectResponse "Exists" (Some (AddressOwner "0x5")) (Some (mkObjectRef "0xc1" 1 "d1"))
  else if String.eqb id "0xc2" then
    mkObjectResponse "Exists" (Some (AddressOwner "0x5")) (Some (mkObjectRef "0xc2" 2 "d2"))
  else mkObjectResponse "NotExists" None None.

Definition coins_of_sender : list Coin := [mkCoin "0xc1" "d1" 1; mkCoin "0xc2" "d2" 2].

(** [0x2::m::f(&mut SomeStruct, u64, &mut TxContext)],
    [0x2::m::g(&SomeStruct)] and [0x2::m::h(SomeStruct, u64)]. *)
Definition service : Provider := {|
  getReferenceGasPrice := inr 1000%N;
  getNormalizedMoveFunction package module function :=
    if bool_decide (function = Some "f")
    then inr [TMutableReference SomeStruct; TPrim "U64"; TxContext]
    else if bool_decide (function = Some "g")
    then inr [TReference SomeStruct]
    else if bool_decide (function = Some "h")
    then inr [SomeStruct; TPrim "U64"]
    else if bool_decide (function = Some "s")
    then inr [TPrim "Signer"]
    else inl "no such function";
  getObjectBatch ids := inr (object_of <$> ids);
  getCoins owner coinType := inr coins_of_sender;
|}.

Definition gas (payment : option (list SuiObjectRef)) : GasConfig :=
  {| price := Some "1000"; budget := Some "5000"; payment := payment |}.

Definition tx (ins : list TransactionInput) (cmds : list TransactionCommand)
  : TransactionData :=
  {| sender := Some "0x5"; gasConfig := gas None; inputs := ins; commands := cmds |}.

Definition raw_object (index : nat) (id : string) : TransactionInput :=
  mkInput index (Raw (JString id)) (Some TyObject).

Definition raw_pure (index : nat) (v : JsValue) : TransactionInput :=
  mkInput index (Raw v) (Some TyPure).

Definition call (function : string) (args : list CommandArgument) : TransactionCommand :=
  MoveCall (mkMoveCall (String.append "0x2::m::" function) [] args).

End Demo.

#[global] Existing Instance Demo.imports.

(** ** The rest of the builder *)

(** [String(n)] for an integer, as [setGasPrice] and [setGasBudget] apply
    it to a [number] or a [bigint]. *)
Definition String_Z (z : Z) : string :=
  if (z <? 0)%Z then String "-" (String_ (Z.to_N (- z))) else String_ (Z.to_N z).

(** [setSender(sender)] *)
Definition setSender (s : string) (td : TransactionData) : TransactionData :=
  {| sender := Some s; gasConfig := gasConfig td; inputs := inputs td;
     commands := commands td |}.

(** [setGasPrice(price)] *)
Definition setGasPrice (price : Z) (td : TransactionData) : TransactionData :=
  set_price (String_Z price) td.

(** [setGasBudget(budget)] *)
Definition setGasBudget (amount : Z) (td : TransactionData) : TransactionData :=
  set_gasConfig {| price := price (gasConfig td); budget := Some (String_Z amount);
                   payment := payment (gasConfig td) |} td.

(** [setGasPayment(payment)] *)
Definition setGasPayment (refs : list SuiObjectRef) (td : TransactionData)
  : TransactionData :=
  set_payment refs td.

(** [get gas()] *)
Definition gas : CommandArgument := GasCoin.

(** The calls a program makes on a [Transaction] before it builds it. *)
Inductive BuilderCall : Type :=
| DoObject (value : InputValue)
| DoPure (value : InputValue)
| DoAdd (command : TransactionCommand)
| DoSetSender (s : string)
| DoSetGasPrice (price : Z)
| DoSetGasBudget (amount : Z)
| DoSetGasPayment (refs : list SuiObjectRef).

Definition builder_call `{Imports} (c : BuilderCall) (td : TransactionData)
  : TransactionData :=
  match c with
  | DoObject value => snd (object_ value td)
  | DoPure value => snd (pure_ value td)
  | DoAdd command => snd (add command td)
  | DoSetSender s => setSender s td
  | DoSetGasPrice price => setGasPrice price td
  | DoSetGasBudget amount => setGasBudget amount td
  | DoSetGasPayment refs => setGasPayment refs td
  end.

Fixpoint builder_calls `{Imports} (cs : list BuilderCall) (td : TransactionData)
  : TransactionData :=
  match cs with
  | [] => td
  | c :: rest => builder_calls rest (builder_call c td)
  end.

(** Every input carries its position as [index]. *)
Definition well_indexed (ins : list TransactionInput) : Prop :=
  ∀ pos input, ins !! pos = Some input -> in_index input = pos.

(** No two object inputs have the same id. *)
Definition distinct_objects `{Imports} (ins : list TransactionInput) : Prop :=
  ∀ p q i j,
    ins !! p = Some i -> ins !! q = Some j ->
    in_type i = Some TyObject -> in_type j = Some TyObject ->
    getIdFromCallArg (in_value i) = getIdFromCallArg (in_value j) -> p = q.

(** A string without a colon. *)
Fixpoint colon_free (s : string) : bool :=
  match s with
  | EmptyString => true
  | String c r => negb (Ascii.eqb c ":") && colon_free r
  end.

(** ** Notions used to state what [#prepare] keeps and reaches *)

(** The input at [index] exists and holds a resolved call argument. *)
Definition resolved_at (st : State) (index : nat) : Prop :=
  ∃ input, inputs (data st) !! index = Some input ∧
           is_BuilderCallArg (in_value input) = true.

(** The input at [index] exists and is resolved or queued for step 4. *)
Definition settled (st : State) (index : nat) : Prop :=
  ∃ input, inputs (data st) !! index = Some input ∧
           (is_BuilderCallArg (in_value input) = true ∨
            ∃ entry, entry ∈ objectsToResolve st ∧ otr_input entry = index).

(** From one state to a later one of the same run: the commands stay;
    every input keeps its place and holds the value it had or a resolved
    call argument; the two queues only grow at their end; an entry added to
    the queue of objects names an input of the earlier state and the string
    it held; and the ids of a batch of objects asked for in between are ids
    of the queue. *)
Definition grows (st st' : State) : Prop :=
  commands (data st') = commands (data st) ∧
  length (inputs (data st')) = length (inputs (data st)) ∧
  (∀ k input input',
      inputs (data st) !! k = Some input -> inputs (data st') !! k = Some input' ->
      in_value input' = in_value input ∨ is_BuilderCallArg (in_value input') = true) ∧
  moveModulesToResolve st `prefix_of` moveModulesToResolve st' ∧
  objectsToResolve st `prefix_of` objectsToResolve st' ∧
  (∀ entry, entry ∈ objectsToResolve st' ->
      entry ∈ objectsToResolve st ∨
      ∃ input, inputs (data st) !! otr_input entry = Some input ∧
               as_string (in_value input) = Some (otr_id entry)) ∧
  (∀ ids, CallGetObjectBatch ids ∈ calls st' ->
      CallGetObjectBatch ids ∈ calls st ∨
      ∀ id, id ∈ ids -> ∃ entry, entry ∈ objectsToResolve st' ∧ otr_id entry = id).

(** Everything but the values of the inputs and the gas price and payment
    is the same in two states. *)
Definition same_shape (st st' : State) : Prop :=
  sender (data st') = sender (data st) ∧
  budget (gasConfig (data st')) = budget (gasConfig (data st)) ∧
  commands (data st') = commands (data st) ∧
  in_index <$> inputs (data st') = in_index <$> inputs (data st) ∧
  in_type <$> inputs (data st') = in_type <$> inputs (data st).

(** Inputs and queues are the same in two states. *)
Definition same_inputs (st st' : State) : Prop :=
  inputs (data st') = inputs (data st) ∧
  moveModulesToResolve st' = moveModulesToResolve st ∧
  objectsToResolve st' = objectsToResolve st.

(** Every input of the state is resolved. *)
Definition all_resolved (st : State) : Prop :=
  Forall (fun input => is_BuilderCallArg (in_value input) = true) (inputs (data st)).

(** With every input resolved and nothing queued, inputs and queues stay as
    they are and only the gas price or the coins are asked for. *)
Definition nothing_to_resolve (st st' : State) : Prop :=
  all_resolved st -> moveModulesToResolve st = [] -> objectsToResolve st = [] ->
  same_inputs st st' ∧
  logs (fun c => c = CallGetReferenceGasPrice ∨ ∃ owner coinType, c = CallGetCoins owner coinType)
       st st'.

(** A computation throws only errors that satisfy [P]. *)
Definition throws {A} (P : Error -> Prop) (m : M A) : Prop :=
  ∀ st e, fst (m st) = inl e -> P e.

(** A computation that leaves the state alone and, if it throws, throws
    ['Missing input'] or a [TypeError], whenever every input is resolved. *)
Definition inert {A} (m : M A) : Prop :=
  ∀ st, all_resolved st ->
        snd (m st) = st ∧
        ∀ e, fst (m st) = inl e -> e = MissingInput ∨ e = TypeError.

(** The errors of [#prepare]; ['No provider'] needs the provider to be
    missing. *)
Definition prepare_error (provider : option Provider) (e : Error) : Prop :=
  match e with
  | ProxySetNotSupported => False
  | NoProvider => provider = None
  | _ => True
  end.

(** The inputs that the scan of step 2 meets in one entry of a command:
    those under a key with a declared encoding. *)
Definition field_inputs (schema : string -> KeySchema) (entry : string * FieldValue)
           (index : nat) : Prop :=
  fst entry ≠ "kind" ∧
  is_Some (wellKnownEncoding (schema (fst entry))) ∧
  if isArray (schema (fst entry))
  then ∃ items, snd entry = FArgs items ∧ Input index ∈ items
  else snd entry = FArg (Input index).

(** The inputs a command refers to under a known encoding: the input
    arguments of a Move call, and for any other command the inputs in the
    fields that its schema gives an encoding. *)
Definition encoded_inputs `{Imports} (command : TransactionCommand) (index : nat) : Prop :=
  match command with
  | MoveCall call => Input index ∈ arguments call
  | Command _ fields =>
      ∃ schema entry,
        getTransactionCommandType command = Some schema ∧
        entry ∈ fields ∧ field_inputs schema entry index
  end.

(** What the scan of step 2 has done with a command once it is through:
    a Move call has all its input arguments resolved or is queued for
    step 3; in any other command the inputs under a declared encoding are
    resolved or queued for step 4. *)
Definition scanned `{Imports} (st : State) (command : TransactionCommand) : Prop :=
  match command with
  | MoveCall call =>
      call ∈ moveModulesToResolve st ∨
      ∀ index, Input index ∈ arguments call -> resolved_at st index
  | Command _ _ => ∀ index, encoded_inputs command index -> settled st index
  end.

(** * Properties *)

(** ** The result handle *)

Section HandleFacts.
Import Stdlib.Numbers.DecimalPos.Unsigned.

Lemma read_digits_revapp (d d' : Decimal.uint) :
  read_digits (NilEmpty.string_of_uint d) (of_lu d') = of_lu (Decimal.revapp d d').
Proof.
  revert d'. induction d as [|d IH|d IH|d IH|d IH|d IH|d IH|d IH|d IH|d IH|d IH];
    intros d'; [reflexivity|..];
    cbn [NilEmpty.string_of_uint read_digits Decimal.revapp];
    rewrite <- IH; f_equal; cbn [of_lu];
    match goal with
    | |- context [N_of_ascii ?c] =>
        let v := eval vm_compute in (N_of_ascii c) in change (N_of_ascii c) with v
    end; lia.
Qed.

Lemma read_digits_String (n : N) : read_digits (String_ n) 0 = n.
Proof.
  unfold String_.
  change 0%N with (of_lu Decimal.Nil).
  rewrite read_digits_revapp.
  change (Decimal.revapp (N.to_uint n) Decimal.Nil) with (Decimal.rev (N.to_uint n)).
  rewrite <- of_uint_alt.
  apply DecimalN.Unsigned.of_to.
Qed.

Lemma to_uint_nonnil (n : N) : N.to_uint n ≠ Decimal.Nil.
Proof.
  destruct n as [|p]; [discriminate|].
  apply (DecimalPos.Unsigned.to_uint_nonnil p).
Qed.
End HandleFacts.

Lemma String_starts_with_digit (n : N) : starts_with_digit (String_ n) = true.
Proof.
  unfold String_. pose proof (to_uint_nonnil n) as Hn.
  destruct (N.to_uint n); [congruence|..]; reflexivity.
Qed.

Lemma parseInt_digits (s : string) :
  starts_with_digit s = true -> parseInt s = Some (Z.of_N (read_digits s 0)).
Proof.
  destruct s as [|c r]; [discriminate|].
  cbn [starts_with_digit]. intros Hd. apply bool_decide_eq_true in Hd.
  destruct Hd as [d Hd].
  unfold digit_of in Hd.
  destruct ((48 <=? N_of_ascii c)%N && (N_of_ascii c <=? 57)%N) eqn:Hrange; [|discriminate].
  apply andb_true_iff in Hrange. destruct Hrange as [Hlo Hhi].
  apply N.leb_le in Hlo. apply N.leb_le in Hhi.
  assert (Hc : ∃ k, (k < 10)%nat ∧ c = ascii_of_nat (48 + k)).
  { exists (N.to_nat (N_of_ascii c) - 48)%nat. split; [lia|].
    replace (48 + (N.to_nat (N_of_ascii c) - 48))%nat with (N.to_nat (N_of_ascii c)) by lia.
    unfold nat_of_ascii. rewrite <- (ascii_N_embedding c) at 1.
    unfold ascii_of_nat. by rewrite N2Nat.id. }
  destruct Hc as (k & Hk & ->).
  do 10 (destruct k as [|k]; [reflexivity|]). lia.
Qed.

Lemma parseInt_String (n : N) : parseInt (String_ n) = Some (Z.of_N n).
Proof.
  rewrite parseInt_digits by apply String_starts_with_digit.
  by rewrite read_digits_String.
Qed.

Lemma digit_not_in_target (s : string) :
  starts_with_digit s = true -> in_target (KString s) = false.
Proof.
  intros Hs. cbn [in_target]. apply bool_decide_eq_false. intros Hin.
  unfold Object_prototype_keys in Hin.
  repeat (apply elem_of_cons in Hin; destruct Hin as [->|Hin]; [discriminate Hs|]).
  by apply elem_of_nil in Hin.
Qed.

(** A read through a canonical numeric key is a call of [nestedResultFor]. *)
Lemma proxy_get_index (i : N) (h : ResultHandle) :
  proxy_get (KString (String_ i)) h =
  (GotNested (fst (nestedResultFor i h)), snd (nestedResultFor i h)).
Proof.
  unfold proxy_get.
  rewrite digit_not_in_target by apply String_starts_with_digit.
  rewrite parseInt_String.
  destruct (Z.ltb_spec (Z.of_N i) 0) as [Hneg|_]; [lia|].
  rewrite N2Z.id. by destruct (nestedResultFor i h).
Qed.

Lemma nestedResultFor_spec (index : nat) (i : N) (h : ResultHandle) :
  handle_inv index h ->
  let '(ref, h') := nestedResultFor i h in
  handle_inv index h' ∧
  nestedResults h' !! i = Some ref ∧
  (∀ r x, allocated h !! r = Some x -> allocated h' !! r = Some x) ∧
  (∀ j r, nestedResults h !! j = Some r -> nestedResults h' !! j = Some r).
Proof.
  intros [Hidx Hinv]. unfold nestedResultFor.
  destruct (nestedResults h !! i) as [ref|] eqn:Hslot.
  - repeat split; auto.
  - repeat split; cbn.
    + exact Hidx.
    + intros j r Hj. destruct (decide (i = j)) as [->|Hne].
      * rewrite lookup_insert_eq in Hj. injection Hj as <-.
        rewrite lookup_app_r by lia. rewrite Nat.sub_diag. cbn. by rewrite Hidx.
      * rewrite lookup_insert_ne in Hj by done.
        apply lookup_app_l_Some. by apply Hinv.
    + apply lookup_insert_eq.
    + intros r x Hr. by apply lookup_app_l_Some.
    + intros j r Hj. destruct (decide (i = j)) as [->|Hne]; [congruence|].
      by rewrite lookup_insert_ne.
Qed.

Lemma nestedResultFor_cached (i : N) (ref : nat) (h : ResultHandle) :
  nestedResults h !! i = Some ref -> nestedResultFor i h = (ref, h).
Proof. intros Hslot. unfold nestedResultFor. by rewrite Hslot. Qed.

Lemma proxy_get_inv (index : nat) (property : PropertyKey) (h : ResultHandle) :
  handle_inv index h -> handle_inv index (snd (proxy_get property h)).
Proof.
  intros Hinv. unfold proxy_get.
  destruct (in_target property); [by destruct property|].
  destruct property as [s| |d]; cbn; try done.
  destruct (parseInt s) as [z|]; [|done].
  destruct (z <? 0)%Z; [done|].
  pose proof (nestedResultFor_spec index (Z.to_N z) h Hinv) as Hspec.
  destruct (nestedResultFor (Z.to_N z) h) as [ref h']. cbn. tauto.
Qed.

Lemma handle_of_inv (index : nat) (h : ResultHandle) :
  handle_of index h -> handle_inv index h.
Proof.
  induction 1 as [|h property _ IH].
  - split; [done|]. intros i ref Hslot. cbn in Hslot. by rewrite lookup_empty in Hslot.
  - by apply proxy_get_inv.
Qed.

Lemma in_target_not_numeric (s : string) :
  in_target (KString s) = true -> parseInt s = None.
Proof.
  cbn [in_target]. intros Hin. apply bool_decide_eq_true in Hin.
  unfold Object_prototype_keys in Hin.
  repeat (apply elem_of_cons in Hin; destruct Hin as [->|Hin]; [reflexivity|]).
  by apply elem_of_nil in Hin.
Qed.

(** C9: on a handle for command [index], reading nested result [i] twice
    gives the same object, a [NestedResult] with that command index and
    result index [i]; reading another index [j] gives a different object;
    [kind] and [index] read as those of [Result index]; and the handle that
    [add] returns is a handle for the position of the appended command.
    Indices range over the integers a JavaScript number holds exactly. *)
Theorem C9_nested_result_identity (index : nat) (h : ResultHandle) (i j : N) :
  handle_of index h ->
  (i <= MAX_SAFE_INTEGER)%N ->
  (j <= MAX_SAFE_INTEGER)%N ->
  (∃ ref h1,
      proxy_get (KString (String_ i)) h = (GotNested ref, h1) ∧
      proxy_get (KString (String_ i)) h1 = (GotNested ref, h1) ∧
      allocated h1 !! ref = Some (NestedResult index i) ∧
      (i ≠ j ->
       ∃ ref' h2,
         proxy_get (KString (String_ j)) h1 = (GotNested ref', h2) ∧
         ref' ≠ ref ∧
         allocated h2 !! ref' = Some (NestedResult index j) ∧
         allocated h2 !! ref = Some (NestedResult index i) ∧
         proxy_get (KString (String_ i)) h2 = (GotNested ref, h2))) ∧
  proxy_get (KString "kind") h = (GotValue (JString "Result"), h) ∧
  proxy_get (KString "index") h = (GotValue (JNumber (Z.of_nat index)), h) ∧
  (∀ command td,
      fst (add command td) = createTransactionResult (length (commands td)) ∧
      commands (snd (add command td)) !! length (commands td) = Some command).
Proof.
  intros Hh _ _. pose proof (handle_of_inv index h Hh) as Hinv.
  split; [|split; [|split]].
  - pose proof (nestedResultFor_spec index i h Hinv) as Hspec.
    rewrite proxy_get_index.
    destruct (nestedResultFor i h) as [ref h1] eqn:Hfirst. cbn [fst snd].
    destruct Hspec as (Hinv1 & Hslot1 & _ & _).
    exists ref, h1. split; [done|].
    split; [by rewrite proxy_get_index, (nestedResultFor_cached i ref h1)|].
    split; [by apply Hinv1|].
    intros Hij.
    pose proof (nestedResultFor_spec index j h1 Hinv1) as Hspec2.
    rewrite proxy_get_index.
    destruct (nestedResultFor j h1) as [ref' h2] eqn:Hsecond. cbn [fst snd].
    destruct Hspec2 as (Hinv2 & Hslot2 & Hkeep & Hslots).
    exists ref', h2. split; [done|].
    assert (Hj : allocated h2 !! ref' = Some (NestedResult index j)) by by apply Hinv2.
    assert (Hi : allocated h2 !! ref = Some (NestedResult index i)).
    { apply Hkeep. by apply Hinv1. }
    split; [|split; [done|split; [done|]]].
    + intros ->. rewrite Hi in Hj. congruence.
    + rewrite proxy_get_index, (nestedResultFor_cached i ref h2); [done|].
      by apply Hslots.
  - reflexivity.
  - unfold proxy_get. cbn. destruct Hinv as [-> _]. reflexivity.
  - intros command td. unfold add. cbn [fst snd set_commands commands].
    rewrite length_app. cbn [length].
    replace (length (commands td) + 1 - 1)%nat with (length (commands td)) by lia.
    split; [done|]. by rewrite lookup_app_r, Nat.sub_diag by lia.
Qed.

Lemma C9_nested_result_identity_witness :
  handle_of 3 (snd (proxy_get (KString "0") (createTransactionResult 3))) ∧
  proxy_get (KString "2") (snd (proxy_get (KString "2")
    (snd (proxy_get (KString "0") (createTransactionResult 3))))) =
  (GotNested 1%nat, snd (proxy_get (KString "2")
    (snd (proxy_get (KString "0") (createTransactionResult 3))))).
Proof.
  split.
  - apply handle_read, handle_fresh.
  - destruct (C9_nested_result_identity 3
                (snd (proxy_get (KString "0") (createTransactionResult 3))) 2%N 5%N
                (handle_read 3 _ _ (handle_fresh 3))
                ltac:(by vm_compute) ltac:(by vm_compute))
      as [(ref & h1 & Hfirst & Hsecond & _) _].
    vm_compute in Hfirst. injection Hfirst as <- <-. exact Hsecond.
Defined.

(** C10, as stated, fails: the key [kind] does not parse as a number, yet
    reading it yields the string ['Result'] and not [undefined], because the
    trap first serves every property of the underlying [Result] argument. *)
Lemma C10_counterexample_kind :
  parseInt "kind" = None ∧
  proxy_get (KString "kind") (createTransactionResult 0) =
    (GotValue (JString "Result"), createTransactionResult 0) ∧
  fst (proxy_get (KString "kind") (createTransactionResult 0)) ≠ GotUndefined.
Proof. split; [reflexivity|]. split; [reflexivity|]. discriminate. Qed.

(** C10, amended: a key that parses to a negative number, a symbol other
    than the iterator, and a key that does not parse as a number and is not
    a property of the underlying [Result] argument all read as [undefined],
    without an error and without touching the cache; a non-numeric key that
    is such a property reads as that property, never as a nested result; and
    setting any property throws. *)
Theorem C10_non_index_access (h : ResultHandle) :
  (∀ s z, parseInt s = Some z -> (z < 0)%Z ->
          proxy_get (KString s) h = (GotUndefined, h)) ∧
  (∀ description, proxy_get (KSymbol description) h = (GotUndefined, h)) ∧
  (∀ s, parseInt s = None -> in_target (KString s) = false ->
        proxy_get (KString s) h = (GotUndefined, h)) ∧
  (∀ s, parseInt s = None -> in_target (KString s) = true ->
        proxy_get (KString s) h = (Reflect_get h s, h) ∧
        ∀ ref, Reflect_get h s ≠ GotNested ref) ∧
  (∀ property v, proxy_set property v h = inl ProxySetNotSupported).
Proof.
  split; [|split; [|split; [|split]]].
  - intros s z Hparse Hneg. unfold proxy_get.
    destruct (in_target (KString s)) eqn:Hin.
    + apply in_target_not_numeric in Hin. congruence.
    + rewrite Hparse. by destruct (Z.ltb_spec z 0); [|lia].
  - done.
  - intros s Hparse Hin. unfold proxy_get. by rewrite Hin, Hparse.
  - intros s Hparse Hin. split.
    + unfold proxy_get. by rewrite Hin.
    + intros ref. unfold Reflect_get. by repeat case_match.
  - done.
Qed.

Lemma C10_non_index_access_witness :
  proxy_get (KString "-1") (createTransactionResult 0) =
    (GotUndefined, createTransactionResult 0) ∧
  proxy_get (KString "foo") (createTransactionResult 0) =
    (GotUndefined, createTransactionResult 0) ∧
  proxy_get (KString "toString") (createTransactionResult 0) =
    (GotInherited "toString", createTransactionResult 0).
Proof.
  pose proof (C10_non_index_access (createTransactionResult 0))
    as (Hneg & _ & Hnan & Hprop & _).
  split; [|split].
  - apply (Hneg "-1" (-1)%Z); [reflexivity|lia].
  - apply (Hnan "foo"); reflexivity.
  - apply (Hprop "toString"); reflexivity.
Defined.

(** ** The input registry *)

Section RegistryFacts.
Context `{Imports}.

(** Whatever [object] returns refers to an object input with the id asked for. *)
Lemma object_refers (value : InputValue) (td : TransactionData) :
  ∃ input, inputs (snd (object_ value td)) !! fst (object_ value td) = Some input ∧
           same_object (getIdFromCallArg value) input.
Proof.
  unfold object_.
  destruct (list_find _ (inputs td)) as [[pos input]|] eqn:Hfind.
  - apply list_find_Some in Hfind as (Hpos & Hsame & _). by exists input.
  - eexists. cbn. rewrite lookup_app_r, Nat.sub_diag by lia.
    split; [reflexivity|]. by split.
Qed.

Lemma object_again (value value' : InputValue) (td : TransactionData) :
  getIdFromCallArg value' = getIdFromCallArg value ->
  object_ value' (snd (object_ value td)) = object_ value td.
Proof.
  intros Hid. unfold object_ at 2 3. rewrite <- Hid.
  destruct (list_find _ (inputs td)) as [[pos input]|] eqn:Hfind; cbn [snd].
  - unfold object_. by rewrite Hfind.
  - unfold object_, input_. cbn [inputs set_inputs fst snd].
    rewrite list_find_app_r by done. cbn.
    rewrite decide_True by (split; [done|by rewrite Hid]).
    reflexivity.
Qed.

(** C6: [object] returns an existing object input with the same id and
    appends nothing; asked again for the same id it returns the same input;
    asked for another id it returns another input; [pure] always appends;
    and whatever is appended sits at, and carries as [index], the length of
    the registry before the insertion. *)
Theorem C6_declare_inputs (td : TransactionData) (value : InputValue) :
  (∀ pos input,
      inputs td !! pos = Some input ->
      in_type input = Some TyObject ->
      getIdFromCallArg (in_value input) = getIdFromCallArg value ->
      ∃ pos' input',
        object_ value td = (pos', td) ∧ (pos' ≤ pos)%nat ∧
        inputs td !! pos' = Some input' ∧
        in_type input' = Some TyObject ∧
        getIdFromCallArg (in_value input') = getIdFromCallArg value) ∧
  (∀ value',
      getIdFromCallArg value' = getIdFromCallArg value ->
      object_ value' (snd (object_ value td)) =
        (fst (object_ value td), snd (object_ value td))) ∧
  (∀ value',
      getIdFromCallArg value' ≠ getIdFromCallArg value ->
      fst (object_ value' (snd (object_ value td))) ≠ fst (object_ value td)) ∧
  pure_ value td =
    (length (inputs td),
     set_inputs (inputs td ++ [mkInput (length (inputs td)) value (Some TyPure)]) td) ∧
  (list_find (same_object (getIdFromCallArg value)) (inputs td) = None ->
   object_ value td =
     (length (inputs td),
      set_inputs (inputs td ++ [mkInput (length (inputs td)) value (Some TyObject)]) td)).
Proof.
  split; [|split; [|split; [|split]]].
  - intros pos input Hpos Hty Hid. unfold object_.
    destruct (list_find _ (inputs td)) as [[pos' input']|] eqn:Hfind.
    + apply list_find_Some in Hfind as (Hpos' & [Hty' Hid'] & Hleast).
      exists pos', input'. repeat split; try done.
      destruct (decide (pos' ≤ pos)%nat) as [|Hgt]; [done|].
      exfalso. apply (Hleast pos input); [done|lia|]. by split.
    + apply list_find_None in Hfind.
      rewrite Forall_lookup in Hfind. exfalso.
      apply (Hfind pos input Hpos). by split.
  - intros value' Hid. rewrite object_again by done. by destruct (object_ value td).
  - intros value' Hid Heq.
    destruct (object_refers value td) as (input & Hin & _ & Hsame).
    set (td1 := snd (object_ value td)) in *.
    set (r1 := fst (object_ value td)) in *.
    unfold object_ in Heq.
    destruct (list_find _ (inputs td1)) as [[pos' input']|] eqn:Hfind; cbn in Heq.
    + apply list_find_Some in Hfind as (Hpos' & [_ Hid'] & _).
      assert (Hsome : Some input' = Some input) by (rewrite <- Hpos', Heq; exact Hin).
      injection Hsome as ->. congruence.
    + apply lookup_lt_Some in Hin. lia.
  - reflexivity.
  - intros Hnone. unfold object_. by rewrite Hnone.
Qed.

End RegistryFacts.

Lemma C6_declare_inputs_witness :
  object_ (Raw (JString "0xb"))
    (Demo.tx [Demo.raw_pure 0 (JNumber 1); Demo.raw_object 1 "0xb"] []) =
  (1%nat, Demo.tx [Demo.raw_pure 0 (JNumber 1); Demo.raw_object 1 "0xb"] []) ∧
  fst (object_ (Raw (JString "0xb")) (snd (object_ (Raw (JString "0xa")) (Demo.tx [] []))))
  ≠ fst (object_ (Raw (JString "0xa")) (Demo.tx [] [])).
Proof.
  split.
  - destruct (C6_declare_inputs
                (Demo.tx [Demo.raw_pure 0 (JNumber 1); Demo.raw_object 1 "0xb"] [])
                (Raw (JString "0xb")))
      as (Hexisting & _).
    destruct (Hexisting 1%nat (Demo.raw_object 1 "0xb") eq_refl eq_refl eq_refl)
      as (pos' & input' & Hobj & _).
    reflexivity.
  - destruct (C6_declare_inputs (Demo.tx [] []) (Raw (JString "0xa")))
      as (_ & _ & Hdistinct & _).
    apply (Hdistinct (Raw (JString "0xb"))). discriminate.
Defined.

(** ** Reasoning about the pipeline *)

Lemma bind_inr {A B} (m : M A) (k : A -> M B) st a st' :
  m st = (inr a, st') -> bind m k st = k a st'.
Proof. intros Hm. unfold bind. by rewrite Hm. Qed.

Lemma bind_inl {A B} (m : M A) (k : A -> M B) st e st' :
  m st = (inl e, st') -> bind m k st = (inl e, st').
Proof. intros Hm. unfold bind. by rewrite Hm. Qed.

Lemma bind_inv {A B} (m : M A) (k : A -> M B) st r st'' :
  bind m k st = (r, st'') ->
  (∃ e, m st = (inl e, st'') ∧ r = inl e) ∨
  (∃ a st', m st = (inr a, st') ∧ k a st' = (r, st'')).
Proof.
  unfold bind. destruct (m st) as [[e|a] st'] eqn:Hm; intros Hk.
  - left. exists e. by injection Hk as <- <-.
  - right. by exists a, st'.
Qed.

Section Keeps.
Context `{Imports}.
Variable provider : option Provider.
Variable R : State -> State -> Prop.
Variable allowed : RemoteCall -> Prop.
Hypothesis R_refl : ∀ st, R st st.
Hypothesis R_trans : ∀ a b c, R a b -> R b c -> R a c.
Hypothesis R_value : ∀ ref v, keeps R (set_input_value ref v).
Hypothesis R_push_object : ∀ entry, keeps R (push_object entry).
Hypothesis R_push_moveCall : ∀ call, keeps R (push_moveCall call).
Hypothesis R_send : ∀ c, allowed c -> keeps R (send c).

Lemma keeps_ret {A} (a : A) : keeps R (ret a).
Proof. intros st. apply R_refl. Qed.

Lemma keeps_throw {A} (e : Error) : keeps R (throw (A:=A) e).
Proof. intros st. apply R_refl. Qed.

Lemma keeps_lift {A} (r : Error + A) : keeps R (lift r).
Proof. destruct r; [apply keeps_throw|apply keeps_ret]. Qed.

Lemma keeps_bind {A B} (m : M A) (k : A -> M B) :
  keeps R m -> (∀ a, keeps R (k a)) -> keeps R (bind m k).
Proof.
  intros Hm Hk st. unfold bind. specialize (Hm st).
  destruct (m st) as [[e|a] st']; cbn in *; [done|].
  eapply R_trans; [exact Hm|apply Hk].
Qed.

Lemma keeps_get_data : keeps R get_data.
Proof. intros st. apply R_refl. Qed.

Lemma keeps_get_inputs : keeps R get_inputs.
Proof. intros st. apply R_refl. Qed.

Lemma keeps_expectProvider : keeps R (expectProvider provider).
Proof. unfold expectProvider. destruct provider; [apply keeps_ret|apply keeps_throw]. Qed.

Lemma keeps_forEachFrom {A} (f : nat -> A -> M unit) (l : list A) (i : nat) :
  (∀ j x, keeps R (f j x)) -> keeps R (forEachFrom i f l).
Proof.
  intros Hf. revert i. induction l as [|x l IH]; intros i; cbn.
  - apply keeps_ret.
  - apply keeps_bind; [apply Hf|]. intros _. apply IH.
Qed.

Lemma keeps_forEach {A} (f : A -> M unit) (l : list A) :
  (∀ x, keeps R (f x)) -> keeps R (forEach f l).
Proof. intros Hf. apply keeps_forEachFrom. intros _. apply Hf. Qed.

Lemma keeps_mapM {A B} (f : A -> M B) (l : list A) :
  (∀ x, keeps R (f x)) -> keeps R (mapM f l).
Proof.
  intros Hf. induction l as [|x l IH]; cbn.
  - apply keeps_ret.
  - apply keeps_bind; [apply Hf|]. intros y.
    apply keeps_bind; [apply IH|]. intros ys. apply keeps_ret.
Qed.

Lemma keeps_remote {A} (c : RemoteCall) (outcome : Error + A) :
  allowed c -> keeps R (remote c outcome).
Proof.
  intros Hc. apply keeps_bind; [by apply R_send|]. intros _. apply keeps_lift.
Qed.

Lemma keeps_encodeInput wellKnown index : keeps R (encodeInput wellKnown index).
Proof.
  unfold encodeInput. apply keeps_bind; [apply keeps_get_inputs|]. intros ins.
  destruct (ins !! index) as [input|]; [|apply keeps_throw].
  destruct (is_BuilderCallArg (in_value input)); [apply keeps_ret|].
  destruct wellKnown as [|ty].
  - destruct (as_string (in_value input)); [apply R_push_object|apply keeps_throw].
  - destruct (as_string (in_value input));
      (apply keeps_bind; [apply keeps_lift|]; intros bytes; apply R_value).
Qed.

Lemma keeps_encodeField schema entry : keeps R (encodeField schema entry).
Proof.
  unfold encodeField. destruct entry as [key value].
  destruct (String.eqb key "kind"); [apply keeps_ret|].
  destruct (wellKnownEncoding (schema key)) as [wellKnown|]; [|apply keeps_ret].
  destruct (isArray (schema key)).
  - destruct value as [a|items|v]; try apply keeps_throw.
    apply keeps_forEach. intros [index| | |]; try apply keeps_ret.
    apply keeps_encodeInput.
  - destruct value as [[index| | |]|items|v]; try apply keeps_ret.
    apply keeps_encodeInput.
Qed.

Lemma keeps_classifyCommand command : keeps R (classifyCommand command).
Proof.
  destruct command as [call|kind fields]; cbn.
  - apply keeps_bind; [apply keeps_get_inputs|]. intros ins.
    apply keeps_bind; [apply keeps_lift|]. intros [|];
      [apply R_push_moveCall|apply keeps_ret].
  - destruct (getTransactionCommandType _) as [schema|]; [|apply keeps_ret].
    apply keeps_forEach. intros entry. apply keeps_encodeField.
Qed.

Lemma keeps_classify : keeps R classify.
Proof.
  unfold classify. apply keeps_bind; [apply keeps_get_data|]. intros td.
  apply keeps_forEach. intros command. apply keeps_classifyCommand.
Qed.

Lemma keeps_resolveParam call i param : keeps R (resolveParam call i param).
Proof.
  unfold resolveParam.
  destruct (arguments call !! i) as [[index| | |]|];
    try apply keeps_ret; try apply keeps_throw.
  apply keeps_bind; [apply keeps_get_inputs|]. intros ins.
  destruct (ins !! index) as [input|]; [|apply keeps_throw].
  destruct (input_is_BuilderCallArg input); [apply keeps_ret|].
  apply keeps_bind; [apply keeps_lift|]. intros serType.
  destruct (truthy serType) as [ty|].
  - apply keeps_bind; [apply keeps_lift|]. intros bytes. apply R_value.
  - destruct (_ || _); [|apply keeps_throw].
    destruct (as_string (in_value input)); [apply R_push_object|apply keeps_throw].
Qed.

Lemma keeps_resolveMoveCall call parameters : keeps R (resolveMoveCall call parameters).
Proof.
  unfold resolveMoveCall. case_bool_decide; [apply keeps_throw|].
  apply keeps_forEachFrom. intros j x. apply keeps_resolveParam.
Qed.

Lemma keeps_requestSignature call :
  (∀ package module function,
      allowed (CallGetNormalizedMoveFunction package module function)) ->
  keeps R (requestSignature provider call).
Proof.
  intros Hallowed. unfold requestSignature.
  destruct provider as [p|]; [|apply keeps_ret].
  destruct (split_colons _ _) as [|packageId rest]; [apply keeps_ret|].
  apply keeps_bind; [apply R_send, Hallowed|]. intros _. apply keeps_ret.
Qed.

Lemma keeps_resolveMoveCalls :
  (∀ package module function,
      allowed (CallGetNormalizedMoveFunction package module function)) ->
  keeps R (resolveMoveCalls provider).
Proof.
  intros Hallowed st. unfold resolveMoveCalls.
  destruct (moveModulesToResolve st) as [|call queue]; [apply R_refl|].
  apply keeps_bind.
  - apply keeps_mapM. intros c. by apply keeps_requestSignature.
  - intros outcomes. apply keeps_forEach. intros [c outcome].
    apply keeps_bind; [apply keeps_lift|]. intros parameters.
    apply keeps_resolveMoveCall.
Qed.

Lemma keeps_resolveObject objectsById entry : keeps R (resolveObject objectsById entry).
Proof.
  unfold resolveObject.
  destruct (map_get _ _) as [[object|]|]; try apply keeps_throw.
  destruct (sharedVersion object) as [initialSharedVersion|]; [|apply R_value].
  apply keeps_bind; [apply keeps_get_inputs|]. intros ins.
  destruct (ins !! otr_input entry); [apply R_value|apply keeps_throw].
Qed.

Lemma keeps_resolveObjects :
  (∀ ids, allowed (CallGetObjectBatch ids)) -> keeps R (resolveObjects provider).
Proof.
  intros Hallowed st. unfold resolveObjects.
  destruct (objectsToResolve st) as [|entry queue]; [apply R_refl|].
  apply keeps_bind; [apply keeps_expectProvider|]. intros p.
  apply keeps_bind; [apply keeps_remote, Hallowed|]. intros objects.
  apply keeps_bind; [apply keeps_lift|]. intros [|id invalid]; [|apply keeps_throw].
  apply keeps_forEach. intros e. apply keeps_resolveObject.
Qed.

Hypothesis R_payment : ∀ refs, keeps R (modify_data (set_payment refs)).
Hypothesis R_price : ∀ p, keeps R (modify_data (set_price p)).

Lemma keeps_selectGasPayment :
  (∀ owner coinType, allowed (CallGetCoins owner coinType)) ->
  keeps R (selectGasPayment provider).
Proof.
  intros Hallowed. unfold selectGasPayment.
  apply keeps_bind; [apply keeps_get_data|]. intros td.
  destruct (payment (gasConfig td)); [apply keeps_ret|].
  apply keeps_bind; [apply keeps_expectProvider|]. intros p.
  apply keeps_bind; [apply keeps_remote, Hallowed|]. intros coins.
  apply keeps_bind; [apply keeps_get_inputs|]. intros ins.
  apply keeps_bind; [apply R_payment|]. intros _.
  destruct (coin_ref <$> _); [apply keeps_throw|apply keeps_ret].
Qed.

Lemma keeps_checkAndPrice :
  allowed CallGetReferenceGasPrice -> keeps R (checkAndPrice provider).
Proof.
  intros Hallowed. unfold checkAndPrice.
  apply keeps_bind; [apply keeps_get_data|]. intros td.
  destruct (falsy (sender td)); [apply keeps_throw|].
  destruct (falsy (budget (gasConfig td))); [apply keeps_throw|].
  destruct (falsy (price (gasConfig td))); [|apply keeps_ret].
  apply keeps_bind; [apply keeps_expectProvider|]. intros p.
  apply keeps_bind; [by apply keeps_remote|]. intros fetched. apply R_price.
Qed.

End Keeps.

(** *** The log of remote calls only grows *)

Lemma logs_refl P st : logs P st st.
Proof. exists []. by rewrite app_nil_r. Qed.

Lemma logs_trans P a b c : logs P a b -> logs P b c -> logs P a c.
Proof.
  intros (e1 & H1 & F1) (e2 & H2 & F2). exists (e1 ++ e2).
  split; [by rewrite H2, H1, app_assoc|by apply Forall_app].
Qed.

Lemma logs_modify_data P f : keeps (logs P) (modify_data f).
Proof. intros st. exists []. split; [cbn; by rewrite app_nil_r|done]. Qed.

Lemma logs_push_object P entry : keeps (logs P) (push_object entry).
Proof. intros st. exists []. split; [cbn; by rewrite app_nil_r|done]. Qed.

Lemma logs_push_moveCall P call : keeps (logs P) (push_moveCall call).
Proof. intros st. exists []. split; [cbn; by rewrite app_nil_r|done]. Qed.

Lemma logs_send (P : RemoteCall -> Prop) c : P c -> keeps (logs P) (send c).
Proof. intros Hc st. exists [c]. split; [done|]. by apply Forall_singleton. Qed.

(** *** Only step 1 and step 5 touch the gas configuration *)

Lemma frame_refl st : frame st st.
Proof. by repeat split. Qed.

Lemma frame_trans a b c : frame a b -> frame b c -> frame a c.
Proof.
  intros (S1 & G1 & C1 & L1) (S2 & G2 & C2 & L2).
  repeat split; congruence.
Qed.

Lemma frame_set_input_value ref v : keeps frame (set_input_value ref v).
Proof. intros st. repeat split. cbn. apply length_alter. Qed.

Lemma frame_push_object entry : keeps frame (push_object entry).
Proof. intros st. by repeat split. Qed.

Lemma frame_push_moveCall call : keeps frame (push_moveCall call).
Proof. intros st. by repeat split. Qed.

Lemma frame_send c : keeps frame (send c).
Proof. intros st. by repeat split. Qed.

Section Steps.
Context `{Imports}.
Variable provider : option Provider.

(** Steps 2 to 4 leave sender, gas configuration and commands alone. *)
Lemma frame_classify : keeps frame classify.
Proof.
  apply keeps_classify;
    eauto using frame_refl, frame_trans, frame_set_input_value,
               frame_push_object, frame_push_moveCall.
Qed.

Lemma frame_resolveMoveCalls : keeps frame (resolveMoveCalls provider).
Proof.
  apply (keeps_resolveMoveCalls provider frame (λ _, True));
    eauto using frame_refl, frame_trans, frame_set_input_value,
               frame_push_object, frame_send.
Qed.

Lemma frame_resolveObjects : keeps frame (resolveObjects provider).
Proof.
  apply (keeps_resolveObjects provider frame (λ _, True));
    eauto using frame_refl, frame_trans, frame_set_input_value, frame_send.
Qed.

(** Each step only sends its own kind of call. *)
Lemma logs_classify P : keeps (logs P) classify.
Proof.
  apply keeps_classify;
    eauto using logs_refl, logs_trans, logs_modify_data,
               logs_push_object, logs_push_moveCall.
Qed.

Lemma logs_resolveMoveCalls (P : RemoteCall -> Prop) :
  (∀ package module function,
      P (CallGetNormalizedMoveFunction package module function)) ->
  keeps (logs P) (resolveMoveCalls provider).
Proof.
  intros HP. apply (keeps_resolveMoveCalls provider (logs P) P);
    eauto using logs_refl, logs_trans, logs_modify_data, logs_push_object, logs_send.
Qed.

Lemma logs_resolveObjects (P : RemoteCall -> Prop) :
  (∀ ids, P (CallGetObjectBatch ids)) -> keeps (logs P) (resolveObjects provider).
Proof.
  intros HP. apply (keeps_resolveObjects provider (logs P) P);
    eauto using logs_refl, logs_trans, logs_modify_data, logs_send.
Qed.

Lemma logs_selectGasPayment (P : RemoteCall -> Prop) :
  (∀ owner coinType, P (CallGetCoins owner coinType)) ->
  keeps (logs P) (selectGasPayment provider).
Proof.
  intros HP. apply (keeps_selectGasPayment provider (logs P) P);
    eauto using logs_refl, logs_trans, logs_modify_data, logs_send.
Qed.

Lemma logs_checkAndPrice (P : RemoteCall -> Prop) :
  P CallGetReferenceGasPrice -> keeps (logs P) (checkAndPrice provider).
Proof.
  intros HP. apply (keeps_checkAndPrice provider (logs P) P);
    eauto using logs_refl, logs_trans, logs_modify_data, logs_send.
Qed.

End Steps.

Lemma keeps_weaken {A} (R R' : State -> State -> Prop) (m : M A) :
  (∀ a b, R a b -> R' a b) -> keeps R m -> keeps R' m.
Proof. intros HR Hm st. apply HR, Hm. Qed.

Section Later.
Context `{Imports}.
Variable provider : option Provider.

Local Abbreviation later := (steps_2_to_5 provider).

Lemma prepare_steps : prepare provider = (checkAndPrice provider ;; later).
Proof. reflexivity. Qed.

(** After step 1 no gas price is asked for. *)
Lemma later_logs (P : RemoteCall -> Prop) :
  (∀ package module function,
      P (CallGetNormalizedMoveFunction package module function)) ->
  (∀ ids, P (CallGetObjectBatch ids)) ->
  (∀ owner coinType, P (CallGetCoins owner coinType)) ->
  keeps (logs P) later.
Proof.
  intros Hsig Hbatch Hcoins. unfold steps_2_to_5.
  apply keeps_bind; [apply logs_trans|apply logs_classify|]. intros _.
  apply keeps_bind; [apply logs_trans|by apply logs_resolveMoveCalls|]. intros _.
  apply keeps_bind; [apply logs_trans|by apply logs_resolveObjects|]. intros _.
  by apply logs_selectGasPayment.
Qed.

(** After step 1 the gas price stays as it is. *)
Lemma frame_same_price st st' : frame st st' -> same_price st st'.
Proof. intros (_ & Hgas & _). unfold same_price. by rewrite Hgas. Qed.

Lemma same_price_trans a b c : same_price a b -> same_price b c -> same_price a c.
Proof. unfold same_price. congruence. Qed.

Lemma later_same_price : keeps same_price later.
Proof.
  unfold steps_2_to_5.
  apply keeps_bind; [apply same_price_trans| |]; [|intros _].
  { eapply keeps_weaken; [apply frame_same_price|apply frame_classify]. }
  apply keeps_bind; [apply same_price_trans| |]; [|intros _].
  { eapply keeps_weaken; [apply frame_same_price|apply frame_resolveMoveCalls]. }
  apply keeps_bind; [apply same_price_trans| |]; [|intros _].
  { eapply keeps_weaken; [apply frame_same_price|apply frame_resolveObjects]. }
  apply (keeps_selectGasPayment provider same_price (λ _, True)); try done.
  apply same_price_trans.
Qed.

(** C7: without a sender, or with a sender but without a budget, [#prepare]
    throws its precondition error with no call made and nothing changed;
    otherwise, given a provider, the reference gas price is asked for
    exactly when the price is unset, as the first call and only once, and
    the fetched price is in place when the later steps start and when they
    end. *)
Theorem C7_preconditions_and_price (td : TransactionData) :
  (falsy (sender td) = true ->
   run_prepare provider td = (inl MissingSender, initial td) ∧
   error_class MissingSender = PreconditionError) ∧
  (falsy (sender td) = false -> falsy (budget (gasConfig td)) = true ->
   run_prepare provider td = (inl MissingGasBudget, initial td) ∧
   error_class MissingGasBudget = PreconditionError) ∧
  (∀ p,
      falsy (sender td) = false -> falsy (budget (gasConfig td)) = false ->
      provider = Some p ->
      (falsy (price (gasConfig td)) = true ->
       (∃ rest, calls (snd (run_prepare provider td)) = CallGetReferenceGasPrice :: rest ∧
                CallGetReferenceGasPrice ∉ rest) ∧
       (∀ fetched,
           getReferenceGasPrice p = inr fetched ->
           run_prepare provider td =
             later {| data := set_price (String_ fetched) td;
                      calls := [CallGetReferenceGasPrice];
                      moveModulesToResolve := []; objectsToResolve := [] |} ∧
           price (gasConfig (data (snd (run_prepare provider td)))) =
             Some (String_ fetched))) ∧
      (falsy (price (gasConfig td)) = false ->
       run_prepare provider td = later (initial td) ∧
       (CallGetReferenceGasPrice ∉ calls (snd (run_prepare provider td))) ∧
       price (gasConfig (data (snd (run_prepare provider td)))) = price (gasConfig td))).
Proof.
  assert (Hlogs : keeps (logs (λ c, c ≠ CallGetReferenceGasPrice)) later)
    by (by apply later_logs).
  split; [|split].
  - intros Hsender. split; [|done].
    unfold run_prepare, prepare, bind, checkAndPrice, bind, get_data.
    cbn. by rewrite Hsender.
  - intros Hsender Hbudget. split; [|done].
    unfold run_prepare, prepare, bind, checkAndPrice, bind, get_data.
    cbn. by rewrite Hsender, Hbudget.
  - intros p Hsender Hbudget Hprovider. split.
    + intros Hprice.
      assert (Hrun : run_prepare provider td =
                      match getReferenceGasPrice p with
                      | inl e => (inl (Thrown e), {| data := td; calls := [CallGetReferenceGasPrice];
                                            moveModulesToResolve := [];
                                            objectsToResolve := [] |})
                      | inr fetched =>
                          later {| data := set_price (String_ fetched) td;
                                   calls := [CallGetReferenceGasPrice];
                                   moveModulesToResolve := []; objectsToResolve := [] |}
                      end).
      { unfold run_prepare. rewrite prepare_steps. unfold bind at 1.
        unfold checkAndPrice, bind, get_data, remote, bind. cbn.
        rewrite Hsender, Hbudget, Hprice, Hprovider. cbn.
        by destruct (getReferenceGasPrice p). }
      split.
      * rewrite Hrun. destruct (getReferenceGasPrice p) as [e|fetched].
        { exists []. split; [done|]. apply not_elem_of_nil. }
        destruct (Hlogs {| data := set_price (String_ fetched) td;
                           calls := [CallGetReferenceGasPrice];
                           moveModulesToResolve := []; objectsToResolve := [] |})
          as (extra & Hcalls & Hextra).
        exists extra. split; [by rewrite Hcalls|].
        rewrite Forall_forall in Hextra. intros Hin. by apply (Hextra _ Hin).
      * intros fetched Hfetched. rewrite Hrun, Hfetched. split; [done|].
        apply (later_same_price
                 {| data := set_price (String_ fetched) td;
                    calls := [CallGetReferenceGasPrice];
                    moveModulesToResolve := []; objectsToResolve := [] |}).
    + intros Hprice.
      assert (Hrun : run_prepare provider td = later (initial td)).
      { unfold run_prepare. rewrite prepare_steps. unfold bind at 1.
        unfold checkAndPrice, bind, get_data. cbn.
        by rewrite Hsender, Hbudget, Hprice. }
      rewrite Hrun. split; [done|]. split.
      * destruct (Hlogs (initial td)) as (extra & Hcalls & Hextra).
        rewrite Hcalls. cbn. rewrite Forall_forall in Hextra.
        intros Hin. by apply (Hextra _ Hin).
      * apply (later_same_price (initial td)).
Qed.

End Later.

Lemma C7_preconditions_and_price_witness :
  run_prepare (Some Demo.service) (mkTransactionData None (Demo.gas None) [] []) =
    (inl MissingSender, initial (mkTransactionData None (Demo.gas None) [] [])) ∧
  price (gasConfig (data (snd (run_prepare (Some Demo.service)
    (mkTransactionData (Some "0x5") (mkGasConfig None (Some "5000") None) [] []))))) =
    Some "1000".
Proof.
  split.
  - apply (C7_preconditions_and_price (Some Demo.service)
             (mkTransactionData None (Demo.gas None) [] [])).
    reflexivity.
  - destruct (C7_preconditions_and_price (Some Demo.service)
                (mkTransactionData (Some "0x5") (mkGasConfig None (Some "5000") None) [] []))
      as (_ & _ & Hok).
    destruct (Hok Demo.service eq_refl eq_refl eq_refl) as [Hunset _].
    destruct (Hunset eq_refl) as [_ Hstored].
    apply (Hstored 1000%N eq_refl).
Defined.

(** ** Loops stop at the first throw *)

Lemma forEachFrom_app {A} (f : nat -> A -> M unit) (l1 l2 : list A) (i : nat) st st' :
  forEachFrom i f l1 st = (inr tt, st') ->
  forEachFrom i f (l1 ++ l2) st = forEachFrom (i + length l1) f l2 st'.
Proof.
  revert i st. induction l1 as [|x l1 IH]; intros i st Hrun; cbn in *.
  - injection Hrun as <-. by rewrite Nat.add_0_r.
  - apply bind_inv in Hrun as [(e & _ & He)|([] & st1 & Hx & Hrest)]; [done|].
    rewrite (bind_inr _ _ _ _ _ Hx), (IH _ _ Hrest). f_equal. lia.
Qed.

Lemma forEachFrom_abort {A} (f : nat -> A -> M unit) (l1 l2 : list A) (x : A)
      (i : nat) st st' st'' e :
  forEachFrom i f l1 st = (inr tt, st') ->
  f (i + length l1) x st' = (inl e, st'') ->
  forEachFrom i f (l1 ++ x :: l2) st = (inl e, st'').
Proof.
  intros Hfirst Hx. rewrite (forEachFrom_app _ _ _ _ _ _ Hfirst). cbn.
  by rewrite (bind_inl _ _ _ _ _ Hx).
Qed.

Lemma forEachFrom_error {A} (f : nat -> A -> M unit) (l : list A) (i : nat) st e :
  fst (forEachFrom i f l st) = inl e -> ∃ j x st', fst (f j x st') = inl e.
Proof.
  revert i st. induction l as [|x l IH]; intros i st; cbn; [done|].
  unfold bind. destruct (f i x st) as [[e'|[]] st1] eqn:Hx; cbn.
  - intros [= ->]. exists i, x, st. by rewrite Hx.
  - apply IH.
Qed.

(** ** Move calls against their signature *)

Section MoveCalls.
Context `{Imports}.

Lemma expectedParams_context (front : list SuiMoveNormalizedType) ctx :
  isTxContext ctx = true -> expectedParams (front ++ [ctx]) = front.
Proof.
  intros Hctx. unfold expectedParams.
  rewrite last_snoc, length_app. cbn. rewrite Hctx.
  rewrite bool_decide_true by lia. cbn.
  replace (length front + 1 - 1)%nat with (length front) by lia.
  by rewrite take_app_length.
Qed.

Lemma expectedParams_plain (parameters : list SuiMoveNormalizedType) :
  from_option isTxContext false (last parameters) = false ->
  expectedParams parameters = parameters.
Proof. intros Hlast. unfold expectedParams. by rewrite Hlast, andb_false_r. Qed.

(** What the body of [params.forEach] can throw. *)
Lemma resolveParam_errors call i param st e :
  fst (resolveParam call i param st) = inl e ->
  e = TypeError ∨ (∃ msg, e = Thrown msg) ∨
  (∃ v, e = ExpectObjectIdString v) ∨ (∃ v, e = UnknownCallArgType param v).
Proof.
  unfold resolveParam.
  destruct (arguments call !! i) as [[index| | |]|]; cbn; try done;
    [|intros [= <-]; by left].
  unfold bind, get_inputs. cbn.
  destruct (inputs (data st) !! index) as [input|]; cbn; [|intros [= <-]; by left].
  destruct (getPureSerializationType param (in_value input)) as [msg|serType]; cbn.
  { intros [= <-]. right. left. by exists msg. }
  destruct (truthy serType) as [ty|]; cbn.
  - unfold bind. destruct (Inputs_Pure ty (in_value input)) as [msg|bytes]; cbn; [|done].
    intros [= <-]. right. left. by exists msg.
  - destruct (_ || _).
    + destruct (as_string (in_value input)); cbn; [done|].
      intros [= <-]. right. right. left. by eexists.
    + cbn. intros [= <-]. right. right. right. by eexists.
Qed.

(** C3, amended: the expected parameters are the fetched ones without a
    trailing transaction context, and resolution of the call throws
    ['Incorrect number of arguments.'], a format error, exactly when the
    number of arguments differs from the number of expected parameters. *)
Theorem C3_argument_count (call : MoveCallCommand)
        (parameters : list SuiMoveNormalizedType) (st : State) :
  (∀ front ctx, parameters = front ++ [ctx] -> isTxContext ctx = true ->
                expectedParams parameters = front) ∧
  (from_option isTxContext false (last parameters) = false ->
   expectedParams parameters = parameters) ∧
  (fst (resolveMoveCall call parameters st) = inl IncorrectNumberOfArguments <->
   length (expectedParams parameters) ≠ length (arguments call)) ∧
  (length (expectedParams parameters) ≠ length (arguments call) ->
   resolveMoveCall call parameters st = (inl IncorrectNumberOfArguments, st)) ∧
  error_class IncorrectNumberOfArguments = FormatError.
Proof.
  split; [|split; [|split; [|split]]].
  - intros front ctx -> Hctx. by apply expectedParams_context.
  - apply expectedParams_plain.
  - unfold resolveMoveCall. case_bool_decide as Hlen; split; try done.
    intros Herr. exfalso.
    apply forEachFrom_error in Herr as (j & x & st' & Herr).
    apply resolveParam_errors in Herr.
    destruct Herr as [?|[[? ?]|[[? ?]|[? ?]]]]; discriminate.
  - intros Hlen. unfold resolveMoveCall. by rewrite bool_decide_true.
  - reflexivity.
Qed.

End MoveCalls.

(** C3, as stated, fails: with two arguments for the two parameters of
    [h(SomeStruct, u64)] the counts agree, yet resolution of the call fails
    with a format error, because the first argument is a number where an
    object id string is expected. *)
Lemma C3_counterexample_matching_count :
  let call := mkMoveCall "0x2::m::h" [] [Input 0; Input 1] in
  let parameters := [Demo.SomeStruct; TPrim "U64"] in
  let td := Demo.tx [Demo.raw_pure 0 (JNumber 42); Demo.raw_pure 1 (JNumber 7)]
                    [MoveCall call] in
  length (expectedParams (H:=Demo.imports) parameters) = length (arguments call) ∧
  fst (resolveMoveCall (H:=Demo.imports) call parameters (initial td)) =
    inl (ExpectObjectIdString (Raw (JNumber 42))) ∧
  fst (run_prepare (H:=Demo.imports) (Some Demo.service) td) =
    inl (ExpectObjectIdString (Raw (JNumber 42))) ∧
  error_class (ExpectObjectIdString (Raw (JNumber 42))) = FormatError.
Proof. cbv zeta. repeat split; vm_compute; reflexivity. Qed.

Lemma C3_argument_count_witness :
  resolveMoveCall (mkMoveCall "0x2::m::f" [] [Input 0])
    [TMutableReference Demo.SomeStruct; TPrim "U64"; Demo.TxContext]
    (initial (Demo.tx [Demo.raw_object 0 "0xa"] [])) =
  (inl IncorrectNumberOfArguments, initial (Demo.tx [Demo.raw_object 0 "0xa"] [])) ∧
  expectedParams [TMutableReference Demo.SomeStruct; TPrim "U64"; Demo.TxContext] =
  [TMutableReference Demo.SomeStruct; TPrim "U64"].
Proof.
  pose proof (C3_argument_count (mkMoveCall "0x2::m::f" [] [Input 0])
                [TMutableReference Demo.SomeStruct; TPrim "U64"; Demo.TxContext]
                (initial (Demo.tx [Demo.raw_object 0 "0xa"] [])))
    as (Hctx & _ & _ & Hthrow & _).
  split.
  - apply Hthrow. vm_compute. lia.
  - apply (Hctx [TMutableReference Demo.SomeStruct; TPrim "U64"] Demo.TxContext);
      reflexivity.
Defined.

(** ** Format errors *)

Section FormatErrors.
Context `{Imports}.

(** C8: an unresolved input whose value is not a string throws
    ['Unexpected input format.'] under a declared object encoding, and
    ['Expect the argument to be an object id string'] under a parameter that
    yields no pure type and is a struct or a type parameter; a parameter
    that yields no pure type and is neither throws ['Unknown call arg
    type']; all three are format errors, and a throw inside the body of a
    loop ends the loop, and with it the call, with that error. *)
Theorem C8_format_errors (st : State) (index : nat) (input : TransactionInput) :
  inputs (data st) !! index = Some input ->
  is_BuilderCallArg (in_value input) = false ->
  (as_string (in_value input) = None ->
   encodeInput EncObject index st = (inl UnexpectedInputFormat, st)) ∧
  (∀ call i param serType,
      arguments call !! i = Some (Input index) ->
      getPureSerializationType param (in_value input) = inr serType ->
      truthy serType = None ->
      (as_string (in_value input) = None ->
       is_Some (extractStructTag param) ∨ is_TypeParameter param = true ->
       resolveParam call i param st = (inl (ExpectObjectIdString (in_value input)), st)) ∧
      (extractStructTag param = None -> is_TypeParameter param = false ->
       resolveParam call i param st =
         (inl (UnknownCallArgType param (in_value input)), st))) ∧
  (∀ v param,
      error_class UnexpectedInputFormat = FormatError ∧
      error_class (ExpectObjectIdString v) = FormatError ∧
      error_class (UnknownCallArgType param v) = FormatError) ∧
  (∀ call parameters before param after e st0 st',
      expectedParams parameters = before ++ param :: after ->
      length (expectedParams parameters) = length (arguments call) ->
      forEachFrom 0 (resolveParam call) before st0 = (inr tt, st) ->
      resolveParam call (length before) param st = (inl e, st') ->
      resolveMoveCall call parameters st0 = (inl e, st')).
Proof.
  intros Hinput Hraw. split; [|split; [|split]].
  - intros Hstring. unfold encodeInput, bind, get_inputs. cbn.
    by rewrite Hinput, Hraw, Hstring.
  - intros call i param serType Harg Hser Htruthy. split.
    + intros Hstring Hkind. unfold resolveParam. rewrite Harg.
      unfold bind, get_inputs. cbn. rewrite Hinput. cbn.
      rewrite Hser. cbn. rewrite Htruthy, Hstring.
      destruct Hkind as [Hstruct|Htp].
      * by rewrite bool_decide_true.
      * by rewrite Htp, orb_true_r.
    + intros Hstruct Htp. unfold resolveParam. rewrite Harg.
      unfold bind, get_inputs. cbn. rewrite Hinput. cbn.
      rewrite Hser. cbn. rewrite Htruthy, Hstruct, Htp.
      rewrite bool_decide_false by (by intros [? ?]). done.
  - done.
  - intros call parameters before param after e st0 st' Hparams Hlen Hbefore Hparam.
    unfold resolveMoveCall. rewrite bool_decide_false by (by intros ?).
    rewrite Hparams. by apply (forEachFrom_abort _ _ _ _ _ _ _ _ _ Hbefore).
Qed.

End FormatErrors.

Lemma C8_format_errors_witness :
  encodeInput EncObject 0 (initial (Demo.tx [Demo.raw_pure 0 (JNumber 42)] [])) =
    (inl UnexpectedInputFormat, initial (Demo.tx [Demo.raw_pure 0 (JNumber 42)] [])) ∧
  resolveParam (mkMoveCall "0x2::m::h" [] [Input 0]) 0 Demo.SomeStruct
    (initial (Demo.tx [Demo.raw_pure 0 (JNumber 42)] [])) =
    (inl (ExpectObjectIdString (Raw (JNumber 42))),
     initial (Demo.tx [Demo.raw_pure 0 (JNumber 42)] [])) ∧
  resolveParam (mkMoveCall "0x2::m::v" [] [Input 0]) 0 (TVector Demo.SomeStruct)
    (initial (Demo.tx [Demo.raw_pure 0 (JNumber 42)] [])) =
    (inl (UnknownCallArgType (TVector Demo.SomeStruct) (Raw (JNumber 42))),
     initial (Demo.tx [Demo.raw_pure 0 (JNumber 42)] [])).
Proof.
  pose proof (C8_format_errors (initial (Demo.tx [Demo.raw_pure 0 (JNumber 42)] []))
                0%nat (Demo.raw_pure 0 (JNumber 42)) eq_refl eq_refl)
    as (Hobject & Hparam & _).
  split; [|split].
  - apply Hobject. reflexivity.
  - apply (Hparam (mkMoveCall "0x2::m::h" [] [Input 0]) 0%nat Demo.SomeStruct None);
      try reflexivity.
    left. by eexists.
  - apply (Hparam (mkMoveCall "0x2::m::v" [] [Input 0]) 0%nat
             (TVector Demo.SomeStruct) None);
      reflexivity.
Defined.

(** ** Already resolved inputs *)

Lemma encodeInput_resolved `{Imports} wellKnown index input st :
  inputs (data st) !! index = Some input ->
  is_BuilderCallArg (in_value input) = true ->
  encodeInput wellKnown index st = (inr tt, st).
Proof.
  intros Hinput Hresolved. unfold encodeInput, bind, get_inputs. cbn.
  by rewrite Hinput, Hresolved.
Qed.

(** The signature pass never looks at whether the value is resolved: a
    resolved object argument under a struct parameter is rejected. *)
Lemma resolveParam_resolved `{Imports} call i param index input c st :
  arguments call !! i = Some (Input index) ->
  inputs (data st) !! index = Some input ->
  in_value input = Resolved c ->
  getPureSerializationType param (Resolved c) = inr None ->
  is_Some (extractStructTag param) ->
  resolveParam call i param st = (inl (ExpectObjectIdString (Resolved c)), st).
Proof.
  intros Harg Hinput Hvalue Hser Hstruct. unfold resolveParam. rewrite Harg.
  unfold bind, get_inputs. cbn. rewrite Hinput. cbn. rewrite Hvalue, Hser. cbn.
  by rewrite bool_decide_true.
Qed.

(** C1 does not hold of the code: input 0 already holds an owned object
    reference and input 1 is a raw number; the Move call [h(SomeStruct, u64)]
    takes both. The scan over the commands would skip input 0, but the
    signature pass tests the input instead of its value, goes on, and throws
    ['Expect the argument to be an object id string']. *)
Theorem C1_signature_pass_does_not_skip :
  let resolved := Resolved (Object (ImmOrOwned (mkObjectRef "0xb" 7 "dB"))) in
  let td := Demo.tx [mkInput 0 resolved (Some TyObject); Demo.raw_pure 1 (JNumber 42)]
                    [Demo.call "h" [Input 0; Input 1]] in
  is_BuilderCallArg resolved = true ∧
  (∀ wellKnown, encodeInput wellKnown 0 (initial td) = (inr tt, initial td)) ∧
  fst (run_prepare (Some Demo.service) td) = inl (ExpectObjectIdString resolved).
Proof. cbv zeta. split; [done|]. split; [by intros [|ty]|]. by vm_compute. Qed.

(** ** Shared objects and mutability *)

(** The two places that queue an input for step 4: the scan queues it
    without a type, the signature pass with the type of its parameter. *)
Lemma encodeInput_queues `{Imports} index input id st :
  inputs (data st) !! index = Some input ->
  in_value input = Raw (JString id) ->
  encodeInput EncObject index st =
    (inr tt, {| data := data st; calls := calls st;
                moveModulesToResolve := moveModulesToResolve st;
                objectsToResolve :=
                  objectsToResolve st ++ [mkToResolve id index None] |}).
Proof.
  intros Hinput Hvalue. unfold encodeInput, bind, get_inputs. cbn.
  by rewrite Hinput, Hvalue.
Qed.

Lemma resolveParam_queues `{Imports} call i param index input id serType st :
  arguments call !! i = Some (Input index) ->
  inputs (data st) !! index = Some input ->
  in_value input = Raw (JString id) ->
  getPureSerializationType param (in_value input) = inr serType ->
  truthy serType = None ->
  is_Some (extractStructTag param) ∨ is_TypeParameter param = true ->
  resolveParam call i param st =
    (inr tt, {| data := data st; calls := calls st;
                moveModulesToResolve := moveModulesToResolve st;
                objectsToResolve :=
                  objectsToResolve st ++ [mkToResolve id index (Some param)] |}).
Proof.
  intros Harg Hinput Hvalue Hser Htruthy Hkind. unfold resolveParam. rewrite Harg.
  unfold bind, get_inputs. cbn. rewrite Hinput. cbn. rewrite Hser. cbn.
  rewrite Htruthy, Hvalue. cbn.
  destruct Hkind as [Hstruct|Htp].
  - by rewrite bool_decide_true.
  - by rewrite Htp, orb_true_r.
Qed.

Lemma alter_as_insert {A} (f : A -> A) (l : list A) (i : nat) (x : A) :
  l !! i = Some x -> alter f i l = <[i := f x]> l.
Proof.
  intros Hx. apply list_eq. intros k. destruct (decide (i = k)) as [->|Hne].
  - rewrite list_lookup_alter_eq, list_lookup_insert_eq
      by (by eapply lookup_lt_Some). by rewrite Hx.
  - by rewrite list_lookup_alter_ne, list_lookup_insert_ne.
Qed.

Section Mutability.
Context `{Imports}.
Variable objectsById : list (string * option SuiObjectResponse).

Lemma resolveObject_effect (entry : ObjectToResolve) (st : State) :
  resolvable objectsById (length (inputs (data st))) entry ->
  ∃ input v st',
    inputs (data st) !! otr_input entry = Some input ∧
    resolveObject objectsById entry st = (inr tt, st') ∧
    inputs (data st') = <[otr_input entry := set_value v input]> (inputs (data st)) ∧
    (shared_entry objectsById entry ->
     ∃ version,
       v = Inputs_SharedObjectRef (otr_id entry) version
             (isMutableSharedObjectInput (in_value input) || wants_mutable entry)).
Proof.
  intros [[object Hobject] Hlt].
  destruct (lookup_lt_is_Some_2 _ _ Hlt) as [input Hinput].
  unfold object_for in Hobject. unfold resolveObject, shared_entry, object_for.
  destruct (map_get (otr_id entry) objectsById) as [[o|]|]; try done.
  injection Hobject as ->.
  destruct (sharedVersion object) as [version|] eqn:Hshared.
  - exists input, (Inputs_SharedObjectRef (otr_id entry) version
                     (isMutableSharedObjectInput (in_value input) || wants_mutable entry)).
    eexists. split; [done|].
    unfold bind, get_inputs. cbn. rewrite Hinput. cbn.
    split; [reflexivity|]. cbn. split.
    + by apply alter_as_insert.
    + intros _. by exists version.
  - exists input, (Inputs_ObjectRef (getObjectReference object)).
    eexists. split; [done|]. split; [reflexivity|]. cbn. split.
    + by apply alter_as_insert.
    + intros (o & v & [= <-] & Hv). congruence.
Qed.

Lemma demanded_spec (r : nat) (queue : list ObjectToResolve) :
  demanded r queue = true <->
  ∃ entry t, entry ∈ queue ∧ otr_input entry = r ∧
             otr_normalizedType entry = Some t ∧ is_Some (extractMutableReference t).
Proof.
  unfold demanded. rewrite existsb_exists. split.
  - intros (entry & Hin & Hwants). apply andb_true_iff in Hwants as [Hr Hwants].
    apply bool_decide_eq_true in Hr. unfold wants_mutable in Hwants.
    destruct (otr_normalizedType entry) as [t|] eqn:Ht; [|done].
    apply bool_decide_eq_true in Hwants.
    exists entry, t. by rewrite list_elem_of_In.
  - intros (entry & t & Hin & Hr & Ht & Hmut). exists entry.
    split; [by apply list_elem_of_In|].
    unfold wants_mutable. rewrite Ht. apply andb_true_iff.
    split; by apply bool_decide_eq_true.
Qed.

Lemma demanded_Permutation (r : nat) (queue queue' : list ObjectToResolve) :
  queue ≡ₚ queue' -> demanded r queue = demanded r queue'.
Proof.
  intros Hperm. apply eq_true_iff_eq. rewrite !demanded_spec.
  split; intros (entry & t & Hin & Hrest); exists entry, t;
    (split; [|done]); [by rewrite <- Hperm|by rewrite Hperm].
Qed.

Lemma forEachFrom_resolveObject (r : nat) (queue : list ObjectToResolve) :
  ∀ (i : nat) (st : State) (input : TransactionInput),
    inputs (data st) !! r = Some input ->
    Forall (resolvable objectsById (length (inputs (data st)))) queue ->
    (∀ entry, entry ∈ queue -> otr_input entry = r -> shared_entry objectsById entry) ->
    ∃ st' input',
      forEachFrom i (fun _ => resolveObject objectsById) queue st = (inr tt, st') ∧
      inputs (data st') !! r = Some input' ∧
      isMutableSharedObjectInput (in_value input') =
        isMutableSharedObjectInput (in_value input) || demanded r queue ∧
      ((∃ entry, entry ∈ queue ∧ otr_input entry = r) ->
       ∃ id v m, in_value input' = Inputs_SharedObjectRef id v m) ∧
      ((∀ entry, entry ∈ queue -> otr_input entry ≠ r) -> input' = input).
Proof.
  induction queue as [|entry rest IH]; intros i st input Hinput Hall Hshared.
  - exists st, input. cbn. rewrite orb_false_r. repeat split; try done.
    intros (entry & Hin & _). by apply elem_of_nil in Hin.
  - apply Forall_cons in Hall as [Hentry Hrest].
    destruct (resolveObject_effect entry st Hentry)
      as (input0 & v & st1 & Hinput0 & Hstep & Hinputs1 & Hvalue).
    assert (Hrest1 : Forall (resolvable objectsById (length (inputs (data st1)))) rest)
      by (by rewrite Hinputs1, length_insert).
    assert (Hshared1 : ∀ e, e ∈ rest -> otr_input e = r -> shared_entry objectsById e)
      by (intros e He; apply Hshared; by right).
    cbn [forEachFrom]. rewrite (bind_inr _ _ _ _ _ Hstep).
    destruct (decide (otr_input entry = r)) as [Hr|Hr].
    + rewrite Hr in Hinput0. rewrite Hinput in Hinput0. injection Hinput0 as <-.
      destruct (Hvalue (Hshared entry ltac:(by left) Hr)) as (version & ->).
      assert (Hinput1 : inputs (data st1) !! r =
                        Some (set_value
                                (Inputs_SharedObjectRef (otr_id entry) version
                                   (isMutableSharedObjectInput (in_value input)
                                    || wants_mutable entry)) input)).
      { rewrite Hinputs1, Hr. apply list_lookup_insert_eq. by eapply lookup_lt_Some. }
      destruct (IH (S i) st1 _ Hinput1 Hrest1 Hshared1)
        as (st' & input' & Hrun & Hinput' & Hflag & Htouched & Huntouched).
      exists st', input'. split; [done|]. split; [done|]. split; [|split].
      * rewrite Hflag. cbn. rewrite bool_decide_true by done. cbn.
        by rewrite orb_assoc.
      * intros _. destruct (decide (Forall (fun e => otr_input e ≠ r) rest)) as [Hnone|Hsome].
        { rewrite Forall_forall in Hnone. rewrite (Huntouched Hnone). cbn. eauto. }
        apply not_Forall_Exists in Hsome; [|apply _].
        apply Exists_exists in Hsome as (e & He & Hne). apply Htouched.
        exists e. split; [done|]. cbn in Hne. by destruct (decide (otr_input e = r)).
      * intros Hnone. exfalso. apply (Hnone entry); [by left|done].
    + assert (Hinput1 : inputs (data st1) !! r = Some input)
        by (by rewrite Hinputs1, list_lookup_insert_ne).
      destruct (IH (S i) st1 _ Hinput1 Hrest1 Hshared1)
        as (st' & input' & Hrun & Hinput' & Hflag & Htouched & Huntouched).
      exists st', input'. split; [done|]. split; [done|]. split; [|split].
      * rewrite Hflag. cbn. by rewrite bool_decide_false.
      * intros (e & He & Her). apply Htouched. exists e. split; [|done].
        apply elem_of_cons in He as [->|He]; done.
      * intros Hnone. apply Huntouched. intros e He. apply Hnone. by right.
Qed.

(** C2: when every entry queued for an input refers to a shared object,
    processing the queue leaves that input a shared-object reference whose
    [mutable] flag is the flag it had before or'ed with the demands of all
    its entries, so it is [true] as soon as one entry comes with a mutable
    reference parameter or the input was mutable before, whatever the order
    of the queue. *)
Theorem C2_shared_mutability_is_or (queue queue' : list ObjectToResolve)
        (st : State) (r : nat) (input : TransactionInput) :
  inputs (data st) !! r = Some input ->
  Forall (resolvable objectsById (length (inputs (data st)))) queue ->
  (∀ entry, entry ∈ queue -> otr_input entry = r -> shared_entry objectsById entry) ->
  (∃ entry, entry ∈ queue ∧ otr_input entry = r) ->
  queue ≡ₚ queue' ->
  let mutable := isMutableSharedObjectInput (in_value input) || demanded r queue in
  (∃ st1 st2 id1 v1 id2 v2,
      forEach (resolveObject objectsById) queue st = (inr tt, st1) ∧
      forEach (resolveObject objectsById) queue' st = (inr tt, st2) ∧
      in_value <$> inputs (data st1) !! r = Some (Inputs_SharedObjectRef id1 v1 mutable) ∧
      in_value <$> inputs (data st2) !! r = Some (Inputs_SharedObjectRef id2 v2 mutable)) ∧
  (demanded r queue = true <->
   ∃ entry t, entry ∈ queue ∧ otr_input entry = r ∧
              otr_normalizedType entry = Some t ∧ is_Some (extractMutableReference t)).
Proof.
  intros Hinput Hall Hshared Htouched Hperm mutable. split; [|apply demanded_spec].
  destruct (forEachFrom_resolveObject r queue 0 st input Hinput Hall Hshared)
    as (st1 & input1 & Hrun1 & Hinput1 & Hflag1 & Hvalue1 & _).
  assert (Hall' : Forall (resolvable objectsById (length (inputs (data st)))) queue')
    by (by rewrite <- Hperm).
  assert (Hshared' : ∀ e, e ∈ queue' -> otr_input e = r -> shared_entry objectsById e)
    by (intros e He; apply Hshared; by rewrite Hperm).
  assert (Htouched' : ∃ e, e ∈ queue' ∧ otr_input e = r).
  { destruct Htouched as (e & He & Hr). exists e. by rewrite <- Hperm. }
  destruct (forEachFrom_resolveObject r queue' 0 st input Hinput Hall' Hshared')
    as (st2 & input2 & Hrun2 & Hinput2 & Hflag2 & Hvalue2 & _).
  rewrite <- (demanded_Permutation r queue queue' Hperm) in Hflag2.
  destruct (Hvalue1 Htouched) as (id1 & v1 & m1 & Hv1).
  destruct (Hvalue2 Htouched') as (id2 & v2 & m2 & Hv2).
  exists st1, st2, id1, v1, id2, v2. split; [done|]. split; [done|].
  rewrite Hinput1, Hinput2. cbn. rewrite Hv1, Hv2.
  rewrite Hv1 in Hflag1. rewrite Hv2 in Hflag2. cbn in Hflag1, Hflag2.
  by rewrite Hflag1, Hflag2.
Qed.

End Mutability.

(** ** The batched object lookup *)

Lemma dedupe_from_elem (seen ids : list string) (id : string) :
  id ∈ dedupe_from seen ids <-> id ∈ ids ∧ id ∉ seen.
Proof.
  revert seen. induction ids as [|x ids IH]; intros seen; cbn.
  - split; [by intros ?%elem_of_nil|by intros [?%elem_of_nil _]].
  - case_bool_decide as Hseen.
    + rewrite IH, elem_of_cons. split; [tauto|].
      intros [[->|Hin] Hnot]; [done|tauto].
    + rewrite !elem_of_cons, IH, elem_of_cons.
      split.
      * intros [->|[Hin Hnot]]; [tauto|]. split; [tauto|]. tauto.
      * intros [[->|Hin] Hnot]; [tauto|].
        destruct (decide (id = x)) as [->|Hne]; [tauto|]. right. tauto.
Qed.

Lemma dedupe_from_NoDup (seen ids : list string) : NoDup (dedupe_from seen ids).
Proof.
  revert seen. induction ids as [|x ids IH]; intros seen; cbn.
  - constructor.
  - case_bool_decide as Hseen; [apply IH|].
    constructor; [|apply IH].
    rewrite dedupe_from_elem, elem_of_cons. tauto.
Qed.

Lemma dedupe_elem (ids : list string) (id : string) : id ∈ dedupe ids <-> id ∈ ids.
Proof.
  unfold dedupe. rewrite dedupe_from_elem. split; [tauto|].
  intros Hin. split; [done|]. apply not_elem_of_nil.
Qed.

Section Batch.
Context `{Imports}.
Variable provider : option Provider.

Lemma objectsById_of_fmap (lookup : string -> SuiObjectResponse) (ids : list string) :
  objectsById_of ids (lookup <$> ids) = (fun id => (id, Some (lookup id))) <$> ids.
Proof.
  unfold objectsById_of. apply list_eq. intros k.
  rewrite list_lookup_imap, !list_lookup_fmap.
  by destruct (ids !! k).
Qed.

Lemma invalidObjects_fmap (lookup : string -> SuiObjectResponse) (ids : list string) :
  invalidObjects ((fun id => (id, Some (lookup id))) <$> ids) =
  inr (filter (fun id => status (lookup id) ≠ "Exists") ids).
Proof.
  induction ids as [|id ids IH]; [done|].
  cbn [fmap list_fmap invalidObjects]. rewrite IH, filter_cons.
  destruct (String.eqb_spec (status (lookup id)) "Exists") as [Heq|Hne].
  - by rewrite decide_False by (by intros ?).
  - by rewrite decide_True.
Qed.

Lemma forEach_resolveObject_silent objectsById queue st :
  calls (snd (forEach (resolveObject objectsById) queue st)) = calls st.
Proof.
  assert (Hkeeps : keeps (logs (fun _ => False))
                         (forEach (resolveObject objectsById) queue)).
  { apply keeps_forEach; [apply logs_refl|apply logs_trans|]. intros entry.
    apply keeps_resolveObject;
      [apply logs_refl|apply logs_trans|intros ref v; apply logs_modify_data]. }
  destruct (Hkeeps st) as (extra & Hcalls & Hextra).
  destruct extra as [|c extra]; [by rewrite Hcalls, app_nil_r|].
  by apply Forall_cons in Hextra as [[] _].
Qed.

(** C5: with a non-empty queue, the ids of the queue are stripped of their
    duplicates and sent in one [getObjectBatch] call, the only call of this
    step; if the service answers id by id, the step throws when some id does
    not exist, and the error lists the ids that do not exist, all of them
    and each once; when all exist, the step goes on to resolve the queue. *)
Theorem C5_batch_and_missing_ids (st : State) (p : Provider)
        (lookup : string -> SuiObjectResponse)
        (entry : ObjectToResolve) (rest : list ObjectToResolve) :
  objectsToResolve st = entry :: rest ->
  provider = Some p ->
  let queue := entry :: rest in
  let ids := dedupe (otr_id <$> queue) in
  let missing := filter (fun id => status (lookup id) ≠ "Exists") ids in
  let sent := {| data := data st; calls := calls st ++ [CallGetObjectBatch ids];
                 moveModulesToResolve := moveModulesToResolve st;
                 objectsToResolve := objectsToResolve st |} in
  getObjectBatch p ids = inr (lookup <$> ids) ->
  NoDup ids ∧
  (∀ id, id ∈ ids <-> id ∈ otr_id <$> queue) ∧
  calls (snd (resolveObjects provider st)) = calls st ++ [CallGetObjectBatch ids] ∧
  (missing ≠ [] ->
   resolveObjects provider st = (inl (InvalidObjects missing), sent) ∧
   error_class (InvalidObjects missing) = ExistenceError) ∧
  NoDup missing ∧
  (∀ id, id ∈ missing <-> id ∈ otr_id <$> queue ∧ status (lookup id) ≠ "Exists") ∧
  (missing = [] ->
   resolveObjects provider st =
     forEach (resolveObject (objectsById_of ids (lookup <$> ids))) queue sent).
Proof.
  intros Hqueue Hprovider queue ids missing sent Hbatch.
  assert (Hids : NoDup ids) by apply dedupe_from_NoDup.
  assert (Hrun : resolveObjects provider st =
                 match missing with
                 | _ :: _ => (inl (InvalidObjects missing), sent)
                 | [] => forEach (resolveObject (objectsById_of ids (lookup <$> ids)))
                                 queue sent
                 end).
  { unfold resolveObjects. rewrite Hqueue, Hprovider.
    unfold bind at 1. cbn [expectProvider ret].
    unfold bind at 1, remote, bind at 1, send. cbn [fst snd].
    fold queue ids. rewrite Hbatch. cbn [thrown lift ret].
    unfold bind at 1. rewrite objectsById_of_fmap, invalidObjects_fmap.
    cbn [lift ret]. fold missing. by destruct missing. }
  split; [done|]. split; [apply dedupe_elem|]. split; [|split; [|split; [|split]]].
  - rewrite Hrun. destruct missing; [|done].
    by rewrite forEach_resolveObject_silent.
  - intros Hmissing. split; [|done]. rewrite Hrun. by destruct missing.
  - by apply NoDup_filter.
  - intros id. unfold missing. rewrite list_elem_of_filter.
    unfold ids. rewrite dedupe_elem. tauto.
  - intros Hmissing. by rewrite Hrun, Hmissing.
Qed.

End Batch.

(** ** Gas payment *)

Lemma same_payer_refl st : same_payer st st.
Proof. by split. Qed.

Lemma same_payer_trans a b c : same_payer a b -> same_payer b c -> same_payer a c.
Proof. intros [S1 P1] [S2 P2]. split; congruence. Qed.

Lemma frame_same_payer st st' : frame st st' -> same_payer st st'.
Proof. intros (Hsender & Hgas & _). split; [done|]. by rewrite Hgas. Qed.

Lemma paid_quietly_trans a b c : paid_quietly a b -> paid_quietly b c -> paid_quietly a c.
Proof.
  intros Hab Hbc Hpaid. destruct (Hab Hpaid) as [Hpay1 Hlog1].
  destruct Hbc as [Hpay2 Hlog2]; [by rewrite Hpay1|].
  split; [congruence|by eapply logs_trans].
Qed.

Section GasPayment.
Context `{Imports}.
Variable provider : option Provider.

Lemma unused_coin_spec (ins : list TransactionInput) (coin : Coin) :
  unused_coin ins coin <->
  ∀ input ref, input ∈ ins -> in_value input = Inputs_ObjectRef ref ->
               objectId ref ≠ coinObjectId coin.
Proof.
  unfold unused_coin. rewrite list_find_None, Forall_forall. split.
  - intros Hnone input ref Hin Hvalue Hid. apply (Hnone input Hin).
    unfold uses_coin. by rewrite Hvalue.
  - intros Hnone input Hin Huses. unfold uses_coin in Huses.
    destruct (in_value input) as [|[|[ref|]]] eqn:Hvalue; try done.
    by apply (Hnone input ref Hin).
Qed.

(** Steps 1 to 4 keep sender and payment, and ask for no coins. *)
Lemma same_payer_checkAndPrice : keeps same_payer (checkAndPrice provider).
Proof.
  apply (keeps_checkAndPrice provider same_payer (fun _ => True));
    eauto using same_payer_refl, same_payer_trans.
  - intros c _ st. by split.
  - intros price st. by split.
Qed.

Lemma before_payment (m : M unit) :
  keeps same_payer m ->
  keeps (logs (fun c => ∀ owner coinType, c ≠ CallGetCoins owner coinType)) m ->
  keeps paid_quietly m.
Proof. intros Hpayer Hlogs st _. split; [apply Hpayer|apply Hlogs]. Qed.

Lemma paid_quietly_selectGasPayment : keeps paid_quietly (selectGasPayment provider).
Proof.
  intros st [refs Hpaid]. unfold selectGasPayment, bind, get_data. cbn.
  rewrite Hpaid. cbn. split; [done|apply logs_refl].
Qed.

Lemma paid_quietly_prepare : keeps paid_quietly (prepare provider).
Proof.
  unfold prepare.
  apply keeps_bind; [apply paid_quietly_trans| |]; [|intros _].
  { apply before_payment; [apply same_payer_checkAndPrice|].
    by apply logs_checkAndPrice. }
  apply keeps_bind; [apply paid_quietly_trans| |]; [|intros _].
  { apply before_payment; [|apply logs_classify].
    eapply keeps_weaken; [apply frame_same_payer|apply frame_classify]. }
  apply keeps_bind; [apply paid_quietly_trans| |]; [|intros _].
  { apply before_payment; [|by apply logs_resolveMoveCalls].
    eapply keeps_weaken; [apply frame_same_payer|apply frame_resolveMoveCalls]. }
  apply keeps_bind; [apply paid_quietly_trans| |]; [|intros _].
  { apply before_payment; [|by apply logs_resolveObjects].
    eapply keeps_weaken; [apply frame_same_payer|apply frame_resolveObjects]. }
  apply paid_quietly_selectGasPayment.
Qed.

(** A run that gets through has gone through step 5 last, from a state
    with the sender and payment it started with. *)
Lemma prepare_inv (st st' : State) :
  prepare provider st = (inr tt, st') ->
  ∃ st4, same_payer st st4 ∧ selectGasPayment provider st4 = (inr tt, st').
Proof.
  unfold prepare. intros Hrun.
  apply bind_inv in Hrun as [(e & _ & He)|([] & st1 & H1 & Hrun)]; [done|].
  apply bind_inv in Hrun as [(e & _ & He)|([] & st2 & H2 & Hrun)]; [done|].
  apply bind_inv in Hrun as [(e & _ & He)|([] & st3 & H3 & Hrun)]; [done|].
  apply bind_inv in Hrun as [(e & _ & He)|([] & st4 & H4 & Hrun)]; [done|].
  exists st4. split; [|done].
  pose proof (same_payer_checkAndPrice st) as R1. rewrite H1 in R1.
  pose proof (frame_same_payer _ _ (frame_classify st1)) as R2. rewrite H2 in R2.
  pose proof (frame_same_payer _ _ (frame_resolveMoveCalls provider st2)) as R3.
  rewrite H3 in R3.
  pose proof (frame_same_payer _ _ (frame_resolveObjects provider st3)) as R4.
  rewrite H4 in R4. cbn in *.
  eauto using same_payer_trans.
Qed.

Lemma selectGasPayment_unset (st : State) (p : Provider) (coins : list Coin) :
  payment (gasConfig (data st)) = None ->
  provider = Some p ->
  getCoins p (sender (data st)) SUI_TYPE_ARG = inr coins ->
  let selected := coin_ref <$> filter (unused_coin (inputs (data st))) coins in
  selectGasPayment provider st =
    (match selected with [] => inl NoValidGasCoins | _ :: _ => inr tt end,
     {| data := set_payment selected (data st);
        calls := calls st ++ [CallGetCoins (sender (data st)) SUI_TYPE_ARG];
        moveModulesToResolve := moveModulesToResolve st;
        objectsToResolve := objectsToResolve st |}).
Proof.
  intros Hunset Hprovider Hcoins selected.
  unfold selectGasPayment, bind, get_data, remote, bind. cbn.
  rewrite Hunset, Hprovider. cbn. rewrite Hcoins. cbn.
  fold selected. by destruct selected.
Qed.

(** C4: with no payment set, step 5 asks once for the sender's coins of
    the gas type and sets the payment to those coins, in order, whose id is
    not the object id of any input resolved to an owned-object reference; it
    then throws the resource error when that list is empty; a run of
    [#prepare] that gets through ends with exactly that payment, computed
    against the inputs as resolved; and with a payment already set no run
    asks for coins, however it ends. *)
Theorem C4_gas_payment_selection (td : TransactionData) :
  (∀ st p coins,
      payment (gasConfig (data st)) = None ->
      provider = Some p ->
      getCoins p (sender (data st)) SUI_TYPE_ARG = inr coins ->
      let remainder := filter (unused_coin (inputs (data st))) coins in
      (∀ coin, coin ∈ remainder <->
               coin ∈ coins ∧
               ∀ input ref, input ∈ inputs (data st) ->
                            in_value input = Inputs_ObjectRef ref ->
                            objectId ref ≠ coinObjectId coin) ∧
      payment (gasConfig (data (snd (selectGasPayment provider st)))) =
        Some (coin_ref <$> remainder) ∧
      calls (snd (selectGasPayment provider st)) =
        calls st ++ [CallGetCoins (sender (data st)) SUI_TYPE_ARG] ∧
      (remainder = [] ->
       fst (selectGasPayment provider st) = inl NoValidGasCoins ∧
       error_class NoValidGasCoins = ResourceError) ∧
      (remainder ≠ [] -> fst (selectGasPayment provider st) = inr tt)) ∧
  (∀ st',
      payment (gasConfig td) = None ->
      run_prepare provider td = (inr tt, st') ->
      ∃ p coins,
        provider = Some p ∧
        getCoins p (sender td) SUI_TYPE_ARG = inr coins ∧
        filter (unused_coin (inputs (data st'))) coins ≠ [] ∧
        payment (gasConfig (data st')) =
          Some (coin_ref <$> filter (unused_coin (inputs (data st'))) coins)) ∧
  (is_Some (payment (gasConfig td)) ->
   (∀ owner coinType,
       CallGetCoins owner coinType ∉ calls (snd (run_prepare provider td))) ∧
   payment (gasConfig (data (snd (run_prepare provider td)))) = payment (gasConfig td)).
Proof.
  split; [|split].
  - intros st p coins Hunset Hprovider Hcoins remainder.
    rewrite (selectGasPayment_unset st p coins Hunset Hprovider Hcoins).
    fold remainder. cbn [fst snd].
    split; [|split; [done|split; [done|split]]].
    + intros coin. unfold remainder.
      rewrite list_elem_of_filter, unused_coin_spec. tauto.
    + intros ->. done.
    + intros Hne. destruct remainder; done.
  - intros st' Hunset Hrun.
    apply prepare_inv in Hrun as (st4 & [Hsender Hpayment] & Hlast).
    cbn in Hsender, Hpayment. rewrite Hunset in Hpayment.
    destruct provider as [p|] eqn:Hprovider.
    2: { unfold selectGasPayment, bind, get_data in Hlast. cbn in Hlast.
         rewrite Hpayment in Hlast. done. }
    destruct (getCoins p (sender (data st4)) SUI_TYPE_ARG) as [msg|coins] eqn:Hcoins.
    { unfold selectGasPayment, bind, get_data, remote, bind in Hlast. cbn in Hlast.
      rewrite Hpayment in Hlast. cbn in Hlast. rewrite Hcoins in Hlast. done. }
    rewrite <- Hprovider in Hlast.
    rewrite (selectGasPayment_unset st4 p coins Hpayment Hprovider Hcoins) in Hlast.
    exists p, coins. split; [done|]. rewrite <- Hsender. split; [done|].
    destruct (filter _ coins) as [|coin remainder] eqn:Hremainder; [done|].
    injection Hlast as <-. cbn. rewrite Hremainder. done.
  - intros Hpaid.
    destruct (paid_quietly_prepare (initial td) Hpaid) as (Hpayment & extra & Hcalls & Hextra).
    split; [|done]. intros owner coinType Hin.
    unfold run_prepare in Hin. rewrite Hcalls in Hin. cbn in Hin.
    rewrite Forall_forall in Hextra. by apply (Hextra _ Hin owner coinType).
Qed.

End GasPayment.

(** ** The claims on the demo ledger *)

Lemma C2_shared_mutability_is_or_witness :
  let objectsById := [("0xa", Some (Demo.object_of "0xa"))] in
  let immutably := mkToResolve "0xa" 0 None in
  let mutably := mkToResolve "0xa" 0 (Some (TMutableReference Demo.SomeStruct)) in
  let st := initial (Demo.tx [Demo.raw_object 0 "0xa"] []) in
  ∃ st1 st2 id1 v1 id2 v2,
    forEach (resolveObject objectsById) [immutably; mutably] st = (inr tt, st1) ∧
    forEach (resolveObject objectsById) [mutably; immutably] st = (inr tt, st2) ∧
    in_value <$> inputs (data st1) !! 0%nat = Some (Inputs_SharedObjectRef id1 v1 true) ∧
    in_value <$> inputs (data st2) !! 0%nat = Some (Inputs_SharedObjectRef id2 v2 true).
Proof.
  cbv zeta.
  refine (proj1 (C2_shared_mutability_is_or
                   [("0xa", Some (Demo.object_of "0xa"))]
                   [mkToResolve "0xa" 0 None;
                    mkToResolve "0xa" 0 (Some (TMutableReference Demo.SomeStruct))]
                   [mkToResolve "0xa" 0 (Some (TMutableReference Demo.SomeStruct));
                    mkToResolve "0xa" 0 None]
                   (initial (Demo.tx [Demo.raw_object 0 "0xa"] []))
                   0%nat (Demo.raw_object 0 "0xa") eq_refl _ _ _ _)).
  - repeat constructor; try (by eexists); cbn; lia.
  - intros entry Hin _. exists (Demo.object_of "0xa"), 5%N.
    apply elem_of_cons in Hin as [->|Hin]; [done|].
    apply elem_of_cons in Hin as [->|Hin]; [done|].
    by apply elem_of_nil in Hin.
  - exists (mkToResolve "0xa" 0 None). split; [by left|done].
  - apply Permutation_swap.
Defined.

Lemma C4_gas_payment_selection_witness :
  payment (gasConfig (data (snd (selectGasPayment (Some Demo.service)
    (initial (Demo.tx [mkInput 0 (Inputs_ObjectRef (mkObjectRef "0xc1" 1 "d1"))
                               (Some TyObject)] [])))))) =
    Some [mkObjectRef "0xc2" 2 "d2"] ∧
  ∀ owner coinType,
    CallGetCoins owner coinType ∉
      calls (snd (run_prepare (Some Demo.service)
                    (mkTransactionData (Some "0x5") (Demo.gas (Some [])) [] []))).
Proof.
  split.
  - destruct (C4_gas_payment_selection (Some Demo.service) (Demo.tx [] []))
      as (Hstep & _).
    destruct (Hstep (initial (Demo.tx [mkInput 0 (Inputs_ObjectRef (mkObjectRef "0xc1" 1 "d1"))
                                               (Some TyObject)] []))
                    Demo.service Demo.coins_of_sender eq_refl eq_refl eq_refl)
      as (_ & Hpayment & _).
    exact Hpayment.
  - destruct (C4_gas_payment_selection (Some Demo.service)
                (mkTransactionData (Some "0x5") (Demo.gas (Some [])) [] []))
      as (_ & _ & Hpaid).
    apply Hpaid. by eexists.
Defined.

Lemma C5_batch_and_missing_ids_witness :
  let queue := [mkToResolve "0xzz" 0 None; mkToResolve "0xa" 1 None;
                mkToResolve "0xzz" 2 None] in
  let st := mkState (Demo.tx [Demo.raw_object 0 "0xzz"; Demo.raw_object 1 "0xa";
                              Demo.raw_pure 2 (JString "0xzz")] []) [] [] queue in
  resolveObjects (Some Demo.service) st =
  (inl (InvalidObjects ["0xzz"]),
   mkState (data st) [CallGetObjectBatch ["0xzz"; "0xa"]] [] queue).
Proof.
  cbv zeta.
  destruct (C5_batch_and_missing_ids (Some Demo.service)
              (mkState (Demo.tx [Demo.raw_object 0 "0xzz"; Demo.raw_object 1 "0xa";
                                 Demo.raw_pure 2 (JString "0xzz")] []) [] []
                       [mkToResolve "0xzz" 0 None; mkToResolve "0xa" 1 None;
                        mkToResolve "0xzz" 2 None])
              Demo.service Demo.object_of
              (mkToResolve "0xzz" 0 None)
              [mkToResolve "0xa" 1 None; mkToResolve "0xzz" 2 None]
              eq_refl eq_refl eq_refl)
    as (_ & _ & _ & Hmissing & _).
  apply Hmissing. discriminate.
Defined.

(** ** Whole runs on the demo ledger *)

(** [0x2::m::f(obj, 42)] against [(&mut SomeStruct, u64, &mut TxContext)]:
    the context is dropped, [42] becomes a pure argument, and the shared
    object [0xa] a mutable shared-object reference; the unset payment is
    filled with the sender's two coins. *)
Example run_entry_function :
  let td := Demo.tx [Demo.raw_object 0 "0xa"; Demo.raw_pure 1 (JNumber 42)]
                    [Demo.call "f" [Input 0; Input 1]] in
  fst (run_prepare (Some Demo.service) td) = inr tt ∧
  in_value <$> inputs (data (snd (run_prepare (Some Demo.service) td))) =
    [Inputs_SharedObjectRef "0xa" 5 true; Resolved (Pure [42%Z])] ∧
  calls (snd (run_prepare (Some Demo.service) td)) =
    [CallGetNormalizedMoveFunction "0x2" (Some "m") (Some "f");
     CallGetObjectBatch ["0xa"];
     CallGetCoins (Some "0x5") "0x2::sui::SUI"] ∧
  payment (gasConfig (data (snd (run_prepare (Some Demo.service) td)))) =
    Some [mkObjectRef "0xc1" 1 "d1"; mkObjectRef "0xc2" 2 "d2"].
Proof. cbv zeta. repeat split; by vm_compute. Qed.

(** The shared object [0xa] taken by a transfer, by [g(&SomeStruct)] and by
    [f(&mut SomeStruct, u64, &mut TxContext)]: mutable, whichever comes
    first. *)
Example run_shared_by_three_commands :
  let ins := [Demo.raw_object 0 "0xa"; Demo.raw_pure 1 (JNumber 42);
              Demo.raw_pure 2 (JString "0x7")] in
  let transfer := Command "TransferObjects"
                    [("objects", FArgs [Input 0]); ("address", FArg (Input 2))] in
  let g := Demo.call "g" [Input 0] in
  let f := Demo.call "f" [Input 0; Input 1] in
  (in_value <$> inputs (data (snd (run_prepare (Some Demo.service)
                                     (Demo.tx ins [transfer; g; f])))))
    !! 0%nat = Some (Inputs_SharedObjectRef "0xa" 5 true) ∧
  (in_value <$> inputs (data (snd (run_prepare (Some Demo.service)
                                     (Demo.tx ins [f; g; transfer])))))
    !! 0%nat = Some (Inputs_SharedObjectRef "0xa" 5 true).
Proof. cbv zeta. split; by vm_compute. Qed.

(** Destructuring the handle takes the same objects as indexing it. *)
Example destructure_then_index :
  let h := snd (iterate 0 2 (createTransactionResult 4)) in
  fst (iterate 0 2 (createTransactionResult 4)) = [0; 1]%nat ∧
  fst (proxy_get (KString "1") h) = GotNested 1%nat ∧
  allocated h = [NestedResult 4 0; NestedResult 4 1].
Proof. cbv zeta. repeat split; by vm_compute. Qed.

(** * Further properties *)

(** ** More on the result handle *)

Lemma proxy_get_numeric (s : string) (z : Z) (h : ResultHandle) :
  parseInt s = Some z -> (0 <= z)%Z ->
  proxy_get (KString s) h =
  (GotNested (fst (nestedResultFor (Z.to_N z) h)), snd (nestedResultFor (Z.to_N z) h)).
Proof.
  intros Hparse Hz. unfold proxy_get.
  destruct (in_target (KString s)) eqn:Hin.
  { apply in_target_not_numeric in Hin. congruence. }
  rewrite Hparse. destruct (Z.ltb_spec z 0) as [Hneg|_]; [lia|].
  by destruct (nestedResultFor (Z.to_N z) h).
Qed.

(** X1: two keys that parse to the same index, such as [2], [+2] and
    [2abc], read the same nested result. *)
Theorem X1_alias_keys (index : nat) (h : ResultHandle) (s1 s2 : string) (z : Z) :
  handle_of index h ->
  parseInt s1 = Some z -> parseInt s2 = Some z ->
  (0 <= z <= Z.of_N MAX_SAFE_INTEGER)%Z ->
  ∃ ref h1,
    proxy_get (KString s1) h = (GotNested ref, h1) ∧
    proxy_get (KString s2) h1 = (GotNested ref, h1) ∧
    allocated h1 !! ref = Some (NestedResult index (Z.to_N z)).
Proof.
  intros Hh H1 H2 [Hz _]. pose proof (handle_of_inv index h Hh) as Hinv.
  pose proof (nestedResultFor_spec index (Z.to_N z) h Hinv) as Hspec.
  rewrite (proxy_get_numeric s1 z h H1 Hz).
  destruct (nestedResultFor (Z.to_N z) h) as [ref h1] eqn:Hfirst. cbn [fst snd].
  destruct Hspec as (Hinv1 & Hslot & _ & _).
  exists ref, h1. split; [done|]. split.
  - rewrite (proxy_get_numeric s2 z h1 H2 Hz).
    by rewrite (nestedResultFor_cached _ ref h1).
  - by apply Hinv1.
Qed.

Lemma X1_alias_keys_witness :
  ∃ ref h1,
    proxy_get (KString "2abc") (createTransactionResult 7) = (GotNested ref, h1) ∧
    proxy_get (KString " +2") h1 = (GotNested ref, h1) ∧
    allocated h1 !! ref = Some (NestedResult 7 2).
Proof.
  apply (X1_alias_keys 7 (createTransactionResult 7) "2abc" " +2" 2 (handle_fresh 7));
    [reflexivity|reflexivity|by vm_compute].
Defined.

Lemma iterate_spec (index : nat) (n : nat) :
  ∀ (i : N) (h : ResultHandle),
    handle_inv index h ->
    let refs := fst (iterate i n h) in
    let h' := snd (iterate i n h) in
    handle_inv index h' ∧
    (∀ j r, nestedResults h !! j = Some r -> nestedResults h' !! j = Some r) ∧
    length refs = n ∧
    (∀ k ref, refs !! k = Some ref -> nestedResults h' !! (i + N.of_nat k)%N = Some ref).
Proof.
  induction n as [|n IH]; intros i h Hinv; cbn [iterate].
  - cbn. split; [done|]. split; [done|]. split; [done|].
    intros k ref Hk. by rewrite lookup_nil in Hk.
  - pose proof (nestedResultFor_spec index i h Hinv) as Hspec.
    destruct (nestedResultFor i h) as [ref h1].
    destruct Hspec as (Hinv1 & Hslot & _ & Hslots).
    specialize (IH (i + 1)%N h1 Hinv1).
    destruct (iterate (i + 1) n h1) as [refs h2]. cbn [fst snd] in *.
    destruct IH as (Hinv2 & Hslots2 & Hlen & Hrefs).
    split; [done|]. split; [by auto|]. split; [cbn; by f_equal|].
    intros [|k] r Hk; cbn in Hk.
    + injection Hk as <-. rewrite N.add_0_r. by apply Hslots2.
    + replace (i + N.of_nat (S k))%N with (i + 1 + N.of_nat k)%N by lia.
      by apply Hrefs.
Qed.

(** X2: taking the first [n] values of the handle's iterator gives [n]
    different objects, the [k]-th being the nested result [k] of the
    command, the very object that indexing with [k] then reads. *)
Theorem X2_destructuring (index : nat) (h : ResultHandle) (n : nat) :
  handle_of index h ->
  (N.of_nat n <= MAX_SAFE_INTEGER)%N ->
  let refs := fst (iterate 0 n h) in
  let h' := snd (iterate 0 n h) in
  length refs = n ∧ NoDup refs ∧
  ∀ k ref,
    refs !! k = Some ref ->
    allocated h' !! ref = Some (NestedResult index (N.of_nat k)) ∧
    proxy_get (KString (String_ (N.of_nat k))) h' = (GotNested ref, h').
Proof.
  intros Hh _ refs h'. pose proof (handle_of_inv index h Hh) as Hinv.
  destruct (iterate_spec index n 0%N h Hinv) as (Hinv' & _ & Hlen & Hrefs).
  fold refs h' in Hinv', Hlen, Hrefs.
  assert (Hobject : ∀ k ref, refs !! k = Some ref ->
                             allocated h' !! ref = Some (NestedResult index (N.of_nat k))).
  { intros k ref Hk. apply Hinv'. by apply (Hrefs k ref). }
  split; [done|]. split.
  - apply NoDup_alt. intros a b ref Ha Hb.
    pose proof (Hobject a ref Ha) as Hoa. rewrite (Hobject b ref Hb) in Hoa.
    injection Hoa as Hab. lia.
  - intros k ref Hk. split; [by apply Hobject|].
    rewrite proxy_get_index, (nestedResultFor_cached _ ref h'); [done|].
    by apply (Hrefs k ref).
Qed.

Lemma X2_destructuring_witness :
  fst (iterate 0 3 (createTransactionResult 1)) = [0; 1; 2]%nat ∧
  NoDup (fst (iterate 0 3 (createTransactionResult 1))).
Proof.
  destruct (X2_destructuring 1 (createTransactionResult 1) 3 (handle_fresh 1)
              ltac:(by vm_compute)) as (_ & Hnodup & _).
  split; [reflexivity|exact Hnodup].
Defined.

(** Cache and objects of a handle are in one-to-one correspondence. *)
Lemma handle_objects (index : nat) (h : ResultHandle) :
  handle_of index h ->
  length (allocated h) = size (nestedResults h) ∧
  ∀ ref x, allocated h !! ref = Some x ->
           ∃ i, x = NestedResult index i ∧ nestedResults h !! i = Some ref.
Proof.
  induction 1 as [|h property Hh [Hsize Hobjects]].
  - split; [done|]. intros ref x Hx. cbn in Hx. by rewrite lookup_nil in Hx.
  - pose proof (handle_of_inv index h Hh) as [Hindex Hinv].
    unfold proxy_get.
    destruct (in_target property); [by destruct property|].
    destruct property as [s| |d]; cbn [snd]; try done.
    destruct (parseInt s) as [z|]; [|done].
    destruct (z <? 0)%Z; [done|].
    unfold nestedResultFor.
    destruct (nestedResults h !! Z.to_N z) as [ref|] eqn:Hslot; [done|].
    cbn. split.
    + rewrite length_app, map_size_insert_None by done. cbn. lia.
    + intros ref x Hx. apply lookup_app_Some in Hx as [Hx|[Hge Hx]].
      * destruct (Hobjects ref x Hx) as (i & -> & Hi). exists i. split; [done|].
        rewrite lookup_insert_ne; [done|]. intros <-. congruence.
      * destruct (ref - length (allocated h))%nat as [|k] eqn:Hk; [|by destruct k].
        cbn in Hx. injection Hx as <-. exists (Z.to_N z).
        split; [by rewrite Hindex|].
        replace ref with (length (allocated h)) by lia. apply lookup_insert_eq.
Qed.

Lemma proxy_get_cases (property : PropertyKey) (h : ResultHandle) :
  snd (proxy_get property h) = h ∨
  ∃ ref x, fst (proxy_get property h) = GotNested ref ∧
           allocated (snd (proxy_get property h)) = allocated h ++ [x].
Proof.
  unfold proxy_get.
  destruct (in_target property); [left; by destruct property|].
  destruct property as [s| |d]; cbn [fst snd]; try by left.
  destruct (parseInt s) as [z|]; [|by left].
  destruct (z <? 0)%Z; [by left|].
  unfold nestedResultFor.
  destruct (nestedResults h !! Z.to_N z) as [ref|]; cbn [fst snd]; [by left|].
  right. by eexists _, _.
Qed.

(** X3: a handle holds exactly one nested-result object per index it has
    been read at, each one a [NestedResult] of its own command; a read
    creates at most one object and leaves those already handed out as they
    are, and reading [kind], [index], a symbol or a negative index creates
    none. *)
Theorem X3_one_object_per_index (index : nat) (h : ResultHandle)
        (property : PropertyKey) :
  handle_of index h ->
  length (allocated h) = size (nestedResults h) ∧
  (∀ ref x, allocated h !! ref = Some x ->
            ∃ i, x = NestedResult index i ∧ nestedResults h !! i = Some ref) ∧
  allocated h `prefix_of` allocated (snd (proxy_get property h)) ∧
  length (allocated (snd (proxy_get property h))) <= S (length (allocated h)) ∧
  ((∀ ref, fst (proxy_get property h) ≠ GotNested ref) -> snd (proxy_get property h) = h).
Proof.
  intros Hh. destruct (handle_objects index h Hh) as [Hsize Hobjects].
  split; [done|]. split; [done|].
  destruct (proxy_get_cases property h) as [->|(ref & x & Hgot & ->)].
  - split; [done|]. split; [lia|done].
  - split; [by apply prefix_app_r|]. split; [rewrite length_app; cbn; lia|].
    intros Hno. by destruct (Hno ref).
Qed.

Lemma X3_one_object_per_index_witness :
  length (allocated (snd (proxy_get (KString "5") (createTransactionResult 0)))) =
  size (nestedResults (snd (proxy_get (KString "5") (createTransactionResult 0)))).
Proof.
  apply (X3_one_object_per_index 0 _ (KString "kind")).
  apply handle_read, handle_fresh.
Defined.

(** ** The builder before [#prepare] *)

Section Builder.
Context `{Imports}.

Lemma builder_call_appends (c : BuilderCall) (td : TransactionData) :
  inputs td `prefix_of` inputs (builder_call c td) ∧
  commands td `prefix_of` commands (builder_call c td).
Proof.
  destruct c; cbn; try done.
  - unfold object_. destruct (list_find _ _) as [[pos input]|]; cbn; [done|].
    split; [apply prefix_app_r|]; done.
  - split; [apply prefix_app_r|]; done.
  - split; [|apply prefix_app_r]; done.
Qed.

Lemma builder_calls_appends (cs : list BuilderCall) (td : TransactionData) :
  inputs td `prefix_of` inputs (builder_calls cs td) ∧
  commands td `prefix_of` commands (builder_calls cs td).
Proof.
  revert td. induction cs as [|c cs IH]; intros td; cbn; [done|].
  destruct (builder_call_appends c td) as [Hin Hcmd].
  destruct (IH (builder_call c td)) as [Hin' Hcmd'].
  split; etrans; done.
Qed.

Lemma well_indexed_snoc (ins : list TransactionInput) (value : InputValue)
      (type : option InputType) :
  well_indexed ins -> well_indexed (ins ++ [mkInput (length ins) value type]).
Proof.
  intros Hins pos input Hpos. apply lookup_app_Some in Hpos as [Hpos|[Hge Hpos]].
  - by apply Hins.
  - destruct (pos - length ins)%nat as [|k] eqn:Hk; [|by destruct k].
    cbn in Hpos. injection Hpos as <-. cbn. lia.
Qed.

Lemma builder_call_invariants (c : BuilderCall) (td : TransactionData) :
  well_indexed (inputs td) -> distinct_objects (inputs td) ->
  well_indexed (inputs (builder_call c td)) ∧
  distinct_objects (inputs (builder_call c td)).
Proof.
  intros Hindexed Hdistinct. destruct c; cbn; try done.
  - unfold object_.
    destruct (list_find _ _) as [[pos input]|] eqn:Hfind; cbn; [done|].
    split; [by apply well_indexed_snoc|].
    apply list_find_None in Hfind. rewrite Forall_lookup in Hfind.
    intros p q i j Hp Hq Hti Htj Hid.
    apply lookup_app_Some in Hp as [Hp|[Hpge Hp]];
      apply lookup_app_Some in Hq as [Hq|[Hqge Hq]].
    + by apply (Hdistinct p q i j).
    + destruct (q - length (inputs td))%nat as [|k]; [|by destruct k].
      cbn in Hq. injection Hq as <-. cbn in Hid.
      exfalso. apply (Hfind p i Hp). by split.
    + destruct (p - length (inputs td))%nat as [|k]; [|by destruct k].
      cbn in Hp. injection Hp as <-. cbn in Hid.
      exfalso. apply (Hfind q j Hq). by split.
    + destruct (p - length (inputs td))%nat as [|k] eqn:Hkp; [|by destruct k].
      destruct (q - length (inputs td))%nat as [|k'] eqn:Hkq; [|by destruct k'].
      lia.
  - split; [by apply well_indexed_snoc|].
    intros p q i j Hp Hq Hti Htj Hid.
    apply lookup_app_Some in Hp as [Hp|[Hpge Hp]];
      apply lookup_app_Some in Hq as [Hq|[Hqge Hq]].
    + by apply (Hdistinct p q i j).
    + destruct (q - length (inputs td))%nat as [|k]; [|by destruct k].
      cbn in Hq. by injection Hq as <-.
    + destruct (p - length (inputs td))%nat as [|k]; [|by destruct k].
      cbn in Hp. by injection Hp as <-.
    + destruct (p - length (inputs td))%nat as [|k]; [|by destruct k].
      cbn in Hp. by injection Hp as <-.
Qed.

(** X4: whatever sequence of [object], [pure], [add] and setter calls is
    made on a transaction whose inputs carry their position as index and
    whose object inputs have different ids, the inputs still carry their
    position as index and the object inputs still have different ids. *)
Theorem X4_builder_invariants (cs : list BuilderCall) (td : TransactionData) :
  well_indexed (inputs td) -> distinct_objects (inputs td) ->
  well_indexed (inputs (builder_calls cs td)) ∧
  distinct_objects (inputs (builder_calls cs td)).
Proof.
  revert td. induction cs as [|c cs IH]; intros td Hindexed Hdistinct; cbn; [done|].
  destruct (builder_call_invariants c td Hindexed Hdistinct) as [Hi Hd].
  by apply IH.
Qed.

(** X5: calls on the builder only append: the inputs and commands there
    are stay where they are, so the command a handle was returned for is
    still at the handle's index, and the input [object] or [pure] returned
    is still the same, after any further calls. *)
Theorem X5_builder_appends (cs : list BuilderCall) (td : TransactionData) :
  inputs td `prefix_of` inputs (builder_calls cs td) ∧
  commands td `prefix_of` commands (builder_calls cs td) ∧
  (∀ command,
      commands (builder_calls cs (snd (add command td)))
        !! baseIndex (fst (add command td)) = Some command) ∧
  (∀ value,
      inputs (builder_calls cs (snd (object_ value td))) !! fst (object_ value td) =
      inputs (snd (object_ value td)) !! fst (object_ value td) ∧
      inputs (builder_calls cs (snd (pure_ value td))) !! fst (pure_ value td) =
      Some (mkInput (length (inputs td)) value (Some TyPure))).
Proof.
  destruct (builder_calls_appends cs td) as [Hin Hcmd].
  split; [done|]. split; [done|]. split.
  - intros command.
    destruct (builder_calls_appends cs (snd (add command td))) as [_ [rest ->]].
    cbn. rewrite length_app. cbn.
    replace (length (commands td) + 1 - 1)%nat with (length (commands td)) by lia.
    rewrite lookup_app_l by (rewrite length_app; cbn; lia).
    by rewrite lookup_app_r, Nat.sub_diag by lia.
  - intros value. split.
    + destruct (object_refers value td) as (input & Hlook & _).
      destruct (builder_calls_appends cs (snd (object_ value td))) as [[rest ->] _].
      rewrite Hlook. by apply lookup_app_l_Some.
    + destruct (builder_calls_appends cs (snd (pure_ value td))) as [[rest ->] _].
      cbn. apply lookup_app_l_Some.
      by rewrite lookup_app_r, Nat.sub_diag by lia.
Qed.

End Builder.

Lemma X4_builder_invariants_witness :
  well_indexed (inputs (builder_calls
    [DoObject (Raw (JString "0xa")); DoPure (Raw (JNumber 1));
     DoObject (Raw (JString "0xa")); DoObject (Raw (JString "0xb"))]
    (Demo.tx [] []))) ∧
  length (inputs (builder_calls
    [DoObject (Raw (JString "0xa")); DoPure (Raw (JNumber 1));
     DoObject (Raw (JString "0xa")); DoObject (Raw (JString "0xb"))]
    (Demo.tx [] []))) = 3%nat.
Proof.
  split; [|reflexivity].
  apply (X4_builder_invariants
           [DoObject (Raw (JString "0xa")); DoPure (Raw (JNumber 1));
            DoObject (Raw (JString "0xa")); DoObject (Raw (JString "0xb"))]
           (Demo.tx [] [])).
  - intros pos input Hpos. cbn in Hpos. by rewrite lookup_nil in Hpos.
  - intros p q i j Hp. cbn in Hp. by rewrite lookup_nil in Hp.
Defined.

(** ** What [#prepare] can throw *)

Lemma throws_ret {A} P (a : A) : throws P (ret a).
Proof. by intros st e. Qed.

Lemma throws_throw {A} (P : Error -> Prop) e : P e -> throws P (throw (A:=A) e).
Proof. intros He st e' [= <-]. done. Qed.

Lemma throws_bind {A B} P (m : M A) (k : A -> M B) :
  throws P m -> (∀ a, throws P (k a)) -> throws P (bind m k).
Proof.
  intros Hm Hk st e. unfold bind. specialize (Hm st).
  destruct (m st) as [[e'|a] st']; cbn in *.
  - intros [= <-]. by apply Hm.
  - apply Hk.
Qed.

Lemma throws_weaken {A} (P Q : Error -> Prop) (m : M A) :
  (∀ e, P e -> Q e) -> throws P m -> throws Q m.
Proof. intros HPQ Hm st e He. by apply HPQ, (Hm st). Qed.

Lemma throws_forEachFrom_Forall {A} P (f : nat -> A -> M unit) (l : list A) (i : nat) :
  Forall (fun x => ∀ j, throws P (f j x)) l -> throws P (forEachFrom i f l).
Proof.
  intros Hl. revert i. induction Hl as [|x l Hx _ IH]; intros i; cbn.
  - apply throws_ret.
  - apply throws_bind; [apply Hx|]. intros _. apply IH.
Qed.

Lemma throws_forEachFrom {A} P (f : nat -> A -> M unit) (l : list A) (i : nat) :
  (∀ j x, throws P (f j x)) -> throws P (forEachFrom i f l).
Proof.
  intros Hf. apply throws_forEachFrom_Forall, Forall_forall. intros x _ j. apply Hf.
Qed.

Lemma throws_forEach {A} P (f : A -> M unit) (l : list A) :
  (∀ x, throws P (f x)) -> throws P (forEach f l).
Proof. intros Hf. apply throws_forEachFrom. intros _. apply Hf. Qed.

Lemma throws_never {A} P (m : M A) : (∀ st, ∃ a, fst (m st) = inr a) -> throws P m.
Proof. intros Hm st e He. destruct (Hm st) as [a Ha]. congruence. Qed.

Lemma needsResolution_error ins args e :
  needsResolution ins args = inl e -> e = TypeError.
Proof.
  induction args as [|[index| | |] args IH]; cbn; try done.
  destruct (ins !! index) as [input|]; [|by intros [= <-]].
  by destruct (is_BuilderCallArg (in_value input)).
Qed.

Section Throws.
Context `{Imports}.
Variable provider : option Provider.
Variable P : Error -> Prop.
Hypothesis P_thrown : ∀ msg, P (Thrown msg).
Hypothesis P_type : P TypeError.
Hypothesis P_provider : provider = None -> P NoProvider.

Lemma throws_thrown {A} (r : string + A) : throws P (lift (thrown r)).
Proof. destruct r as [msg|a]; [by apply throws_throw|apply throws_ret]. Qed.

Lemma throws_expectProvider : throws P (expectProvider provider).
Proof.
  unfold expectProvider. destruct provider; [apply throws_ret|].
  apply throws_throw. by apply P_provider.
Qed.

Lemma throws_remote {A} c (r : string + A) : throws P (remote c (thrown r)).
Proof.
  apply throws_bind; [by apply throws_never; eexists|]. intros _. apply throws_thrown.
Qed.

Lemma throws_encodeInput wellKnown index :
  P MissingInput -> P UnexpectedInputFormat -> throws P (encodeInput wellKnown index).
Proof.
  intros Hmissing Hformat. unfold encodeInput.
  apply throws_bind; [by apply throws_never; eexists|]. intros ins.
  destruct (ins !! index) as [input|]; [|by apply throws_throw].
  destruct (is_BuilderCallArg (in_value input)); [apply throws_ret|].
  destruct wellKnown as [|ty].
  - destruct (as_string (in_value input));
      [by apply throws_never; eexists|by apply throws_throw].
  - destruct (as_string (in_value input));
      (apply throws_bind; [apply throws_thrown|]; intros bytes;
       by apply throws_never; eexists).
Qed.

Lemma throws_classify :
  P MissingInput -> P UnexpectedInputFormat -> throws P classify.
Proof.
  intros Hmissing Hformat. unfold classify.
  apply throws_bind; [by apply throws_never; eexists|]. intros td.
  apply throws_forEach. intros [call|kind fields]; cbn.
  - apply throws_bind; [by apply throws_never; eexists|]. intros ins.
    apply throws_bind.
    + intros st e. destruct (needsResolution ins (arguments call)) as [e'|b] eqn:Hn; [|done].
      cbn. intros [= <-]. by rewrite (needsResolution_error _ _ _ Hn).
    + intros [|]; [by apply throws_never; eexists|apply throws_ret].
  - destruct (getTransactionCommandType _) as [schema|]; [|apply throws_ret].
    apply throws_forEach. intros [key value]. unfold encodeField.
    destruct (String.eqb key "kind"); [apply throws_ret|].
    destruct (wellKnownEncoding (schema key)) as [wellKnown|]; [|apply throws_ret].
    destruct (isArray (schema key)).
    + destruct value as [a|items|v]; try by apply throws_throw.
      apply throws_forEach. intros [index| | |]; try apply throws_ret.
      by apply throws_encodeInput.
    + destruct value as [[index| | |]|items|v]; try apply throws_ret.
      by apply throws_encodeInput.
Qed.

Lemma throws_resolveMoveCall call parameters :
  P IncorrectNumberOfArguments ->
  (∀ v, P (ExpectObjectIdString v)) ->
  (∀ param v, P (UnknownCallArgType param v)) ->
  throws P (resolveMoveCall call parameters).
Proof.
  intros Hcount Hexpect Hunknown. unfold resolveMoveCall.
  case_bool_decide; [by apply throws_throw|].
  apply throws_forEachFrom. intros j param st e He.
  apply resolveParam_errors in He as [->|[[msg ->]|[[v ->]|[v ->]]]]; auto.
Qed.

Lemma requestSignature_returns call st :
  ∃ outcome,
    fst (requestSignature provider call st) = inr outcome ∧
    ∀ e, outcome = inl e -> P e.
Proof.
  unfold requestSignature. destruct provider as [p|] eqn:Hprovider.
  - destruct (split_colons _ _) as [|packageId rest].
    + eexists. split; [reflexivity|]. by intros e [= <-].
    + eexists. split; [reflexivity|].
      destruct (getNormalizedMoveFunction _ _ _ _); cbn; [|done]. by intros e [= <-].
  - eexists. split; [reflexivity|]. intros e [= <-]. by apply P_provider.
Qed.

Lemma mapM_requestSignature queue st :
  ∃ outcomes,
    fst (mapM (requestSignature provider) queue st) = inr outcomes ∧
    length outcomes = length queue ∧
    Forall (fun outcome => ∀ e, outcome = inl e -> P e) outcomes.
Proof.
  revert st. induction queue as [|call queue IH]; intros st; cbn.
  - exists []. by repeat split.
  - unfold bind at 1.
    destruct (requestSignature_returns call st) as (outcome & Hcall & Houtcome).
    destruct (requestSignature provider call st) as [r st1]. cbn in Hcall. subst r.
    unfold bind at 1.
    destruct (IH st1) as (outcomes & Hrest & Hlen & Hall).
    destruct (mapM (requestSignature provider) queue st1) as [r st2]. cbn in Hrest.
    subst r. cbn. exists (outcome :: outcomes).
    split; [done|]. split; [by cbn; f_equal|]. by constructor.
Qed.

Lemma throws_resolveMoveCalls :
  P IncorrectNumberOfArguments ->
  (∀ v, P (ExpectObjectIdString v)) ->
  (∀ param v, P (UnknownCallArgType param v)) ->
  throws P (resolveMoveCalls provider).
Proof.
  intros Hcount Hexpect Hunknown st e. unfold resolveMoveCalls.
  destruct (moveModulesToResolve st) as [|call queue]; [done|].
  unfold bind at 1.
  destruct (mapM_requestSignature (call :: queue) st) as (outcomes & Hmap & _ & Hall).
  destruct (mapM (requestSignature provider) (call :: queue) st) as [r st1].
  cbn in Hmap. subst r.
  apply throws_forEachFrom_Forall.
  apply Forall_forall. intros [c outcome] Hin _.
  apply elem_of_zip_r in Hin. rewrite Forall_forall in Hall.
  apply throws_bind.
  - destruct outcome as [e'|parameters]; [|apply throws_ret].
    apply throws_throw. by apply (Hall _ Hin).
  - intros parameters. by apply throws_resolveMoveCall.
Qed.

Lemma invalidObjects_error entries e : invalidObjects entries = inl e -> e = TypeError.
Proof.
  induction entries as [|[id [obj|]] entries IH]; cbn; try done.
  - destruct (invalidObjects entries); [|done]. intros [= <-]. by apply IH.
  - by intros [= <-].
Qed.

Lemma throws_resolveObject objectsById entry : throws P (resolveObject objectsById entry).
Proof.
  unfold resolveObject.
  destruct (map_get _ _) as [[object|]|]; try by apply throws_throw.
  destruct (sharedVersion object); [|by apply throws_never; eexists].
  apply throws_bind; [by apply throws_never; eexists|]. intros ins.
  destruct (ins !! otr_input entry); [by apply throws_never; eexists|].
  by apply throws_throw.
Qed.

Lemma throws_resolveObjects :
  (∀ ids, P (InvalidObjects ids)) -> throws P (resolveObjects provider).
Proof.
  intros Hinvalid st. unfold resolveObjects.
  destruct (objectsToResolve st) as [|entry queue]; [done|]. revert st.
  change (throws P (p <- expectProvider provider ;;
                    objects <- remote (CallGetObjectBatch (dedupe (otr_id <$> entry :: queue)))
                                 (thrown (getObjectBatch p (dedupe (otr_id <$> entry :: queue)))) ;;
                    invalid <- lift (invalidObjects
                                       (objectsById_of (dedupe (otr_id <$> entry :: queue))
                                                       objects)) ;;
                    match invalid with
                    | _ :: _ => throw (InvalidObjects invalid)
                    | [] => forEach (resolveObject
                                       (objectsById_of (dedupe (otr_id <$> entry :: queue))
                                                       objects))
                                    (entry :: queue)
                    end)).
  apply throws_bind; [apply throws_expectProvider|]. intros p.
  apply throws_bind; [apply throws_remote|]. intros objects.
  apply throws_bind.
  - intros st e. destruct (invalidObjects _) as [e'|ids] eqn:Hinv; [|done].
    cbn. intros [= <-]. by rewrite (invalidObjects_error _ _ Hinv).
  - intros [|id invalid]; [|by apply throws_throw].
    apply throws_forEach. intros e. apply throws_resolveObject.
Qed.

Lemma throws_selectGasPayment : P NoValidGasCoins -> throws P (selectGasPayment provider).
Proof.
  intros Hnogas. unfold selectGasPayment.
  apply throws_bind; [by apply throws_never; eexists|]. intros td.
  destruct (payment (gasConfig td)); [apply throws_ret|].
  apply throws_bind; [apply throws_expectProvider|]. intros p.
  apply throws_bind; [apply throws_remote|]. intros coins.
  apply throws_bind; [by apply throws_never; eexists|]. intros ins.
  apply throws_bind; [by apply throws_never; eexists|]. intros _.
  destruct (coin_ref <$> _); [by apply throws_throw|apply throws_ret].
Qed.

Lemma throws_checkAndPrice :
  P MissingSender -> P MissingGasBudget -> throws P (checkAndPrice provider).
Proof.
  intros Hsender Hbudget. unfold checkAndPrice.
  apply throws_bind; [by apply throws_never; eexists|]. intros td.
  destruct (falsy (sender td)); [by apply throws_throw|].
  destruct (falsy (budget (gasConfig td))); [by apply throws_throw|].
  destruct (falsy (price (gasConfig td))); [|apply throws_ret].
  apply throws_bind; [apply throws_expectProvider|]. intros p.
  apply throws_bind; [apply throws_remote|]. intros fetched.
  by apply throws_never; eexists.
Qed.

End Throws.

Lemma String_nonempty (n : N) : String_ n ≠ EmptyString.
Proof.
  unfold String_. pose proof (to_uint_nonnil n) as Hn.
  destruct (N.to_uint n); [congruence|..]; discriminate.
Qed.

Lemma String_Z_nonempty (z : Z) : String_Z z ≠ EmptyString.
Proof. unfold String_Z. destruct (z <? 0)%Z; [discriminate|apply String_nonempty]. Qed.

Lemma falsy_String (n : N) : falsy (Some (String_ n)) = false.
Proof.
  cbn. destruct (String.eqb_spec (String_ n) EmptyString) as [Heq|]; [|done].
  by apply String_nonempty in Heq.
Qed.

Lemma falsy_String_Z (z : Z) : falsy (Some (String_Z z)) = false.
Proof.
  cbn. destruct (String.eqb_spec (String_Z z) EmptyString) as [Heq|]; [|done].
  by apply String_Z_nonempty in Heq.
Qed.

Section Runs.
Context `{Imports}.
Variable provider : option Provider.

(** A run that gets through has got through each of the five steps. *)
Lemma prepare_inv_steps (st st' : State) :
  prepare provider st = (inr tt, st') ->
  ∃ st1 st2 st3 st4,
    checkAndPrice provider st = (inr tt, st1) ∧
    classify st1 = (inr tt, st2) ∧
    resolveMoveCalls provider st2 = (inr tt, st3) ∧
    resolveObjects provider st3 = (inr tt, st4) ∧
    selectGasPayment provider st4 = (inr tt, st').
Proof.
  unfold prepare. intros Hrun.
  apply bind_inv in Hrun as [(e & _ & He)|([] & st1 & H1 & Hrun)]; [done|].
  apply bind_inv in Hrun as [(e & _ & He)|([] & st2 & H2 & Hrun)]; [done|].
  apply bind_inv in Hrun as [(e & _ & He)|([] & st3 & H3 & Hrun)]; [done|].
  apply bind_inv in Hrun as [(e & _ & He)|([] & st4 & H4 & Hrun)]; [done|].
  by exists st1, st2, st3, st4.
Qed.

Lemma checkAndPrice_inv (st st1 : State) :
  checkAndPrice provider st = (inr tt, st1) ->
  falsy (sender (data st)) = false ∧
  falsy (budget (gasConfig (data st))) = false ∧
  sender (data st1) = sender (data st) ∧
  budget (gasConfig (data st1)) = budget (gasConfig (data st)) ∧
  payment (gasConfig (data st1)) = payment (gasConfig (data st)) ∧
  inputs (data st1) = inputs (data st) ∧
  falsy (price (gasConfig (data st1))) = false ∧
  (falsy (price (gasConfig (data st))) = false -> st1 = st) ∧
  (provider = None -> falsy (price (gasConfig (data st))) = false).
Proof.
  unfold checkAndPrice, bind, get_data. cbn.
  destruct (falsy (sender (data st))) eqn:Hsender; [done|].
  destruct (falsy (budget (gasConfig (data st)))) eqn:Hbudget; [done|].
  destruct (falsy (price (gasConfig (data st)))) eqn:Hprice.
  - destruct provider as [p|]; cbn; [|done].
    unfold remote, bind. cbn.
    destruct (getReferenceGasPrice p) as [msg|fetched]; cbn; [done|].
    intros [= <-]. cbn.
    pose proof (falsy_String fetched) as Hfetched. cbn in Hfetched. rewrite Hfetched.
    by repeat split.
  - intros [= <-]. rewrite Hprice. by repeat split.
Qed.

Lemma selectGasPayment_inv (st st' : State) :
  selectGasPayment provider st = (inr tt, st') ->
  is_Some (payment (gasConfig (data st'))) ∧
  sender (data st') = sender (data st) ∧
  budget (gasConfig (data st')) = budget (gasConfig (data st)) ∧
  price (gasConfig (data st')) = price (gasConfig (data st)) ∧
  inputs (data st') = inputs (data st) ∧
  (is_Some (payment (gasConfig (data st))) -> st' = st) ∧
  (provider = None -> is_Some (payment (gasConfig (data st)))).
Proof.
  unfold selectGasPayment, bind, get_data. cbn.
  destruct (payment (gasConfig (data st))) as [refs|] eqn:Hpayment.
  - intros [= <-]. rewrite Hpayment. by repeat split.
  - destruct provider as [p|]; cbn; [|done].
    unfold remote, bind. cbn.
    destruct (getCoins p _ _) as [msg|coins]; cbn; [done|].
    destruct (coin_ref <$> _) as [|ref refs]; [done|].
    intros [= <-]. cbn. repeat split; try done; try by intros [? ?].
Qed.

(** X6: after a run of [#prepare] that gets through, sender, budget and
    price are set and not empty and a payment is set; sender and budget are
    the ones given, and so are the price and the payment if they were set
    before. *)
Theorem X6_gas_is_configured (td : TransactionData) (st' : State) :
  run_prepare provider td = (inr tt, st') ->
  falsy (sender (data st')) = false ∧
  falsy (budget (gasConfig (data st'))) = false ∧
  falsy (price (gasConfig (data st'))) = false ∧
  is_Some (payment (gasConfig (data st'))) ∧
  sender (data st') = sender td ∧
  budget (gasConfig (data st')) = budget (gasConfig td) ∧
  (falsy (price (gasConfig td)) = false ->
   price (gasConfig (data st')) = price (gasConfig td)) ∧
  (is_Some (payment (gasConfig td)) ->
   payment (gasConfig (data st')) = payment (gasConfig td)).
Proof.
  intros Hrun. unfold run_prepare in Hrun.
  apply prepare_inv_steps in Hrun as (st1 & st2 & st3 & st4 & H1 & H2 & H3 & H4 & H5).
  apply checkAndPrice_inv in H1
    as (Hsender & Hbudget & Hs1 & Hb1 & Hp1 & _ & Hprice1 & Hkeep1 & _).
  pose proof (frame_classify st1) as F2. rewrite H2 in F2.
  pose proof (frame_resolveMoveCalls provider st2) as F3. rewrite H3 in F3.
  pose proof (frame_resolveObjects provider st3) as F4. rewrite H4 in F4.
  destruct (frame_trans _ _ _ (frame_trans _ _ _ F2 F3) F4) as (Hs4 & Hg4 & _ & _).
  cbn in Hs4, Hg4, Hsender, Hbudget, Hs1, Hb1, Hp1.
  apply selectGasPayment_inv in H5 as (Hpaid & Hs5 & Hb5 & Hpr5 & _ & Hkeep5 & _).
  rewrite Hs5, Hb5, Hpr5, Hs4, Hg4, Hs1, Hb1.
  split; [done|]. split; [done|]. split; [done|]. split; [done|].
  split; [done|]. split; [done|]. split.
  - intros Hprice. by rewrite (Hkeep1 Hprice).
  - intros Hpayment. rewrite Hkeep5; rewrite Hg4, Hp1; done.
Qed.

End Runs.

Lemma X6_gas_is_configured_witness :
  is_Some (payment (gasConfig (data (snd (run_prepare (Some Demo.service)
    (Demo.tx [Demo.raw_pure 0 (JNumber 1)] [])))))).
Proof.
  refine (proj1 (proj2 (proj2 (proj2
            (X6_gas_is_configured (Some Demo.service)
               (Demo.tx [Demo.raw_pure 0 (JNumber 1)] [])
               (snd (run_prepare (Some Demo.service)
                       (Demo.tx [Demo.raw_pure 0 (JNumber 1)] []))) _))))).
  reflexivity.
Defined.

(** ** With and without a provider *)

Section NoProvider.
Context `{Imports}.

Lemma silent_checkAndPrice st : snd (checkAndPrice None st) = st.
Proof.
  unfold checkAndPrice, bind, get_data. cbn.
  destruct (falsy (sender (data st))); [done|].
  destruct (falsy (budget (gasConfig (data st)))); [done|].
  by destruct (falsy (price (gasConfig (data st)))).
Qed.

Lemma silent_resolveMoveCalls : keeps (logs (fun _ => False)) (resolveMoveCalls None).
Proof.
  intros st. unfold resolveMoveCalls.
  destruct (moveModulesToResolve st) as [|call queue]; [apply logs_refl|].
  apply keeps_bind; [apply logs_trans| |].
  - apply keeps_mapM; [apply logs_refl|apply logs_trans|].
    intros c st'. apply logs_refl.
  - intros outcomes. apply keeps_forEach; [apply logs_refl|apply logs_trans|].
    intros [c outcome].
    apply keeps_bind; [apply logs_trans|apply keeps_lift, logs_refl|].
    intros parameters.
    apply keeps_resolveMoveCall;
      [apply logs_refl|apply logs_trans|intros; apply logs_modify_data
      |apply logs_push_object].
Qed.

Lemma silent_resolveObjects st : snd (resolveObjects None st) = st.
Proof. unfold resolveObjects. by destruct (objectsToResolve st). Qed.

Lemma silent_selectGasPayment st : snd (selectGasPayment None st) = st.
Proof.
  unfold selectGasPayment, bind, get_data. cbn.
  by destruct (payment (gasConfig (data st))).
Qed.

Lemma silent_prepare : keeps (logs (fun _ => False)) (prepare None).
Proof.
  unfold prepare.
  apply keeps_bind; [apply logs_trans| |]; [|intros _].
  { intros st. rewrite silent_checkAndPrice. apply logs_refl. }
  apply keeps_bind; [apply logs_trans|apply logs_classify|]; intros _.
  apply keeps_bind; [apply logs_trans|apply silent_resolveMoveCalls|]; intros _.
  apply keeps_bind; [apply logs_trans| |]; [|intros _].
  { intros st. rewrite silent_resolveObjects. apply logs_refl. }
  intros st. rewrite silent_selectGasPayment. apply logs_refl.
Qed.

(** X7: with a provider [#prepare] throws no ['No provider'] and never
    the error of the proxy; without one it makes no remote call at all, and
    if it then gets through, price and payment were set beforehand and
    every data but the values of the inputs is as given. *)
Theorem X7_provider_needed (td : TransactionData) :
  (∀ p e, fst (run_prepare (Some p) td) = inl e ->
          e ≠ NoProvider ∧ e ≠ ProxySetNotSupported) ∧
  calls (snd (run_prepare None td)) = [] ∧
  (∀ st', run_prepare None td = (inr tt, st') ->
          falsy (price (gasConfig td)) = false ∧
          is_Some (payment (gasConfig td)) ∧
          sender (data st') = sender td ∧
          gasConfig (data st') = gasConfig td ∧
          commands (data st') = commands td).
Proof.
  split; [|split].
  - intros p e He.
    assert (Hthrows : throws (prepare_error (Some p)) (prepare (Some p))).
    { unfold prepare.
      apply throws_bind; [by apply throws_checkAndPrice|]; intros _.
      apply throws_bind; [by apply throws_classify|]; intros _.
      apply throws_bind; [by apply throws_resolveMoveCalls|]; intros _.
      apply throws_bind; [by apply throws_resolveObjects|]; intros _.
      by apply throws_selectGasPayment. }
    pose proof (Hthrows _ _ He) as Herr. by destruct e.
  - destruct (silent_prepare (initial td)) as (extra & Hcalls & Hextra).
    unfold run_prepare. rewrite Hcalls. cbn.
    destruct extra as [|c extra]; [done|]. by apply Forall_cons in Hextra as [[] _].
  - intros st' Hrun. unfold run_prepare in Hrun.
    apply prepare_inv_steps in Hrun as (st1 & st2 & st3 & st4 & H1 & H2 & H3 & H4 & H5).
    apply checkAndPrice_inv in H1 as (_ & _ & _ & _ & _ & _ & _ & Hkeep1 & Hprice).
    specialize (Hprice eq_refl). cbn in Hprice. rewrite (Hkeep1 Hprice) in *.
    pose proof (frame_classify (initial td)) as F2. rewrite H2 in F2.
    pose proof (frame_resolveMoveCalls None st2) as F3. rewrite H3 in F3.
    pose proof (frame_resolveObjects None st3) as F4. rewrite H4 in F4.
    destruct (frame_trans _ _ _ (frame_trans _ _ _ F2 F3) F4) as (Hs4 & Hg4 & Hc4 & _).
    cbn in Hs4, Hg4, Hc4.
    apply selectGasPayment_inv in H5 as (_ & _ & _ & _ & _ & Hkeep5 & Hpaid).
    specialize (Hpaid eq_refl). rewrite (Hkeep5 Hpaid).
    rewrite Hg4 in Hpaid. by repeat split.
Qed.

End NoProvider.

Lemma X7_provider_needed_witness :
  run_prepare None
    (mkTransactionData (Some "0x5") (Demo.gas (Some [mkObjectRef "0xc1" 1 "d1"]))
                       [Demo.raw_pure 0 (JString "0x7")]
                       [Command "TransferObjects" [("address", FArg (Input 0))]]) =
  (inr tt,
   initial (mkTransactionData (Some "0x5") (Demo.gas (Some [mkObjectRef "0xc1" 1 "d1"]))
              [mkInput 0 (Resolved (Pure [48; 120; 55]%Z)) (Some TyPure)]
              [Command "TransferObjects" [("address", FArg (Input 0))]])) ∧
  gasConfig (data (snd (run_prepare None
    (mkTransactionData (Some "0x5") (Demo.gas (Some [mkObjectRef "0xc1" 1 "d1"]))
                       [Demo.raw_pure 0 (JString "0x7")]
                       [Command "TransferObjects" [("address", FArg (Input 0))]])))) =
  Demo.gas (Some [mkObjectRef "0xc1" 1 "d1"]).
Proof.
  split; [reflexivity|].
  destruct (X7_provider_needed
              (mkTransactionData (Some "0x5") (Demo.gas (Some [mkObjectRef "0xc1" 1 "d1"]))
                 [Demo.raw_pure 0 (JString "0x7")]
                 [Command "TransferObjects" [("address", FArg (Input 0))]]))
    as (_ & _ & Hoffline).
  destruct (Hoffline _ eq_refl) as (_ & _ & _ & Hgas & _). exact Hgas.
Defined.

(** ** Setters, and a payment left behind *)

Section Setters.
Context `{Imports}.
Variable provider : option Provider.

Lemma prepare_priced (td : TransactionData) :
  falsy (price (gasConfig td)) = false ->
  (CallGetReferenceGasPrice ∉ calls (snd (run_prepare provider td))) ∧
  price (gasConfig (data (snd (run_prepare provider td)))) = price (gasConfig td).
Proof.
  intros Hprice. unfold run_prepare. rewrite prepare_steps. unfold bind.
  assert (Hfirst : checkAndPrice provider (initial td) = (inr tt, initial td) ∨
                   ∃ e, checkAndPrice provider (initial td) = (inl e, initial td)).
  { unfold checkAndPrice, bind, get_data. cbn. rewrite Hprice.
    destruct (falsy (sender td)); [right; by eexists|].
    destruct (falsy (budget (gasConfig td))); [right; by eexists|]. by left. }
  destruct Hfirst as [->|[e ->]]; cbn [fst snd]; [|split; [apply not_elem_of_nil|done]].
  split.
  - destruct (later_logs provider (fun c => c ≠ CallGetReferenceGasPrice)
                ltac:(done) ltac:(done) ltac:(done) (initial td))
      as (extra & Hcalls & Hextra).
    rewrite Hcalls. cbn. rewrite Forall_forall in Hextra.
    intros Hin. by apply (Hextra _ Hin).
  - apply (later_same_price provider (initial td)).
Qed.

(** X8: a budget or a price given through its setter counts as set
    whatever the number, [0] included; after [setGasPrice] no run asks for
    the reference gas price and the price given is the price at the end;
    [setSender] with the empty string leaves the sender missing. *)
Theorem X8_setters (td : TransactionData) (z : Z) :
  falsy (budget (gasConfig (setGasBudget z td))) = false ∧
  falsy (price (gasConfig (setGasPrice z td))) = false ∧
  (CallGetReferenceGasPrice ∉ calls (snd (run_prepare provider (setGasPrice z td)))) ∧
  price (gasConfig (data (snd (run_prepare provider (setGasPrice z td))))) =
    Some (String_Z z) ∧
  run_prepare provider (setSender EmptyString td) =
    (inl MissingSender, initial (setSender EmptyString td)) ∧
  (∀ refs, payment (gasConfig (data (snd (run_prepare provider (setGasPayment refs td))))) =
           Some refs).
Proof.
  split; [apply falsy_String_Z|]. split; [apply falsy_String_Z|].
  destruct (prepare_priced (setGasPrice z td) (falsy_String_Z z)) as [Hcalls Hprice].
  split; [done|]. split; [done|]. split; [done|].
  intros refs.
  destruct (paid_quietly_prepare provider (initial (setGasPayment refs td))
              ltac:(by eexists)) as [Hpayment _].
  unfold run_prepare. by rewrite Hpayment.
Qed.

(** Failing for want of gas coins is failing in step 5, with steps 1 to 4
    passed. *)
Lemma prepare_no_coins_inv (st st' : State) :
  prepare provider st = (inl NoValidGasCoins, st') ->
  ∃ st4, same_payer st st4 ∧
         selectGasPayment provider st4 = (inl NoValidGasCoins, st').
Proof.
  unfold prepare. intros Hrun.
  assert (Hno : ∀ (m : M unit) s s', throws (fun e => e ≠ NoValidGasCoins) m ->
                                     m s ≠ (inl NoValidGasCoins, s')).
  { intros m s s' Hm Heq. apply (Hm s NoValidGasCoins); [by rewrite Heq|done]. }
  apply bind_inv in Hrun as [(e & H1 & [= <-])|([] & st1 & H1 & Hrun)].
  { exfalso. revert H1. by apply Hno, throws_checkAndPrice. }
  apply bind_inv in Hrun as [(e & H2 & [= <-])|([] & st2 & H2 & Hrun)].
  { exfalso. revert H2. by apply Hno, throws_classify. }
  apply bind_inv in Hrun as [(e & H3 & [= <-])|([] & st3 & H3 & Hrun)].
  { exfalso. revert H3. by apply Hno, (throws_resolveMoveCalls provider). }
  apply bind_inv in Hrun as [(e & H4 & [= <-])|([] & st4 & H4 & Hrun)].
  { exfalso. revert H4. by apply Hno, (throws_resolveObjects provider). }
  exists st4. split; [|done].
  pose proof (same_payer_checkAndPrice provider st) as R1. rewrite H1 in R1.
  pose proof (frame_same_payer _ _ (frame_classify st1)) as R2. rewrite H2 in R2.
  pose proof (frame_same_payer _ _ (frame_resolveMoveCalls provider st2)) as R3.
  rewrite H3 in R3.
  pose proof (frame_same_payer _ _ (frame_resolveObjects provider st3)) as R4.
  rewrite H4 in R4. cbn in *.
  eauto using same_payer_trans.
Qed.

End Setters.

(** X9: when [#prepare] throws ['No valid gas coins found'], the empty
    list it has just computed is left in place as the payment; run again on
    that data, with any provider, [#prepare] asks for no coins and does not
    throw this error any more. *)
Theorem X9_empty_payment_sticks `{Imports} (provider provider' : option Provider)
        (td : TransactionData) :
  fst (run_prepare provider td) = inl NoValidGasCoins ->
  let td1 := data (snd (run_prepare provider td)) in
  payment (gasConfig td) = None ∧
  payment (gasConfig td1) = Some [] ∧
  fst (run_prepare provider' td1) ≠ inl NoValidGasCoins ∧
  ∀ owner coinType, CallGetCoins owner coinType ∉ calls (snd (run_prepare provider' td1)).
Proof.
  intros Hfail td1.
  assert (Hleft : payment (gasConfig td) = None ∧ payment (gasConfig td1) = Some []).
  { unfold td1, run_prepare in *.
    destruct (prepare provider (initial td)) as [r st'] eqn:Hrun. cbn in Hfail. subst r.
    apply prepare_no_coins_inv in Hrun as (st4 & [_ Hpayment] & Hlast). cbn in Hpayment.
    unfold selectGasPayment, bind, get_data in Hlast. cbn in Hlast.
    destruct (payment (gasConfig (data st4))) as [refs|] eqn:Hpay4; [done|].
    split; [done|].
    destruct provider as [p|]; cbn in Hlast; [|done].
    unfold remote, bind in Hlast. cbn in Hlast.
    destruct (getCoins p _ _) as [msg|coins]; cbn in Hlast; [done|].
    destruct (coin_ref <$> _) as [|ref refs] eqn:Hselected; [|done].
    injection Hlast as <-. done. }
  destruct Hleft as [Hunset Hempty]. split; [done|]. split; [done|].
  assert (Hpaid : is_Some (payment (gasConfig (data (initial td1)))))
    by (cbn; rewrite Hempty; by eexists).
  destruct (paid_quietly_prepare provider' (initial td1) Hpaid)
    as (Hpayment & extra & Hcalls & Hextra).
  split.
  - intros Hagain. unfold run_prepare in Hagain.
    destruct (prepare provider' (initial td1)) as [r st''] eqn:Hrun. cbn in Hagain. subst r.
    apply prepare_no_coins_inv in Hrun as (st4 & [_ Hpay4] & Hlast). cbn in Hpay4.
    unfold selectGasPayment, bind, get_data in Hlast. cbn in Hlast.
    rewrite Hpay4, Hempty in Hlast. done.
  - intros owner coinType Hin. unfold run_prepare in Hin. rewrite Hcalls in Hin.
    cbn in Hin. rewrite Forall_forall in Hextra. by apply (Hextra _ Hin owner coinType).
Qed.

Lemma X9_empty_payment_sticks_witness :
  let td := Demo.tx [mkInput 0 (Inputs_ObjectRef (mkObjectRef "0xc1" 1 "d1")) (Some TyObject);
                     mkInput 1 (Inputs_ObjectRef (mkObjectRef "0xc2" 2 "d2")) (Some TyObject)]
                    [] in
  fst (run_prepare (Some Demo.service) td) = inl NoValidGasCoins ∧
  fst (run_prepare (Some Demo.service)
         (data (snd (run_prepare (Some Demo.service) td)))) ≠ inl NoValidGasCoins.
Proof.
  cbv zeta. split; [reflexivity|].
  refine (proj1 (proj2 (proj2
            (X9_empty_payment_sticks (Some Demo.service) (Some Demo.service) _ _)))).
  reflexivity.
Defined.

(** ** What [#prepare] leaves alone *)

Lemma same_shape_refl st : same_shape st st.
Proof. by repeat split. Qed.

Lemma same_shape_trans a b c : same_shape a b -> same_shape b c -> same_shape a c.
Proof.
  intros (S1 & B1 & C1 & I1 & T1) (S2 & B2 & C2 & I2 & T2).
  repeat split; congruence.
Qed.

Lemma fmap_alter_set_value {B} (f : TransactionInput -> B) v ref
      (ins : list TransactionInput) :
  (∀ input, f (set_value v input) = f input) ->
  f <$> alter (set_value v) ref ins = f <$> ins.
Proof.
  intros Hf. apply list_eq. intros k. rewrite !list_lookup_fmap.
  destruct (decide (ref = k)) as [->|Hne].
  - rewrite list_lookup_alter_eq. destruct (ins !! k); cbn; [|done]. by rewrite Hf.
  - by rewrite list_lookup_alter_ne.
Qed.

Lemma same_shape_set_input_value ref v : keeps same_shape (set_input_value ref v).
Proof.
  intros st. repeat split; cbn; by apply fmap_alter_set_value.
Qed.

Section Shape.
Context `{Imports}.
Variable provider : option Provider.

Lemma same_shape_prepare : keeps same_shape (prepare provider).
Proof.
  unfold prepare.
  apply keeps_bind; [apply same_shape_trans| |]; [|intros _].
  { apply (keeps_checkAndPrice provider same_shape (fun _ => True));
      [apply same_shape_refl|apply same_shape_trans| | |done];
      intros; intros st; by repeat split. }
  apply keeps_bind; [apply same_shape_trans| |]; [|intros _].
  { apply keeps_classify;
      [apply same_shape_refl|apply same_shape_trans|apply same_shape_set_input_value| |];
      intros; intros st; by repeat split. }
  apply keeps_bind; [apply same_shape_trans| |]; [|intros _].
  { apply (keeps_resolveMoveCalls provider same_shape (fun _ => True));
      [apply same_shape_refl|apply same_shape_trans|apply same_shape_set_input_value
      | | |done];
      intros; intros st; by repeat split. }
  apply keeps_bind; [apply same_shape_trans| |]; [|intros _].
  { apply (keeps_resolveObjects provider same_shape (fun _ => True));
      [apply same_shape_refl|apply same_shape_trans|apply same_shape_set_input_value
      | |done];
      intros; intros st; by repeat split. }
  apply (keeps_selectGasPayment provider same_shape (fun _ => True));
    [apply same_shape_refl|apply same_shape_trans| | |done];
    intros; intros st; by repeat split.
Qed.

(** X10: however a run of [#prepare] ends, it has changed nothing but the
    values of inputs, the gas price and the gas payment: sender, budget and
    commands are as given, and there are as many inputs as before, each with
    the index and the type it had. *)
Theorem X10_only_values_change (td : TransactionData) :
  let td' := data (snd (run_prepare provider td)) in
  sender td' = sender td ∧
  budget (gasConfig td') = budget (gasConfig td) ∧
  commands td' = commands td ∧
  length (inputs td') = length (inputs td) ∧
  ∀ pos input,
    inputs td !! pos = Some input ->
    ∃ input', inputs td' !! pos = Some input' ∧
              in_index input' = in_index input ∧ in_type input' = in_type input.
Proof.
  destruct (same_shape_prepare (initial td)) as (Hsender & Hbudget & Hcommands & Hindex & Htype).
  cbv zeta. fold (run_prepare provider td) in *. cbn in Hsender, Hbudget, Hcommands, Hindex, Htype.
  split; [done|]. split; [done|]. split; [done|]. split.
  - by rewrite <- (length_fmap in_index), Hindex, length_fmap.
  - intros pos input Hpos.
    assert (Hi : (in_index <$> inputs td) !! pos = Some (in_index input))
      by (by rewrite list_lookup_fmap, Hpos).
    assert (Ht : (in_type <$> inputs td) !! pos = Some (in_type input))
      by (by rewrite list_lookup_fmap, Hpos).
    rewrite <- Hindex, list_lookup_fmap in Hi. rewrite <- Htype, list_lookup_fmap in Ht.
    destruct (inputs (data (snd (run_prepare provider td))) !! pos) as [input'|];
      [|done].
    exists input'. cbn in Hi, Ht. split; [done|]. split; congruence.
Qed.

End Shape.

(** ** A transaction whose inputs are all resolved *)

Lemma inert_ret {A} (a : A) : inert (ret a).
Proof. by intros st _. Qed.

Lemma inert_throw {A} e : e = MissingInput ∨ e = TypeError -> inert (throw (A:=A) e).
Proof. intros He st _. split; [done|]. by intros e' [= <-]. Qed.

Lemma inert_bind {A B} (m : M A) (k : A -> M B) :
  inert m -> (∀ a, inert (k a)) -> inert (bind m k).
Proof.
  intros Hm Hk st Hst. unfold bind. destruct (Hm st Hst) as [Hsame Herr].
  destruct (m st) as [[e|a] st']; cbn in *; subst st'.
  - split; [done|]. intros e' [= <-]. by apply Herr.
  - by apply Hk.
Qed.

Lemma inert_forEachFrom {A} (f : nat -> A -> M unit) (l : list A) (i : nat) :
  (∀ j x, inert (f j x)) -> inert (forEachFrom i f l).
Proof.
  intros Hf. revert i. induction l as [|x l IH]; intros i; cbn.
  - apply inert_ret.
  - apply inert_bind; [apply Hf|]. intros _. apply IH.
Qed.

Lemma needsResolution_resolved ins args :
  Forall (fun input => is_BuilderCallArg (in_value input) = true) ins ->
  needsResolution ins args = inr false ∨ needsResolution ins args = inl TypeError.
Proof.
  intros Hall. induction args as [|[index| | |] args IH]; cbn; try done; [by left|].
  destruct (ins !! index) as [input|] eqn:Hinput; [|by right].
  rewrite Forall_lookup in Hall. by rewrite (Hall index input Hinput).
Qed.

Section AllResolved.
Context `{Imports}.
Variable provider : option Provider.

Lemma inert_encodeInput wellKnown index : inert (encodeInput wellKnown index).
Proof.
  intros st Hst. unfold encodeInput, bind, get_inputs. cbn.
  destruct (inputs (data st) !! index) as [input|] eqn:Hinput.
  - unfold all_resolved in Hst. rewrite Forall_lookup in Hst.
    by rewrite (Hst index input Hinput).
  - split; [done|]. intros e [= <-]. by left.
Qed.

Lemma inert_classify : inert classify.
Proof.
  intros st0 Hst0. unfold classify, bind, get_data. cbn.
  refine (inert_forEachFrom _ (commands (data st0)) 0 _ st0 Hst0).
  clear st0 Hst0. intros _ [call|kind fields]; cbn.
  - intros st Hst. unfold bind, get_inputs. cbn.
    destruct (needsResolution_resolved (inputs (data st)) (arguments call) Hst) as [->| ->];
      cbn; [done|]. split; [done|]. intros e [= <-]. by right.
  - destruct (getTransactionCommandType _) as [schema|]; [|apply inert_ret].
    apply inert_forEachFrom. intros _ [key value]. unfold encodeField.
    destruct (String.eqb key "kind"); [apply inert_ret|].
    destruct (wellKnownEncoding (schema key)) as [wellKnown|]; [|apply inert_ret].
    destruct (isArray (schema key)).
    + destruct value as [a|items|v]; try (apply inert_throw; by right).
      apply inert_forEachFrom. intros _ [index| | |]; try apply inert_ret.
      apply inert_encodeInput.
    + destruct value as [[index| | |]|items|v]; try apply inert_ret.
      apply inert_encodeInput.
Qed.

Local Abbreviation gas_call :=
  (fun c => c = CallGetReferenceGasPrice ∨ ∃ owner coinType, c = CallGetCoins owner coinType).

Lemma nothing_to_resolve_trans a b c :
  nothing_to_resolve a b -> nothing_to_resolve b c -> nothing_to_resolve a c.
Proof.
  intros Hab Hbc Hall Hm Ho.
  destruct (Hab Hall Hm Ho) as [(Hi & Hm' & Ho') Hlog].
  destruct Hbc as [(Hi2 & Hm2 & Ho2) Hlog2].
  - unfold all_resolved. by rewrite Hi.
  - congruence.
  - congruence.
  - split; [repeat split; congruence|by eapply logs_trans].
Qed.

Lemma gas_steps_keep (m : M unit) :
  keeps (fun st st' => same_inputs st st' ∧ logs gas_call st st') m ->
  keeps nothing_to_resolve m.
Proof. intros Hm st _ _ _. apply Hm. Qed.

Lemma nothing_to_resolve_prepare : keeps nothing_to_resolve (prepare provider).
Proof.
  assert (Hrefl : ∀ st, same_inputs st st ∧ logs gas_call st st)
    by (intros st; split; [done|apply logs_refl]).
  assert (Htrans : ∀ a b c, same_inputs a b ∧ logs gas_call a b ->
                            same_inputs b c ∧ logs gas_call b c ->
                            same_inputs a c ∧ logs gas_call a c).
  { intros a b c [(I1 & M1 & O1) L1] [(I2 & M2 & O2) L2].
    split; [repeat split; congruence|by eapply logs_trans]. }
  assert (Hsend : ∀ c, gas_call c ->
                       keeps (fun st st' => same_inputs st st' ∧ logs gas_call st st')
                             (send c)).
  { intros c Hc st. split; [done|by apply logs_send]. }
  unfold prepare.
  apply keeps_bind; [apply nothing_to_resolve_trans| |]; [|intros _].
  { apply gas_steps_keep.
    apply (keeps_checkAndPrice provider _ gas_call Hrefl Htrans Hsend); [|by left].
    intros p st. split; [done|apply logs_modify_data]. }
  apply keeps_bind; [apply nothing_to_resolve_trans| |]; [|intros _].
  { intros st Hall _ _. destruct (inert_classify st Hall) as [-> _].
    split; [done|apply logs_refl]. }
  apply keeps_bind; [apply nothing_to_resolve_trans| |]; [|intros _].
  { intros st _ Hm _. unfold resolveMoveCalls. rewrite Hm.
    split; [done|apply logs_refl]. }
  apply keeps_bind; [apply nothing_to_resolve_trans| |]; [|intros _].
  { intros st _ _ Ho. unfold resolveObjects. rewrite Ho.
    split; [done|apply logs_refl]. }
  apply gas_steps_keep.
  apply (keeps_selectGasPayment provider _ gas_call Hrefl Htrans Hsend).
  - intros refs st. split; [done|apply logs_modify_data].
  - intros owner coinType. right. by eexists _, _.
Qed.

(** X11: when every input already holds a resolved call argument, a run
    of [#prepare] leaves the inputs as they are and calls the service at
    most for the gas price and the coins; if price and payment are set as
    well, it changes nothing and calls nothing, with or without a provider,
    and can only fail for a missing sender or budget or for an argument that
    refers to no input. *)
Theorem X11_resolved_transaction (td : TransactionData) :
  Forall (fun input => is_BuilderCallArg (in_value input) = true) (inputs td) ->
  inputs (data (snd (run_prepare provider td))) = inputs td ∧
  (∀ c, c ∈ calls (snd (run_prepare provider td)) ->
        c = CallGetReferenceGasPrice ∨ ∃ owner coinType, c = CallGetCoins owner coinType) ∧
  (falsy (price (gasConfig td)) = false -> is_Some (payment (gasConfig td)) ->
   snd (run_prepare provider td) = initial td ∧
   (fst (run_prepare provider td) = inr tt ∨
    fst (run_prepare provider td) = inl MissingSender ∨
    fst (run_prepare provider td) = inl MissingGasBudget ∨
    fst (run_prepare provider td) = inl MissingInput ∨
    fst (run_prepare provider td) = inl TypeError)).
Proof.
  intros Hall.
  destruct (nothing_to_resolve_prepare (initial td) Hall eq_refl eq_refl)
    as [(Hinputs & _ & _) (extra & Hcalls & Hextra)].
  split; [done|]. split.
  - intros c Hc. unfold run_prepare in Hc. rewrite Hcalls in Hc. cbn in Hc.
    rewrite Forall_forall in Hextra. by apply Hextra.
  - intros Hprice [refs Hpayment]. unfold run_prepare, prepare.
    assert (H1 : checkAndPrice provider (initial td) = (inr tt, initial td) ∨
                 checkAndPrice provider (initial td) = (inl MissingSender, initial td) ∨
                 checkAndPrice provider (initial td) = (inl MissingGasBudget, initial td)).
    { unfold checkAndPrice, bind, get_data. cbn. rewrite Hprice.
      destruct (falsy (sender td)); [by auto|].
      destruct (falsy (budget (gasConfig td))); by auto. }
    destruct H1 as [H1|[H1|H1]];
      [|rewrite (bind_inl _ _ _ _ _ H1); by auto..].
    rewrite (bind_inr _ _ _ _ _ H1).
    destruct (inert_classify (initial td) Hall) as [Hsame Herr].
    destruct (classify (initial td)) as [[e|[]] st1] eqn:H2; cbn in Hsame; subst st1.
    + rewrite (bind_inl _ _ _ _ _ H2). split; [done|].
      destruct (Herr e eq_refl) as [-> | ->]; by auto 6.
    + rewrite (bind_inr _ _ _ _ _ H2).
      assert (H3 : resolveMoveCalls provider (initial td) = (inr tt, initial td)) by done.
      rewrite (bind_inr _ _ _ _ _ H3).
      assert (H4 : resolveObjects provider (initial td) = (inr tt, initial td)) by done.
      rewrite (bind_inr _ _ _ _ _ H4).
      unfold selectGasPayment, bind, get_data. cbn. rewrite Hpayment. by auto.
Qed.

End AllResolved.

Lemma X11_resolved_transaction_witness :
  run_prepare None
    (mkTransactionData (Some "0x5") (Demo.gas (Some [mkObjectRef "0xc1" 1 "d1"]))
       [mkInput 0 (Inputs_SharedObjectRef "0xa" 5 false) (Some TyObject);
        mkInput 1 (Resolved (Pure [42%Z])) (Some TyPure)]
       [Demo.call "f" [Input 0; Input 1]]) =
  (inr tt,
   initial (mkTransactionData (Some "0x5") (Demo.gas (Some [mkObjectRef "0xc1" 1 "d1"]))
       [mkInput 0 (Inputs_SharedObjectRef "0xa" 5 false) (Some TyObject);
        mkInput 1 (Resolved (Pure [42%Z])) (Some TyPure)]
       [Demo.call "f" [Input 0; Input 1]])).
Proof.
  destruct (X11_resolved_transaction None
              (mkTransactionData (Some "0x5") (Demo.gas (Some [mkObjectRef "0xc1" 1 "d1"]))
                 [mkInput 0 (Inputs_SharedObjectRef "0xa" 5 false) (Some TyObject);
                  mkInput 1 (Resolved (Pure [42%Z])) (Some TyPure)]
                 [Demo.call "f" [Input 0; Input 1]]))
    as (_ & _ & Hoffline).
  { repeat constructor. }
  destruct (Hoffline eq_refl ltac:(by eexists)) as [Hstate _].
  reflexivity.
Defined.

(** ** What a run works through *)

Lemma grows_refl st : grows st st.
Proof.
  split; [done|]. split; [done|]. split; [|split; [done|split; [done|split]]].
  - intros k input input' Hk Hk'. left. congruence.
  - by left.
  - by left.
Qed.

Lemma grows_unresolved st st' k input input' :
  grows st st' ->
  inputs (data st) !! k = Some input -> inputs (data st') !! k = Some input' ->
  is_BuilderCallArg (in_value input') = false ->
  in_value input' = in_value input.
Proof.
  intros (_ & _ & Hvalue & _) Hk Hk' Hraw.
  destruct (Hvalue k input input' Hk Hk') as [Heq|Hres]; [done|congruence].
Qed.

Lemma grows_trans a b c : grows a b -> grows b c -> grows a c.
Proof.
  intros Hab Hbc.
  pose proof Hab as (C1 & L1 & V1 & M1 & O1 & Q1 & B1).
  pose proof Hbc as (C2 & L2 & V2 & M2 & O2 & Q2 & B2).
  split; [congruence|]. split; [congruence|].
  split; [|split; [by etrans|split; [by etrans|split]]].
  - intros k input input'' Hk Hk''.
    assert (Hlt : k < length (inputs (data b))).
    { rewrite L1. by eapply lookup_lt_Some. }
    destruct (lookup_lt_is_Some_2 _ _ Hlt) as [input' Hk'].
    destruct (V2 k input' input'' Hk' Hk'') as [Heq|Hres]; [|by right].
    rewrite Heq. exact (V1 k input input' Hk Hk').
  - intros entry Hentry. destruct (Q2 entry Hentry) as [Hin|(input' & Hk' & Hid)].
    + by apply Q1.
    + right.
      assert (Hlt : otr_input entry < length (inputs (data a))).
      { rewrite <- L1. by eapply lookup_lt_Some. }
      destruct (lookup_lt_is_Some_2 _ _ Hlt) as [input Hk].
      exists input. split; [done|].
      rewrite <- (grows_unresolved a b _ input input' Hab Hk Hk'); [done|].
      by destruct (in_value input') as [[]|].
  - intros ids Hids. destruct (B2 ids Hids) as [Hin|Hcovered]; [|by right].
    destruct (B1 ids Hin) as [Hin'|Hcovered]; [by left|]. right.
    intros id Hid. destruct (Hcovered id Hid) as (entry & Hentry & Hotr).
    exists entry. split; [|done]. by eapply elem_of_prefix.
Qed.

(** A step that leaves inputs, commands and queues alone and asks for no
    batch of objects. *)
Lemma grows_same st st' :
  commands (data st') = commands (data st) ->
  inputs (data st') = inputs (data st) ->
  moveModulesToResolve st' = moveModulesToResolve st ->
  objectsToResolve st' = objectsToResolve st ->
  (∀ ids, CallGetObjectBatch ids ∈ calls st' -> CallGetObjectBatch ids ∈ calls st) ->
  grows st st'.
Proof.
  intros HC HI HM HO HB.
  split; [done|]. split; [by rewrite HI|].
  split; [|split; [by rewrite HM|split; [by rewrite HO|split]]].
  - intros k input input' Hk Hk'. left. rewrite HI in Hk'. congruence.
  - intros entry Hentry. left. by rewrite <- HO.
  - intros ids Hids. left. by apply HB.
Qed.

Lemma grows_modify_gas (g : GasConfig) :
  keeps grows (modify_data (fun td => set_gasConfig g td)).
Proof. intros st. by apply grows_same. Qed.

Lemma grows_send c : (∀ ids, c ≠ CallGetObjectBatch ids) -> keeps grows (send c).
Proof.
  intros Hc st. apply grows_same; try done. cbn. intros ids Hids.
  apply elem_of_app in Hids as [Hin|Hin]; [done|].
  apply list_elem_of_singleton in Hin. by destruct (Hc ids).
Qed.

Lemma grows_send_batch st ids :
  (∀ id, id ∈ ids -> ∃ entry, entry ∈ objectsToResolve st ∧ otr_id entry = id) ->
  grows st (snd (send (CallGetObjectBatch ids) st)).
Proof.
  intros Hcovered.
  split; [done|]. split; [done|]. split; [|split; [done|split; [done|split]]].
  - intros k input input' Hk Hk'. left. cbn in Hk'. congruence.
  - by left.
  - cbn. intros ids' Hids. apply elem_of_app in Hids as [Hin|Hin]; [by left|].
    apply list_elem_of_singleton in Hin. injection Hin as ->. by right.
Qed.

Lemma grows_push_moveCall call : keeps grows (push_moveCall call).
Proof.
  intros st.
  split; [done|]. split; [done|].
  split; [|split; [by apply prefix_app_r|split; [done|split]]].
  - intros k input input' Hk Hk'. left. cbn in Hk'. congruence.
  - by left.
  - by left.
Qed.

Lemma grows_push_object st entry input :
  inputs (data st) !! otr_input entry = Some input ->
  as_string (in_value input) = Some (otr_id entry) ->
  grows st (snd (push_object entry st)).
Proof.
  intros Hinput Hid.
  split; [done|]. split; [done|].
  split; [|split; [done|split; [by apply prefix_app_r|split]]].
  - intros k i i' Hk Hk'. left. cbn in Hk'. congruence.
  - cbn. intros e He. apply elem_of_app in He as [Hin|Hin]; [by left|].
    apply list_elem_of_singleton in Hin. subst e. right. by exists input.
  - cbn. intros ids Hids. by left.
Qed.

Lemma grows_set_resolved ref c : keeps grows (set_input_value ref (Resolved c)).
Proof.
  intros st.
  split; [done|]. split; [cbn; apply length_alter|].
  split; [|split; [done|split; [done|split]]].
  - cbn. intros k input input' Hk Hk'.
    destruct (decide (ref = k)) as [->|Hne].
    + rewrite list_lookup_alter_eq, Hk in Hk'. injection Hk' as <-. by right.
    + rewrite list_lookup_alter_ne in Hk' by done. left. congruence.
  - by left.
  - by left.
Qed.

Lemma resolved_at_grows st st' index :
  resolved_at st index -> grows st st' -> resolved_at st' index.
Proof.
  intros (input & Hinput & Hres) Hgrows.
  pose proof Hgrows as (_ & Hlen & Hvalue & _).
  assert (Hlt : index < length (inputs (data st'))).
  { rewrite Hlen. by eapply lookup_lt_Some. }
  destruct (lookup_lt_is_Some_2 _ _ Hlt) as [input' Hinput'].
  exists input'. split; [done|].
  destruct (Hvalue index input input' Hinput Hinput') as [Heq|Hres']; [|done].
  by rewrite Heq.
Qed.

Lemma settled_grows st st' index :
  settled st index -> grows st st' -> settled st' index.
Proof.
  intros (input & Hinput & Hcases) Hgrows.
  destruct Hcases as [Hres|(entry & Hentry & Hotr)].
  - destruct (resolved_at_grows st st' index) as (input' & Hinput' & Hres');
      [by exists input|done|].
    exists input'. split; [done|]. by left.
  - pose proof Hgrows as (_ & Hlen & _ & _ & Hqueue & _).
    assert (Hlt : index < length (inputs (data st'))).
    { rewrite Hlen. by eapply lookup_lt_Some. }
    destruct (lookup_lt_is_Some_2 _ _ Hlt) as [input' Hinput'].
    exists input'. split; [done|]. right. exists entry.
    split; [|done]. by eapply elem_of_prefix.
Qed.

Lemma resolved_settled st index : resolved_at st index -> settled st index.
Proof. intros (input & Hinput & Hres). exists input. split; [done|]. by left. Qed.

Lemma forEachFrom_reaches {A} (Q : nat -> A -> State -> Prop)
      (f : nat -> A -> M unit) (l : list A) :
  (∀ j x, keeps grows (f j x)) ->
  (∀ j x s s', Q j x s -> grows s s' -> Q j x s') ->
  (∀ j x s s', f j x s = (inr tt, s') -> Q j x s') ->
  ∀ i st st', forEachFrom i f l st = (inr tt, st') ->
              ∀ k x, l !! k = Some x -> Q (i + k) x st'.
Proof.
  intros Hkeeps Hstable Hstep. induction l as [|y l IH]; intros i st st' Hrun k x Hk.
  - by rewrite lookup_nil in Hk.
  - cbn [forEachFrom] in Hrun.
    apply bind_inv in Hrun as [(e & _ & [=])|([] & st1 & Hfirst & Hrest)].
    destruct k as [|k].
    + injection Hk as ->. rewrite Nat.add_0_r.
      apply (Hstable i x st1); [by eapply Hstep|].
      pose proof (keeps_forEachFrom grows grows_refl grows_trans f l (S i) Hkeeps st1)
        as Hgrows.
      by rewrite Hrest in Hgrows.
    + replace (i + S k) with (S i + k) by lia. by eapply IH.
Qed.

Lemma mapM_length {A B} (f : A -> M B) (l : list A) st ys st' :
  mapM f l st = (inr ys, st') -> length ys = length l.
Proof.
  revert st ys st'. induction l as [|x l IH]; intros st ys st' Hrun; cbn in Hrun.
  - by injection Hrun as <- _.
  - apply bind_inv in Hrun as [(e & _ & [=])|(y & st1 & _ & Hrun)].
    apply bind_inv in Hrun as [(e & _ & [=])|(ys' & st2 & Hrest & Hrun)].
    injection Hrun as <- _. cbn. f_equal. by eapply IH.
Qed.

Lemma needsResolution_false ins args index :
  needsResolution ins args = inr false -> Input index ∈ args ->
  ∃ input, ins !! index = Some input ∧ is_BuilderCallArg (in_value input) = true.
Proof.
  induction args as [|arg args IH]; intros Hneeds Hin; [by apply elem_of_nil in Hin|].
  apply elem_of_cons in Hin as [<-|Hin]; cbn in Hneeds.
  - destruct (ins !! index) as [input|]; [|done].
    destruct (is_BuilderCallArg (in_value input)) eqn:Hres; [|done]. by exists input.
  - apply IH; [|done]. destruct arg as [i| | |]; try done.
    destruct (ins !! i) as [input|]; [|done].
    by destruct (is_BuilderCallArg (in_value input)).
Qed.

Section Progress.
Context `{Imports}.
Variable provider : option Provider.

(** *** Every step only moves forward *)

Lemma grows_encodeInput wellKnown index : keeps grows (encodeInput wellKnown index).
Proof.
  intros st. unfold encodeInput, bind, get_inputs. cbn.
  destruct (inputs (data st) !! index) as [input|] eqn:Hinput; [|apply grows_refl].
  destruct (is_BuilderCallArg (in_value input)); [apply grows_refl|].
  destruct wellKnown as [|ty].
  - destruct (as_string (in_value input)) as [id|] eqn:Hid; [|apply grows_refl].
    by apply (grows_push_object st (mkToResolve id index None) input).
  - destruct (Inputs_Pure ty (in_value input)) as [msg|bytes]; cbn; [apply grows_refl|].
    apply grows_set_resolved.
Qed.

Lemma grows_encodeField schema entry : keeps grows (encodeField schema entry).
Proof.
  unfold encodeField. destruct entry as [key value].
  destruct (String.eqb key "kind"); [apply keeps_ret, grows_refl|].
  destruct (wellKnownEncoding (schema key)) as [wellKnown|]; [|apply keeps_ret, grows_refl].
  destruct (isArray (schema key)).
  - destruct value as [a|items|v]; try apply keeps_throw, grows_refl.
    apply keeps_forEach; [apply grows_refl|apply grows_trans|].
    intros [index| | |]; try apply keeps_ret, grows_refl. apply grows_encodeInput.
  - destruct value as [[index| | |]|items|v]; try apply keeps_ret, grows_refl.
    apply grows_encodeInput.
Qed.

Lemma grows_classifyCommand command : keeps grows (classifyCommand command).
Proof.
  destruct command as [call|kind fields]; cbn.
  - apply keeps_bind; [apply grows_trans|apply keeps_get_inputs, grows_refl|]. intros ins.
    apply keeps_bind; [apply grows_trans|apply keeps_lift, grows_refl|].
    intros [|]; [apply grows_push_moveCall|apply keeps_ret, grows_refl].
  - destruct (getTransactionCommandType _) as [schema|]; [|apply keeps_ret, grows_refl].
    apply keeps_forEach; [apply grows_refl|apply grows_trans|].
    intros entry. apply grows_encodeField.
Qed.

Lemma grows_classify : keeps grows classify.
Proof.
  unfold classify.
  apply keeps_bind; [apply grows_trans|apply keeps_get_data, grows_refl|]. intros td.
  apply keeps_forEach; [apply grows_refl|apply grows_trans|].
  intros command. apply grows_classifyCommand.
Qed.

Lemma grows_resolveParam call i param : keeps grows (resolveParam call i param).
Proof.
  intros st. unfold resolveParam.
  destruct (arguments call !! i) as [[index| | |]|]; try apply grows_refl.
  unfold bind, get_inputs. cbn.
  destruct (inputs (data st) !! index) as [input|] eqn:Hinput; [|apply grows_refl].
  destruct (getPureSerializationType param (in_value input)) as [msg|serType]; cbn;
    [apply grows_refl|].
  destruct (truthy serType) as [ty|].
  - destruct (Inputs_Pure ty (in_value input)) as [msg|bytes]; cbn; [apply grows_refl|].
    apply grows_set_resolved.
  - destruct (_ || _); [|apply grows_refl].
    destruct (as_string (in_value input)) as [id|] eqn:Hid; [|apply grows_refl].
    by apply (grows_push_object st (mkToResolve id index (Some param)) input).
Qed.

Lemma grows_resolveMoveCall call parameters :
  keeps grows (resolveMoveCall call parameters).
Proof.
  unfold resolveMoveCall. case_bool_decide; [apply keeps_throw, grows_refl|].
  apply keeps_forEachFrom; [apply grows_refl|apply grows_trans|].
  intros j x. apply grows_resolveParam.
Qed.

Lemma grows_requestSignature call : keeps grows (requestSignature provider call).
Proof.
  unfold requestSignature. destruct provider as [p|]; [|apply keeps_ret, grows_refl].
  destruct (split_colons _ _) as [|packageId rest]; [apply keeps_ret, grows_refl|].
  apply keeps_bind; [apply grows_trans|by apply grows_send|]. intros _.
  apply keeps_ret, grows_refl.
Qed.

Lemma grows_resolveMoveCalls : keeps grows (resolveMoveCalls provider).
Proof.
  intros st. unfold resolveMoveCalls.
  destruct (moveModulesToResolve st) as [|call queue]; [apply grows_refl|].
  apply keeps_bind; [apply grows_trans| |].
  - apply keeps_mapM; [apply grows_refl|apply grows_trans|].
    intros c. apply grows_requestSignature.
  - intros outcomes. apply keeps_forEach; [apply grows_refl|apply grows_trans|].
    intros [c outcome].
    apply keeps_bind; [apply grows_trans|apply keeps_lift, grows_refl|].
    intros parameters. apply grows_resolveMoveCall.
Qed.

Lemma grows_resolveObject objectsById entry :
  keeps grows (resolveObject objectsById entry).
Proof.
  unfold resolveObject.
  destruct (map_get _ _) as [[object|]|]; try apply keeps_throw, grows_refl.
  destruct (sharedVersion object) as [initialSharedVersion|]; [|apply grows_set_resolved].
  apply keeps_bind; [apply grows_trans|apply keeps_get_inputs, grows_refl|]. intros ins.
  destruct (ins !! otr_input entry); [apply grows_set_resolved|apply keeps_throw, grows_refl].
Qed.

Lemma grows_resolveObjects : keeps grows (resolveObjects provider).
Proof.
  intros st. unfold resolveObjects.
  destruct (objectsToResolve st) as [|entry queue] eqn:Hqueue; [apply grows_refl|].
  unfold expectProvider. destruct provider as [p|]; [|apply grows_refl].
  unfold bind at 1. cbn [ret]. unfold remote.
  set (ids := dedupe (otr_id <$> entry :: queue)).
  assert (Hsent : grows st (snd (send (CallGetObjectBatch ids) st))).
  { apply grows_send_batch. intros id Hid. unfold ids in Hid.
    rewrite dedupe_elem in Hid.
    apply list_elem_of_fmap in Hid as (e & -> & He). exists e. by rewrite Hqueue. }
  unfold bind at 1. unfold bind at 1.
  destruct (send (CallGetObjectBatch ids) st) as [[e|[]] st1] eqn:Hsend; [by cbn|].
  cbn [snd] in Hsent.
  destruct (getObjectBatch p ids) as [msg|objects]; cbn [thrown lift throw ret]; [done|].
  eapply grows_trans; [exact Hsent|].
  apply keeps_bind; [apply grows_trans|apply keeps_lift, grows_refl|].
  intros [|id invalid]; [|apply keeps_throw, grows_refl].
  apply keeps_forEach; [apply grows_refl|apply grows_trans|].
  intros e. apply grows_resolveObject.
Qed.

Lemma grows_selectGasPayment : keeps grows (selectGasPayment provider).
Proof.
  apply (keeps_selectGasPayment provider grows (fun c => ∀ ids, c ≠ CallGetObjectBatch ids));
    try done.
  - apply grows_refl.
  - apply grows_trans.
  - apply grows_send.
  - intros refs st. by apply grows_same.
Qed.

Lemma grows_checkAndPrice : keeps grows (checkAndPrice provider).
Proof.
  apply (keeps_checkAndPrice provider grows (fun c => ∀ ids, c ≠ CallGetObjectBatch ids));
    try done.
  - apply grows_refl.
  - apply grows_trans.
  - apply grows_send.
  - intros p st. by apply grows_same.
Qed.

Lemma grows_prepare : keeps grows (prepare provider).
Proof.
  unfold prepare.
  apply keeps_bind; [apply grows_trans|apply grows_checkAndPrice|]. intros _.
  apply keeps_bind; [apply grows_trans|apply grows_classify|]. intros _.
  apply keeps_bind; [apply grows_trans|apply grows_resolveMoveCalls|]. intros _.
  apply keeps_bind; [apply grows_trans|apply grows_resolveObjects|]. intros _.
  apply grows_selectGasPayment.
Qed.

End Progress.

Section Reached.
Context `{Imports}.
Variable provider : option Provider.

(** *** What each step has done once it is through *)

Lemma encodeInput_settles wellKnown index st st' :
  encodeInput wellKnown index st = (inr tt, st') -> settled st' index.
Proof.
  unfold encodeInput, bind, get_inputs. cbn.
  destruct (inputs (data st) !! index) as [input|] eqn:Hinput; [|done].
  destruct (is_BuilderCallArg (in_value input)) eqn:Hres.
  - intros [= <-]. exists input. split; [done|]. by left.
  - destruct wellKnown as [|ty].
    + destruct (as_string (in_value input)) as [id|]; [|done].
      intros [= <-]. exists input. split; [done|]. right.
      exists (mkToResolve id index None). split; [|done]. cbn.
      apply elem_of_app. right. by apply list_elem_of_singleton.
    + destruct (Inputs_Pure ty (in_value input)) as [msg|bytes]; cbn; [done|].
      intros [= <-]. exists (set_value (Resolved (Pure bytes)) input). cbn.
      split; [|by left]. by rewrite list_lookup_alter_eq, Hinput.
Qed.

Lemma encodeField_settles schema entry st st' :
  encodeField schema entry st = (inr tt, st') ->
  ∀ index, field_inputs schema entry index -> settled st' index.
Proof.
  destruct entry as [key value]. unfold encodeField, field_inputs. cbn [fst snd].
  intros Hrun index (Hkey & [wellKnown Hknown] & Hvalue).
  apply String.eqb_neq in Hkey. rewrite Hkey, Hknown in Hrun.
  destruct (isArray (schema key)).
  - destruct Hvalue as (items & -> & Hin).
    apply list_elem_of_lookup in Hin as [k Hk].
    pose (Q := fun (_ : nat) (item : CommandArgument) (s : State) =>
                 ∀ i, item = Input i -> settled s i).
    refine (forEachFrom_reaches Q _ items _ _ _ 0 st st' Hrun k (Input index) Hk index eq_refl).
    + intros j [i| | |]; try apply keeps_ret, grows_refl. apply grows_encodeInput.
    + intros j item s s' HQ Hgrows i Hi. eapply settled_grows; [by apply HQ|done].
    + intros j item s s' Hstep i ->. by eapply encodeInput_settles.
  - subst value. by eapply encodeInput_settles.
Qed.

Lemma scanned_grows st st' command :
  scanned st command -> grows st st' -> scanned st' command.
Proof.
  intros Hscanned Hgrows. destruct command as [call|kind fields]; cbn in *.
  - destruct Hscanned as [Hqueued|Hres].
    + left. destruct Hgrows as (_ & _ & _ & Hprefix & _). by eapply elem_of_prefix.
    + right. intros index Hin. eapply resolved_at_grows; [by apply Hres|done].
  - intros index Hin. eapply settled_grows; [by apply Hscanned|done].
Qed.

Lemma classifyCommand_scans command st st' :
  classifyCommand command st = (inr tt, st') -> scanned st' command.
Proof.
  destruct command as [call|kind fields]; cbn.
  - unfold bind, get_inputs. cbn.
    destruct (needsResolution (inputs (data st)) (arguments call)) as [e|[|]] eqn:Hneeds;
      cbn; [done| |].
    + intros [= <-]. left. cbn. apply elem_of_app. right. by apply list_elem_of_singleton.
    + intros [= <-]. right. intros index Hin.
      by apply (needsResolution_false _ _ index) in Hneeds.
  - intros Hrun index (schema & entry & Hschema & Hin & Hfield).
    rewrite Hschema in Hrun. apply list_elem_of_lookup in Hin as [k Hk].
    pose (Q := fun (_ : nat) (entry : string * FieldValue) (s : State) =>
                 ∀ i, field_inputs schema entry i -> settled s i).
    refine (forEachFrom_reaches Q _ fields _ _ _ 0 st st' Hrun k entry Hk index Hfield).
    + intros j e. apply grows_encodeField.
    + intros j e s s' HQ Hgrows i Hi. eapply settled_grows; [by apply HQ|done].
    + intros j e s s' Hstep i Hi. by eapply encodeField_settles.
Qed.

Lemma classify_scans st st' :
  classify st = (inr tt, st') ->
  ∀ command, command ∈ commands (data st) -> scanned st' command.
Proof.
  unfold classify, bind at 1, get_data. intros Hrun command Hin.
  apply list_elem_of_lookup in Hin as [k Hk].
  pose (Q := fun (_ : nat) (c : TransactionCommand) (s : State) => scanned s c).
  refine (forEachFrom_reaches Q _ (commands (data st)) _ _ _ 0 st st' Hrun k command Hk).
  - intros j c. apply grows_classifyCommand.
  - intros j c s s'. apply scanned_grows.
  - intros j c s s'. apply classifyCommand_scans.
Qed.

Lemma resolveParam_settles call i param st st' :
  resolveParam call i param st = (inr tt, st') ->
  ∀ index, arguments call !! i = Some (Input index) -> settled st' index.
Proof.
  intros Hrun index Harg. unfold resolveParam in Hrun. rewrite Harg in Hrun.
  unfold bind, get_inputs in Hrun. cbn in Hrun.
  destruct (inputs (data st) !! index) as [input|] eqn:Hinput; [|done].
  destruct (getPureSerializationType param (in_value input)) as [msg|serType];
    cbn in Hrun; [done|].
  destruct (truthy serType) as [ty|].
  - destruct (Inputs_Pure ty (in_value input)) as [msg|bytes]; cbn in Hrun; [done|].
    injection Hrun as <-. exists (set_value (Resolved (Pure bytes)) input). cbn.
    split; [|by left]. by rewrite list_lookup_alter_eq, Hinput.
  - destruct (_ || _); [|done].
    destruct (as_string (in_value input)) as [id|]; [|done].
    injection Hrun as <-. exists input. split; [done|]. right.
    exists (mkToResolve id index (Some param)). split; [|done]. cbn.
    apply elem_of_app. right. by apply list_elem_of_singleton.
Qed.

Lemma resolveMoveCall_settles call parameters st st' :
  resolveMoveCall call parameters st = (inr tt, st') ->
  ∀ index, Input index ∈ arguments call -> settled st' index.
Proof.
  unfold resolveMoveCall. case_bool_decide as Hlen; [done|].
  intros Hrun index Hin. apply list_elem_of_lookup in Hin as [k Hk].
  assert (Hparam : is_Some (expectedParams parameters !! k)).
  { apply lookup_lt_is_Some_2.
    assert (Heq : length (expectedParams parameters) = length (arguments call))
      by (destruct (decide (length (expectedParams parameters) = length (arguments call)));
          [done|by destruct Hlen]).
    rewrite Heq. by eapply lookup_lt_Some. }
  destruct Hparam as [param Hparam].
  pose (Q := fun (j : nat) (_ : SuiMoveNormalizedType) (s : State) =>
               ∀ i, arguments call !! j = Some (Input i) -> settled s i).
  refine (forEachFrom_reaches Q _ (expectedParams parameters) _ _ _ 0 st st' Hrun
            k param Hparam index Hk).
  - intros j x. apply grows_resolveParam.
  - intros j x s s' HQ Hgrows i Hi. eapply settled_grows; [by apply HQ|done].
  - intros j x s s' Hstep i Hi. by eapply resolveParam_settles.
Qed.

Lemma resolveMoveCalls_settles st st' :
  resolveMoveCalls provider st = (inr tt, st') ->
  ∀ call index, call ∈ moveModulesToResolve st -> Input index ∈ arguments call ->
                settled st' index.
Proof.
  unfold resolveMoveCalls. intros Hrun call index Hcall Hin.
  destruct (moveModulesToResolve st) as [|c queue] eqn:Hqueue;
    [by apply elem_of_nil in Hcall|].
  apply bind_inv in Hrun as [(e & _ & [=])|(outcomes & st1 & Hsent & Hrun)].
  apply mapM_length in Hsent. apply list_elem_of_lookup in Hcall as [k Hk].
  assert (Houtcome : is_Some (outcomes !! k)).
  { apply lookup_lt_is_Some_2. rewrite Hsent. by eapply lookup_lt_Some. }
  destruct Houtcome as [outcome Houtcome].
  assert (Hpair : zip (c :: queue) outcomes !! k = Some (call, outcome)).
  { apply lookup_zip_with_Some. by exists call, outcome. }
  pose (Q := fun (_ : nat) (x : MoveCallCommand * (Error + list SuiMoveNormalizedType))
                 (s : State) =>
               ∀ i, Input i ∈ arguments (fst x) -> settled s i).
  refine (forEachFrom_reaches Q _ (zip (c :: queue) outcomes) _ _ _ 0 st1 st' Hrun
            k (call, outcome) Hpair index Hin).
  - intros j [c' o].
    apply keeps_bind; [apply grows_trans|apply keeps_lift, grows_refl|].
    intros parameters. apply grows_resolveMoveCall.
  - intros j x s s' HQ Hgrows i Hi. eapply settled_grows; [by apply HQ|done].
  - intros j [c' o] s s' Hstep i Hi. cbn in Hi.
    apply bind_inv in Hstep as [(e & _ & [=])|(parameters & s1 & Hlift & Hstep)].
    destruct o as [e|ps]; [done|]. injection Hlift as <- <-.
    by eapply resolveMoveCall_settles.
Qed.

Lemma resolveObject_resolves objectsById entry st st' :
  resolveObject objectsById entry st = (inr tt, st') ->
  otr_input entry < length (inputs (data st')) ->
  resolved_at st' (otr_input entry).
Proof.
  unfold resolveObject.
  destruct (map_get _ _) as [[object|]|]; try done.
  destruct (sharedVersion object) as [initialSharedVersion|].
  - unfold bind, get_inputs. cbn.
    destruct (inputs (data st) !! otr_input entry) as [input|] eqn:Hinput; [|done].
    intros [= <-] _. eexists. cbn. rewrite list_lookup_alter_eq, Hinput. by split.
  - intros [= <-]. cbn. rewrite length_alter. intros Hlt.
    destruct (lookup_lt_is_Some_2 _ _ Hlt) as [input Hinput].
    eexists. cbn. rewrite list_lookup_alter_eq, Hinput. by split.
Qed.

Lemma resolveObjects_resolves st st' :
  resolveObjects provider st = (inr tt, st') ->
  ∀ index, settled st index -> resolved_at st' index.
Proof.
  intros Hrun index Hsettled.
  pose proof (grows_resolveObjects provider st) as Hgrows. rewrite Hrun in Hgrows.
  cbn [snd] in Hgrows.
  destruct Hsettled as (input & Hinput & [Hres|(entry & Hentry & Hotr)]).
  { eapply resolved_at_grows; [|done]. by exists input. }
  unfold resolveObjects in Hrun.
  destruct (objectsToResolve st) as [|e queue] eqn:Hqueue;
    [by apply elem_of_nil in Hentry|].
  apply bind_inv in Hrun as [(err & _ & [=])|(p & st1 & _ & Hrun)].
  apply bind_inv in Hrun as [(err & _ & [=])|(objects & st2 & _ & Hrun)].
  apply bind_inv in Hrun as [(err & _ & [=])|(invalid & st3 & _ & Hrun)].
  destruct invalid as [|id invalid]; [|done].
  apply list_elem_of_lookup in Hentry as [k Hk].
  pose (Q := fun (_ : nat) (x : ObjectToResolve) (s : State) =>
               otr_input x < length (inputs (data s)) -> resolved_at s (otr_input x)).
  rewrite <- Hotr.
  refine (forEachFrom_reaches Q _ (e :: queue) _ _ _ 0 st3 st' Hrun k entry Hk _).
  - intros j x. apply grows_resolveObject.
  - intros j x s s' HQ Hs Hlt.
    pose proof Hs as (_ & Hlen & _). rewrite Hlen in Hlt.
    eapply resolved_at_grows; [by apply HQ|done].
  - intros j x s s' Hstep Hlt. by eapply resolveObject_resolves.
  - destruct Hgrows as (_ & Hlen & _). rewrite Hlen, Hotr. by eapply lookup_lt_Some.
Qed.

(** X12: after a run of [#prepare] that gets through, every input that a
    command refers to under a known encoding holds a resolved call
    argument: every input argument of every Move call, and in any other
    command every input in a field that its schema gives an encoding. *)
Theorem X12_prepared_inputs_are_resolved (td : TransactionData) (st' : State) :
  run_prepare provider td = (inr tt, st') ->
  ∀ command index,
    command ∈ commands td -> encoded_inputs command index -> resolved_at st' index.
Proof.
  unfold run_prepare, prepare. intros Hrun command index Hcommand Hencoded.
  apply bind_inv in Hrun as [(e & _ & [=])|([] & st1 & Hstep1 & Hrun)].
  apply bind_inv in Hrun as [(e & _ & [=])|([] & st2 & Hstep2 & Hrun)].
  apply bind_inv in Hrun as [(e & _ & [=])|([] & st3 & Hstep3 & Hrun)].
  apply bind_inv in Hrun as [(e & _ & [=])|([] & st4 & Hstep4 & Hstep5)].
  pose proof (grows_checkAndPrice provider (initial td)) as G1. rewrite Hstep1 in G1.
  pose proof (grows_resolveMoveCalls provider st2) as G3. rewrite Hstep3 in G3.
  pose proof (grows_resolveObjects provider st3) as G4. rewrite Hstep4 in G4.
  pose proof (grows_selectGasPayment provider st4) as G5. rewrite Hstep5 in G5.
  cbn [snd] in G1, G3, G4, G5.
  assert (Hscanned : scanned st2 command).
  { apply (classify_scans st1 st2 Hstep2). destruct G1 as (-> & _). done. }
  apply (resolved_at_grows st4); [|done].
  destruct command as [call|kind fields]; cbn in Hscanned, Hencoded.
  - destruct Hscanned as [Hqueued|Hres].
    + apply (resolveObjects_resolves st3 st4 Hstep4).
      by apply (resolveMoveCalls_settles st2 st3 Hstep3 call).
    + apply (resolved_at_grows st2); [by apply Hres|by eapply grows_trans].
  - apply (resolveObjects_resolves st3 st4 Hstep4).
    apply (settled_grows st2); [|done]. by apply Hscanned.
Qed.

(** X13: however a run of [#prepare] ends, each input holds the value it
    was given or a resolved call argument, and every id that the run has
    asked for in a batch of objects is the string held by one of the inputs
    given. *)
Theorem X13_values_come_from_the_inputs (td : TransactionData) :
  let st' := snd (run_prepare provider td) in
  (∀ k input', inputs (data st') !! k = Some input' ->
     ∃ input, inputs td !! k = Some input ∧
              (in_value input' = in_value input ∨
               is_BuilderCallArg (in_value input') = true)) ∧
  (∀ ids id, CallGetObjectBatch ids ∈ calls st' -> id ∈ ids ->
     ∃ input, input ∈ inputs td ∧ in_value input = Raw (JString id)).
Proof.
  cbv zeta. pose proof (grows_prepare provider (initial td)) as Hgrows.
  fold (run_prepare provider td) in Hgrows.
  destruct Hgrows as (_ & Hlen & Hvalue & _ & _ & Hqueue & Hbatch). cbn in *. split.
  - intros k input' Hk'.
    assert (Hlt : k < length (inputs td)) by (rewrite <- Hlen; by eapply lookup_lt_Some).
    destruct (lookup_lt_is_Some_2 _ _ Hlt) as [input Hk].
    exists input. split; [done|]. by eapply Hvalue.
  - intros ids id Hids Hid.
    destruct (Hbatch ids Hids) as [Hin|Hcovered]; [by apply elem_of_nil in Hin|].
    destruct (Hcovered id Hid) as (entry & Hentry & <-).
    destruct (Hqueue entry Hentry) as [Hin|(input & Hinput & Hstring)];
      [by apply elem_of_nil in Hin|].
    exists input. split; [by eapply list_elem_of_lookup_2|].
    by destruct (in_value input) as [[]|]; try done; injection Hstring as ->.
Qed.

End Reached.

Lemma X12_prepared_inputs_are_resolved_witness :
  resolved_at
    (snd (run_prepare (Some Demo.service)
            (Demo.tx [Demo.raw_object 0 "0xa"; Demo.raw_pure 1 (JNumber 42)]
                     [Demo.call "f" [Input 0; Input 1]])))
    1.
Proof.
  refine (X12_prepared_inputs_are_resolved (Some Demo.service)
            (Demo.tx [Demo.raw_object 0 "0xa"; Demo.raw_pure 1 (JNumber 42)]
                     [Demo.call "f" [Input 0; Input 1]])
            (snd (run_prepare (Some Demo.service)
                    (Demo.tx [Demo.raw_object 0 "0xa"; Demo.raw_pure 1 (JNumber 42)]
                             [Demo.call "f" [Input 0; Input 1]])))
            _ (Demo.call "f" [Input 0; Input 1]) 1 _ _).
  - reflexivity.
  - apply list_elem_of_here.
  - cbn. apply list_elem_of_further, list_elem_of_here.
Defined.

(** ** The target of a Move call *)

Lemma append_empty (s : string) : String.append s "" = s.
Proof.
  induction s as [|c s IH]; [done|].
  change (String c (String.append s "") = String c s). by rewrite IH.
Qed.

Lemma append_snoc (piece : string) (c : ascii) (r : string) :
  String.append (String.append piece (String c "")) r = String.append piece (String c r).
Proof.
  induction piece as [|d piece IH]; [done|].
  change (String d (String.append (String.append piece (String c "")) r) =
          String d (String.append piece (String c r))).
  by rewrite IH.
Qed.

Lemma split_colons_step (c : ascii) (r piece : string) :
  r ≠ "" -> Ascii.eqb c ":" = false ->
  split_colons (String c r) piece = split_colons r (String.append piece (String c "")).
Proof. intros Hr Hc. destruct r as [|c' r']; [done|]. cbn. by rewrite Hc. Qed.

Lemma split_colons_free (a piece : string) :
  colon_free a = true -> split_colons a piece = [String.append piece a].
Proof.
  revert piece. induction a as [|c r IH]; intros piece Hfree.
  - cbn [split_colons]. by rewrite append_empty.
  - cbn in Hfree. apply andb_true_iff in Hfree as [Hc Hr].
    apply negb_true_iff in Hc. destruct r as [|c' r']; [done|].
    rewrite split_colons_step by done. rewrite IH by done. by rewrite append_snoc.
Qed.

Lemma split_colons_sep (a rest piece : string) :
  colon_free a = true ->
  split_colons (String.append a (String.append "::" rest)) piece =
  String.append piece a :: split_colons rest "".
Proof.
  revert piece. induction a as [|c r IH]; intros piece Hfree.
  - change (piece :: split_colons rest "" = String.append piece "" :: split_colons rest "").
    by rewrite append_empty.
  - cbn in Hfree. apply andb_true_iff in Hfree as [Hc Hr].
    apply negb_true_iff in Hc.
    change (String.append (String c r) (String.append "::" rest))
      with (String c (String.append r (String.append "::" rest))).
    rewrite split_colons_step; [|by destruct r|done].
    rewrite IH by done. by rewrite append_snoc.
Qed.

Lemma split_colons_nonempty (s piece : string) : split_colons s piece ≠ [].
Proof.
  revert piece. induction s as [|c r IH]; intros piece; [done|].
  destruct r as [|c' r']; [done|].
  change (split_colons (String c (String c' r')) piece)
    with (if Ascii.eqb c ":" && Ascii.eqb c' ":"
          then piece :: split_colons r' EmptyString
          else split_colons (String c' r') (String.append piece (String c EmptyString))).
  destruct (_ && _); [done|apply IH].
Qed.

Section Target.
Context `{Imports}.
Variable p : Provider.

(** What [requestSignature] does for a target whose pieces are known. *)
Lemma requestSignature_pieces call st packageId rest :
  split_colons (target call) "" = packageId :: rest ->
  requestSignature (Some p) call st =
  (inr (thrown (getNormalizedMoveFunction p (normalizeSuiObjectId packageId)
                  (rest !! 0%nat) (rest !! 1%nat))),
   snd (send (CallGetNormalizedMoveFunction (normalizeSuiObjectId packageId)
                (rest !! 0%nat) (rest !! 1%nat)) st)).
Proof. intros Hsplit. unfold requestSignature. by rewrite Hsplit. Qed.

(** X14: the target of a queued Move call is cut at every [::] and never
    checked: whatever it is, one request for a signature is sent; for
    [package::module::function] with no colon inside the three names, it
    asks for that function of that module in the normalized package,
    whatever follows a further [::]; for a target without any colon it asks
    for the whole target as the package, with module and function
    undefined. *)
Theorem X14_target_parsing (call : MoveCallCommand) (st : State) :
  (∃ package module function,
      requestSignature (Some p) call st =
      (inr (thrown (getNormalizedMoveFunction p package module function)),
       snd (send (CallGetNormalizedMoveFunction package module function) st))) ∧
  (∀ package module function more,
      colon_free package = true -> colon_free module = true ->
      colon_free function = true ->
      target call =
        String.append package (String.append "::"
          (String.append module (String.append "::" function))) ∨
      target call =
        String.append package (String.append "::"
          (String.append module (String.append "::"
            (String.append function (String.append "::" more))))) ->
      requestSignature (Some p) call st =
      (inr (thrown (getNormalizedMoveFunction p (normalizeSuiObjectId package)
                      (Some module) (Some function))),
       snd (send (CallGetNormalizedMoveFunction (normalizeSuiObjectId package)
                    (Some module) (Some function)) st))) ∧
  (colon_free (target call) = true ->
   requestSignature (Some p) call st =
   (inr (thrown (getNormalizedMoveFunction p (normalizeSuiObjectId (target call))
                   None None)),
    snd (send (CallGetNormalizedMoveFunction (normalizeSuiObjectId (target call))
                 None None) st))).
Proof.
  split; [|split].
  - destruct (split_colons (target call) "") as [|packageId rest] eqn:Hsplit;
      [by apply split_colons_nonempty in Hsplit|].
    eexists _, _, _. by apply requestSignature_pieces.
  - intros package module function more Hpackage Hmodule Hfunction [Htarget|Htarget].
    + rewrite (requestSignature_pieces call st package [module; function]); [done|].
      rewrite Htarget, !split_colons_sep by done. by rewrite split_colons_free.
    + rewrite (requestSignature_pieces call st package
                 (module :: function :: split_colons more "")); [done|].
      rewrite Htarget. by rewrite !split_colons_sep by done.
  - intros Hfree.
    rewrite (requestSignature_pieces call st (target call) []); [done|].
    by rewrite split_colons_free.
Qed.

End Target.

Lemma X14_target_parsing_witness :
  requestSignature (Some Demo.service) (mkMoveCall "0x2::m::f::extra" [] []) (initial (Demo.tx [] [])) =
  (inr (thrown (getNormalizedMoveFunction Demo.service (normalizeSuiObjectId "0x2")
                  (Some "m") (Some "f"))),
   snd (send (CallGetNormalizedMoveFunction (normalizeSuiObjectId "0x2") (Some "m") (Some "f"))
             (initial (Demo.tx [] [])))).
Proof.
  refine (proj1 (proj2 (X14_target_parsing Demo.service
                          (mkMoveCall "0x2::m::f::extra" [] []) (initial (Demo.tx [] []))))
            "0x2" "m" "f" "extra" _ _ _ _);
    try reflexivity.
  right. reflexivity.
Defined.

(** ** Ids and answers of a batch *)

Lemma map_get_imap (objects : list SuiObjectResponse) (ids : list string) :
  ∀ (n k : nat) (id : string),
    NoDup ids -> ids !! k = Some id ->
    map_get id (imap (fun index id => (id, objects !! (n + index))) ids) =
    Some (objects !! (n + k)).
Proof.
  induction ids as [|x ids IH]; intros n k id Hnodup Hk; [by rewrite lookup_nil in Hk|].
  apply NoDup_cons in Hnodup as [Hx Hnodup]. rewrite imap_cons. cbn [map_get].
  destruct k as [|k].
  - injection Hk as ->. by rewrite String.eqb_refl.
  - cbn in Hk. destruct (String.eqb_spec x id) as [->|Hne].
    + destruct Hx. by eapply list_elem_of_lookup_2.
    + replace (n + S k) with (S n + k) by lia. rewrite <- (IH (S n) k id Hnodup Hk).
      f_equal. apply imap_ext. intros i y _. cbn.
      by replace (n + S i) with (S (n + i)) by lia.
Qed.

Lemma map_get_objectsById (objects : list SuiObjectResponse) (ids : list string) k id :
  NoDup ids -> ids !! k = Some id ->
  map_get id (objectsById_of ids objects) = Some (objects !! k).
Proof. intros Hnodup Hk. exact (map_get_imap objects ids 0 k id Hnodup Hk). Qed.

Lemma invalidObjects_missing (entries : list (string * option SuiObjectResponse)) id :
  (id, None) ∈ entries -> invalidObjects entries = inl TypeError.
Proof.
  induction entries as [|[id' [obj|]] entries IH]; intros Hin;
    [by apply elem_of_nil in Hin| |done].
  apply elem_of_cons in Hin as [[=]|Hin]. cbn. by rewrite IH.
Qed.

Section Answers.
Context `{Imports}.
Variable p : Provider.

(** X15: the answers of [getObjectBatch] are matched to the ids by
    position: every entry of the queue is resolved from the answer at the
    place its id has among the ids sent, and answers beyond the last id are
    never read; when fewer answers than ids come back, step 4 fails with a
    [TypeError], having sent its request and changed no input. *)
Theorem X15_answers_by_position (st : State) (objects : list SuiObjectResponse) :
  let queue := objectsToResolve st in
  let ids := dedupe (otr_id <$> queue) in
  (∀ entry, entry ∈ queue ->
     ∃ k, ids !! k = Some (otr_id entry) ∧
          (∀ j, ids !! j = Some (otr_id entry) -> j = k) ∧
          object_for (objectsById_of ids objects) entry = objects !! k) ∧
  ((length ids ≤ length objects)%nat ->
   ∀ more, objectsById_of ids (objects ++ more) = objectsById_of ids objects) ∧
  (getObjectBatch p ids = inr objects -> length objects < length ids ->
   resolveObjects (Some p) st = (inl TypeError, snd (send (CallGetObjectBatch ids) st))).
Proof.
  intros queue ids.
  assert (Hnodup : NoDup ids) by apply dedupe_from_NoDup.
  split; [|split].
  - intros entry Hentry.
    assert (Hid : otr_id entry ∈ ids).
    { apply dedupe_elem, list_elem_of_fmap. by exists entry. }
    apply list_elem_of_lookup in Hid as [k Hk]. exists k. split; [done|]. split.
    + intros j Hj. by eapply NoDup_lookup.
    + unfold object_for. rewrite (map_get_objectsById objects ids k _ Hnodup Hk).
      by destruct (objects !! k).
  - intros Hlong more. unfold objectsById_of. apply imap_ext. intros i id Hi.
    apply lookup_lt_Some in Hi. f_equal. apply lookup_app_l. lia.
  - intros Hbatch Hshort. unfold resolveObjects. fold queue.
    destruct queue as [|entry rest] eqn:Hqueue.
    { cbn in ids. subst ids. cbn in Hshort. lia. }
    fold ids. unfold bind at 1. cbn [expectProvider ret].
    unfold bind at 1, remote, bind at 1. cbn [send fst snd].
    rewrite Hbatch. cbn [thrown lift ret]. unfold bind at 1.
    destruct (lookup_lt_is_Some_2 ids (length objects) Hshort) as [id Hid].
    rewrite (invalidObjects_missing (objectsById_of ids objects) id); [done|].
    apply (list_elem_of_lookup_2 _ (length objects)).
    unfold objectsById_of. rewrite list_lookup_imap, Hid. cbn.
    by rewrite lookup_ge_None_2.
Qed.

End Answers.

Lemma X15_answers_by_position_witness :
  resolveObjects
    (Some (mkProvider (inr 1%N) (fun _ _ _ => inr []) (fun _ => inr []) (fun _ _ => inr [])))
    (mkState (Demo.tx [Demo.raw_object 0 "0xa"] []) [] [] [mkToResolve "0xa" 0 None]) =
  (inl TypeError,
   mkState (Demo.tx [Demo.raw_object 0 "0xa"] []) [CallGetObjectBatch ["0xa"]] []
           [mkToResolve "0xa" 0 None]).
Proof.
  refine (proj2 (proj2 (X15_answers_by_position
                          (mkProvider (inr 1%N) (fun _ _ _ => inr []) (fun _ => inr [])
                                      (fun _ _ => inr []))
                          (mkState (Demo.tx [Demo.raw_object 0 "0xa"] []) [] []
                                   [mkToResolve "0xa" 0 None])
                          [])) _ _).
  - reflexivity.
  - vm_compute. lia.
Defined.
